(** * Comet deployment tooling: configuration codec and migration composer

    A shallow embedding of
    - [packAssetConfig] and its helpers ([isAddress], [address], [floor],
      [number], [percentage]) from the configuration loader,
    - [subsets] and [MigrationConstraint.solve] from the migration
      constraint,
    - the rest of the loader ([getContractAddress], [getInterestRateInfo],
      [getTrackingInfo], [getAssetConfigs], [getConfiguration]), and
    - the contract [ScalingPriceFeed],
    together with the properties the specification states about them and
    further properties read off the code.

    JavaScript values are embedded as follows.
    - [number] is an IEEE-754 binary64 value, given by the Standard
      Library's executable specification of floating-point arithmetic
      ([SpecFloat], precision 53, [emax] 1024); [*] is [SFmul], [<] and [>]
      are [SFltb].
    - [bigint] is [Z]; [/] on bigints truncates towards zero ([Z.quot]),
      [<<] is [Z.shiftl], [|] is [Z.lor].
    - a string is a sequence of code units below 256 ([string]).
    - a [throw] is the [Err] branch of the [result] type; the first [throw]
      reached wins, which is what the monadic bind expresses. *)

From Stdlib Require Import ZArith Lia Bool List Ascii String Sorted OrdersEx.
From Stdlib Require Import Floats.SpecFloat.
From stdpp Require Import base list strings gmap.
From Equations Require Import Equations.

Local Open Scope Z_scope.

#[local] Set Warnings "-clear-no-such-hyp".

(** ** Thrown values *)

(** The loader throws [new Error(...)] with three different messages; the
    built-in [BigInt] conversion throws a [SyntaxError] (string that is not
    an integer literal) or a [RangeError] (number that is not an integer,
    negative exponent).  The message texts carry the offending value, kept
    here as the constructor's argument. *)
Inductive error : Type :=
  | ExpectedAddress (got : string)
  | PercentageGreater (received : spec_float)
  | PercentageLess (received : spec_float)
  | BigIntSyntaxError
  | BigIntRangeError.

Inductive result (A : Type) : Type :=
  | Ok (a : A)
  | Err (e : error).
Arguments Ok {A} a.
Arguments Err {A} e.

Definition bind {A B : Type} (r : result A) (k : A -> result B) : result B :=
  match r with
  | Ok a => k a
  | Err e => Err e
  end.

Notation "'let*' x ':=' r 'in' k" := (bind r (fun x => k))
  (at level 10, x name, r at level 100, k at level 200).

(** The specification's error taxonomy. *)
Definition OutOfRange (e : error) : Prop :=
  match e with
  | PercentageGreater _ | PercentageLess _ => True
  | _ => False
  end.

Definition InvalidAddress (e : error) : Prop :=
  match e with
  | ExpectedAddress _ => True
  | _ => False
  end.


Definition fails_with {A : Type} (P : error -> Prop) (r : result A) : Prop :=
  match r with
  | Ok _ => False
  | Err e => P e
  end.

(** ** JavaScript numbers *)

Module JS.

Definition prec : Z := 53.
Definition emax : Z := 1024.

Definition double : Type := spec_float.

(** A [double] is a binary64 value when its mantissa is canonical and
    its exponent is in range. *)
Definition is_double (n : double) : Prop := valid_binary prec emax n = true.

(** The integer [z] as a number (exact when [z] has at most 53 bits). *)
Definition of_Z (z : Z) : double := binary_normalize prec emax z 0 false.

(** The decimal literal [n/d], correctly rounded. *)
Definition literal (n d : Z) : double := SFdiv prec emax (of_Z n) (of_Z d).

(** The literals of the source. *)
Definition zero : double := S754_zero false.
Definition one : double := S754_finite false 4503599627370496 (-52).
Definition ten_pow_18 : double := S754_finite false 7812500000000000 7.

Definition mul (x y : double) : double := SFmul prec emax x y.
Definition ltb (x y : double) : bool := SFltb x y.
Definition gtb (x y : double) : bool := SFltb y x.
Definition leb (x y : double) : bool := SFleb x y.

(** The signed mantissa of a finite number. *)
Definition signed (s : bool) (m : positive) : Z := cond_Zopp s (Zpos m).

(** [BigInt(Math.floor(n))]: [Math.floor] keeps [NaN] and the infinities,
    on which [BigInt] throws a [RangeError]; on a finite number the result
    is the largest integer not above it ([Z.shiftl] by a negative amount
    is the flooring division by a power of two). *)
Definition floor_to_bigint (n : double) : result Z :=
  match n with
  | S754_zero _ => Ok 0
  | S754_finite s m e => Ok (Z.shiftl (signed s m) e)
  | S754_infinity _ | S754_nan => Err BigIntRangeError
  end.

(** Whether a finite number [m * 2^e] is an integer. *)
Definition integral (m : positive) (e : Z) : bool :=
  (0 <=? e) || (Zpos m mod 2 ^ (- e) =? 0).

(** [BigInt(n)] for a number [n]: a [RangeError] unless [n] is an
    integer. *)
Definition BigInt_of_number (n : double) : result Z :=
  match n with
  | S754_zero _ => Ok 0
  | S754_finite s m e =>
      if integral m e then Ok (Z.shiftl (signed s m) e)
      else Err BigIntRangeError
  | S754_infinity _ | S754_nan => Err BigIntRangeError
  end.

(** The exact value of [n * 10^18], rounded down to an integer, for a
    finite [n]: the mathematical floor the encoding is compared with. *)
Definition exact_floor_scaled (n : double) (scale : Z) : Z :=
  match n with
  | S754_finite s m e => Z.shiftl (signed s m * scale) e
  | _ => 0
  end.

(** *** Strings *)

Definition code (c : ascii) : Z := Z.of_N (N_of_ascii c).

Definition between (lo hi : Z) (c : ascii) : bool :=
  (lo <=? code c) && (code c <=? hi).

(** The class [[a-fA-F0-9]]. *)
Definition is_hex (c : ascii) : bool :=
  between 97 102 c || between 65 70 c || between 48 57 c.

Definition digit_value (base : Z) (c : ascii) : option Z :=
  let v :=
    if between 48 57 c then Some (code c - 48)
    else if between 97 102 c then Some (code c - 87)
    else if between 65 70 c then Some (code c - 55)
    else None in
  match v with
  | Some d => if d <? base then Some d else None
  | None => None
  end.

Fixpoint digits_value (base : Z) (s : string) (acc : Z) : option Z :=
  match s with
  | EmptyString => Some acc
  | String c s' =>
      match digit_value base c with
      | Some d => digits_value base s' (acc * base + d)
      | None => None
      end
  end.

(** One or more digits of the given base. *)
Definition parse_digits (base : Z) (s : string) : option Z :=
  match s with
  | EmptyString => None
  | _ => digits_value base s 0
  end.

(** White space and line terminators among the code units below 256. *)
Definition is_space (c : ascii) : bool :=
  between 9 13 c || (code c =? 32) || (code c =? 160).

Fixpoint trim_start (s : string) : string :=
  match s with
  | String c s' => if is_space c then trim_start s' else s
  | EmptyString => EmptyString
  end.

Fixpoint trim_end (s : string) : string :=
  match s with
  | String c s' =>
      match trim_end s' with
      | EmptyString => if is_space c then EmptyString else String c EmptyString
      | t => String c t
      end
  | EmptyString => EmptyString
  end.

(** [StringToBigInt]: optional white space around a decimal literal with
    an optional sign, or around a [0x], [0o] or [0b] literal without
    sign; the empty string is [0n].  [None] is the [SyntaxError]. *)
Definition StringToBigInt (s : string) : option Z :=
  match trim_end (trim_start s) with
  | EmptyString => Some 0
  | String "0" (String ("x" | "X") r) => parse_digits 16 r
  | String "0" (String ("o" | "O") r) => parse_digits 8 r
  | String "0" (String ("b" | "B") r) => parse_digits 2 r
  | String "+" r => parse_digits 10 r
  | String "-" r => option_map Z.opp (parse_digits 10 r)
  | t => parse_digits 10 t
  end.

Definition BigInt_of_string (s : string) : result Z :=
  match StringToBigInt s with
  | Some v => Ok v
  | None => Err BigIntSyntaxError
  end.

(** *** Rounding, arithmetically *)

(** The record left by [k] one-bit shifts of [M]: the quotient, the
    round bit (whether the remainder reaches half the divisor) and the
    sticky bit (whether anything is left below the round bit). *)
Definition shifted (M k : Z) : shr_record :=
  let r := (0 <? k) && (2 ^ (k - 1) <=? M mod 2 ^ k) in
  {| shr_m := M / 2 ^ k;
     shr_r := r;
     shr_s := negb (M mod 2 ^ k - (if r then 2 ^ (k - 1) else 0) =? 0) |}.

(** Rounding to nearest, ties to even, of [M / 2^k]: the result is the
    quotient or its successor, it is the quotient when the division is
    exact, and it is at most half a unit away. *)
Definition nearest_even (M k : Z) : Z :=
  round_nearest_even (M / 2 ^ k) (loc_of_shr_record (shifted M k)).

(** The exponent of the grid on which [M * 2^E] is rounded. *)
Definition grid (M E : Z) : Z :=
  Z.max E (fexp prec emax (Zdigits2 M + E)).

Definition emin64 : Z := -1074.

(** What [binary_round_aux] returns on an exact positive input. *)
Definition rounded (s : bool) (M E : Z) : spec_float :=
  let g := grid M E in
  let R := nearest_even M (g - E) in
  if R =? 0 then S754_zero s
  else if R <? 2 ^ 53 then
    if g <=? 971 then S754_finite s (Z.to_pos R) g else S754_infinity s
  else
    if g + 1 <=? 971 then S754_finite s (Z.to_pos (R / 2)) (g + 1)
    else S754_infinity s.
End JS.

Import JS.

(** ** The configuration loader *)

Record NetworkAssetConfiguration : Type := {
  priceFeed : string;
  decimals : double;
  borrowCF : double;
  liquidateCF : double;
  liquidationFactor : double;
  supplyCap : double
}.

Record AssetConfigStruct : Type := {
  word_a : Z;
  word_b : Z
}.

(** [/^0x[a-fA-F0-9]{40}$/]: the two characters [0x] followed by exactly
    forty hexadecimal digits and nothing else. *)
Definition isAddress (a : string) : bool :=
  match a with
  | String "0" (String "x" r) =>
      (String.length r =? 40)%nat && forallb is_hex (list_ascii_of_string r)
  | _ => false
  end.

Definition address (a : string) : result string :=
  if negb (isAddress a) then Err (ExpectedAddress a) else Ok a.

Definition floor (n : double) : result Z := floor_to_bigint n.

(** [Number(n)] is [n] itself on a number; [checkRange] is not used by the
    source. *)
Definition number (n : double) (checkRange : bool) : result Z := floor n.

Definition percentage (n : double) (checkRange : bool) : result Z :=
  let* _ :=
    if checkRange then
      if gtb n one then Err (PercentageGreater n)
      else if ltb n zero then Err (PercentageLess n)
      else Ok tt
    else Ok tt in
  floor (mul n ten_pow_18).

(** [10n ** d]: a [RangeError] for a negative exponent. *)
Definition bigint_pow (b d : Z) : result Z :=
  if d <? 0 then Err BigIntRangeError else Ok (b ^ d).

Definition descale : Z := Z.quot (10 ^ 18) (10 ^ 4).

(** The statements of the source in their order; the two words are built
    last, [word_a] before [word_b], so the asset address is converted after
    every field of [assetConfig] has been read.  The optional [checkRange]
    arguments take their default [true]. *)
Definition packAssetConfig (assetAddress : string)
    (assetConfig : NetworkAssetConfiguration) : result AssetConfigStruct :=
  let* priceFeedAddress := address (priceFeed assetConfig) in
  let* decimals := BigInt_of_number (decimals assetConfig) in
  let* borrowCF := percentage (borrowCF assetConfig) true in
  let* liquidateCF := percentage (liquidateCF assetConfig) true in
  let* liquidationFactor := percentage (liquidationFactor assetConfig) true in
  let* supplyCap := number (supplyCap assetConfig) true in
  let* asset := BigInt_of_string assetAddress in
  let* feed := BigInt_of_string priceFeedAddress in
  let* unit := bigint_pow 10 decimals in
  Ok {| word_a :=
          Z.lor (Z.lor (Z.lor asset
            (Z.shiftl (Z.quot borrowCF descale) 160))
            (Z.shiftl (Z.quot liquidateCF descale) 176))
            (Z.shiftl (Z.quot liquidationFactor descale) 192);
        word_b :=
          Z.lor (Z.lor feed
            (Z.shiftl decimals 160))
            (Z.shiftl (Z.quot supplyCap unit) 168) |}.

(** *** Sample values *)

Definition asset_WBTC : string := "0x2260fac5e5542a773aa44fbcfedf7c193bc2c599".
Definition feed_sample : string := "0x5f4eC3Df9cbd43714FE2740f5E3616155c5b8419".

Definition sample_config : NetworkAssetConfiguration :=
  {| priceFeed := feed_sample;
     decimals := of_Z 8;
     borrowCF := literal 8 10;
     liquidateCF := literal 85 100;
     liquidationFactor := literal 95 100;
     supplyCap := of_Z (35000 * 10 ^ 8) |}.

(** *** Valid records, and the layout read back *)

(** A number is in [[0.0, 1.0]] when it is a binary64 value and both
    comparisons hold; [NaN] compares with nothing and is not. *)
Definition in_unit_interval (n : double) : Prop :=
  is_double n /\ leb zero n = true /\ leb n one = true.

(** "Greater than 1.0 or less than 0.0", as the source tests it. *)
Definition out_of_range (n : double) : Prop :=
  gtb n one = true \/ ltb n zero = true.

Definition finite (n : double) : Prop :=
  match n with
  | S754_zero _ | S754_finite _ _ _ => True
  | S754_infinity _ | S754_nan => False
  end.

(** A non-negative count: a finite number that is not below zero. *)
Definition is_count (n : double) : Prop :=
  is_double n /\ finite n /\ leb zero n = true.

(** A small non-negative integer with value [d]: it fits the eight bits
    between the offsets 160 and 168 of [word_b]. *)
Definition is_small_integer (n : double) (d : Z) : Prop :=
  BigInt_of_number n = Ok d /\ 0 <= d < 2 ^ 8.

(** A number other than [NaN] is out of range or in the unit interval. *)
Definition percentage_input (n : double) : Prop :=
  is_double n /\ n <> S754_nan.


(** A valid field record. *)
Record valid_fields (assetAddress : string)
    (c : NetworkAssetConfiguration) : Prop := {
  valid_asset : isAddress assetAddress = true;
  valid_priceFeed : isAddress (priceFeed c) = true;
  valid_decimals : exists d, is_small_integer (decimals c) d;
  valid_borrowCF : in_unit_interval (borrowCF c);
  valid_liquidateCF : in_unit_interval (liquidateCF c);
  valid_liquidationFactor : in_unit_interval (liquidationFactor c);
  valid_supplyCap : is_count (supplyCap c)
}.

(** The fields of a record on the scales of the packed words: addresses as
    160-bit values, percentages on the [10^18] scale, the supply cap in raw
    token units. *)
Record fields : Type := {
  f_asset : Z;
  f_borrowCF : Z;
  f_liquidateCF : Z;
  f_liquidationFactor : Z;
  f_priceFeed : Z;
  f_decimals : Z;
  f_supplyCap : Z
}.

(** Modelled from the spec: [unpack], which the loader does not have.  The
    specification asks for it and fixes what it reads, two 256-bit words:
    in [word_a] the address in the low 160 bits and three 16-bit factors at
    the offsets 160, 176 and 192, each rescaled by the descale constant
    [10^14]; in [word_b] the price feed in the low 160 bits, the decimals
    in the eight bits at offset 160 and the supply cap in the 88 bits that
    are left, from offset 168 to the end of the word, rescaled by
    [10^decimals]. *)
Definition unpack (w : AssetConfigStruct) : fields :=
  let window (word offset width : Z) :=
    Z.land (Z.shiftr word offset) (Z.ones width) in
  let decimals := window (word_b w) 160 8 in
  {| f_asset := window (word_a w) 0 160;
     f_borrowCF := window (word_a w) 160 16 * descale;
     f_liquidateCF := window (word_a w) 176 16 * descale;
     f_liquidationFactor := window (word_a w) 192 16 * descale;
     f_priceFeed := window (word_b w) 0 160;
     f_decimals := decimals;
     f_supplyCap := window (word_b w) 168 88 * 10 ^ decimals |}.

(** The values [packAssetConfig] computes from a record before it builds
    the two words. *)
Record encodes (assetAddress : string) (c : NetworkAssetConfiguration)
    (x : fields) : Prop := {
  enc_asset : BigInt_of_string assetAddress = Ok (f_asset x);
  enc_priceFeed : BigInt_of_string (priceFeed c) = Ok (f_priceFeed x);
  enc_decimals : BigInt_of_number (decimals c) = Ok (f_decimals x);
  enc_borrowCF : percentage (borrowCF c) true = Ok (f_borrowCF x);
  enc_liquidateCF : percentage (liquidateCF c) true = Ok (f_liquidateCF x);
  enc_liquidationFactor :
    percentage (liquidationFactor c) true = Ok (f_liquidationFactor x);
  enc_supplyCap : number (supplyCap c) true = Ok (f_supplyCap x)
}.

Record in_ranges (x : fields) : Prop := {
  rng_asset : 0 <= f_asset x < 2 ^ 160;
  rng_priceFeed : 0 <= f_priceFeed x < 2 ^ 160;
  rng_decimals : 0 <= f_decimals x < 2 ^ 8;
  rng_borrowCF : 0 <= f_borrowCF x <= 10 ^ 18;
  rng_liquidateCF : 0 <= f_liquidateCF x <= 10 ^ 18;
  rng_liquidationFactor : 0 <= f_liquidationFactor x <= 10 ^ 18;
  rng_supplyCap : 0 <= f_supplyCap x
}.

(** The packing rule in the words of the specification: each factor
    divided by [10^14], the supply cap divided by [10^decimals]. *)
Definition packing_rule (x : fields) : AssetConfigStruct :=
  {| word_a :=
       Z.lor (Z.lor (Z.lor (f_asset x)
         (Z.shiftl (f_borrowCF x / 10 ^ 14) 160))
         (Z.shiftl (f_liquidateCF x / 10 ^ 14) 176))
         (Z.shiftl (f_liquidationFactor x / 10 ^ 14) 192);
     word_b :=
       Z.lor (Z.lor (f_priceFeed x)
         (Z.shiftl (f_decimals x) 160))
         (Z.shiftl (f_supplyCap x / 10 ^ f_decimals x) 168) |}.



Definition bad_feed_config : NetworkAssetConfiguration :=
  {| priceFeed := "0x5f4eC3Df9cbd43714FE2740f5E3616155c5b841";
     decimals := of_Z 8;
     borrowCF := literal 8 10;
     liquidateCF := literal 85 100;
     liquidationFactor := literal 95 100;
     supplyCap := of_Z (35000 * 10 ^ 8) |}.

(** The supply cap in whole tokens fits the 88 bits that [word_b] has
    left above the decimals. *)
Definition cap_fits (c : NetworkAssetConfiguration) : Prop :=
  forall d, BigInt_of_number (decimals c) = Ok d ->
            exact_floor_scaled (supplyCap c) 1 / 10 ^ d < 2 ^ 88.

(** A valid record with a supply cap of [2^88] whole tokens. *)
Definition large_cap_config : NetworkAssetConfiguration :=
  {| priceFeed := feed_sample;
     decimals := of_Z 8;
     borrowCF := literal 8 10;
     liquidateCF := literal 85 100;
     liquidationFactor := literal 95 100;
     supplyCap := of_Z (2 ^ 88 * 10 ^ 8) |}.



(** ** The migration constraint *)

(** [Array.prototype.sort] with a comparator: a stable sort, written as the
    insertion of each element, last to first, in front of the first element
    of the sorted rest it does not compare above ([compareFn x y > 0] puts
    [x] after [y]). *)
Section ArraySort.
Context {A : Type} (compareFn : A -> A -> Z).

Fixpoint sort_insert (x : A) (l : list A) : list A :=
  match l with
  | [] => [x]
  | y :: l' => if 0 <? compareFn x y then y :: sort_insert x l'
               else x :: l
  end.

Definition Array_sort (l : list A) : list A := foldr sort_insert [] l.

Definition not_above (a b : A) : Prop := compareFn a b <= 0.
End ArraySort.

Section MigrationConstraint.
(** The context a solution runs in (with its deployment manager and the
    chain behind it), the artifacts migrations prepare, and the values
    migrations throw are opaque to the constraint. *)
Context {Ctx Artifact Exn : Type}.

(** A step of migration code: it ends in a context, with a value or a
    thrown exception. *)
Definition action (R : Type) : Type := Ctx -> Ctx * (Exn + R).

Record Migration : Type := {
  name : string;
  prepare : action Artifact;
  enact : Artifact -> action unit
}.

(** The host's [String.prototype.localeCompare], [JSON.stringify] on an
    artifact (which throws on values it cannot serialise) and the two
    accessors of the context. *)
Variable localeCompare : string -> string -> Z.
Variable stringify : Artifact -> Exn + string.
Variable getGovernor getProposer : action unit.

(** *** The store of arrays

    Arrays are objects: [subsets] yields the same array at every level
    of its recursion and pushes to it in between, and a solution sorts
    the array it captured in place.  An array is a location of the
    store; [[]] allocates the next location. *)
Definition loc : Type := nat.
Definition store : Type := list (list Migration).

Definition alloc (h : store) : loc * store := (length h, h ++ [[]]).

Definition push (h : store) (r : loc) (x : Migration) : store :=
  alter (fun l => l ++ [x]) r h.

Definition read (h : store) (r : loc) : list Migration :=
  default [] (h !! r).

(** *** The generator [subsets]

    A suspended generator is its position in the body: at the test of
    the [while] loop with the current [offset]; inside the [for ... of]
    with the inner generator suspended; or after the final [yield]. *)
Inductive generator : Type :=
  | AtWhile (offset : nat)
  | InFor (offset : nat) (first : Migration) (inner : generator)
  | Returned.

Section Subsets.
Variable array : list Migration.

Fixpoint while_weight (k : nat) : nat :=
  match k with
  | O => 1
  | S k' => 2 + 2 * while_weight k'
  end%nat.

Fixpoint weight (g : generator) : nat :=
  match g with
  | AtWhile offset => while_weight (length array - offset)
  | InFor offset _ inner =>
      1 + weight inner + while_weight (length array - offset)
  | Returned => 0
  end%nat.

Lemma while_weight_lookup (offset : nat) (first : Migration) :
  array !! offset = Some first ->
  (weight (InFor (S offset) first (AtWhile (S offset)))
   < weight (AtWhile offset))%nat.
Proof.
  intros Hl. apply lookup_lt_Some in Hl. simpl.
  replace (length array - offset)%nat
    with (S (length array - S offset)) by lia.
  simpl. lia.
Qed.

(** [next g h]: resume [g] on the store [h] up to its next [yield]
    ([Some] of the yielded array) or its return ([None]). *)
Equations? next (g : generator) (h : store)
  : option loc * generator * store by wf (weight g) lt :=
  next (AtWhile offset) h with Logic.inspect (array !! offset) := {
    | exist _ (Some first) Hl =>
        next (InFor (S offset) first (AtWhile (S offset))) h
    | exist _ None _ =>
        let '(r, h') := alloc h in (Some r, Returned, h') };
  next (InFor offset first inner) h with next inner h := {
    | (Some subset, inner', h') =>
        (Some subset, InFor offset first inner', push h' subset first)
    | (None, _, h') => next (AtWhile offset) h' };
  next Returned h := (None, Returned, h).
Proof.
  all: try (eapply while_weight_lookup; eassumption).
  all: simpl; lia.
Qed.

(** Each [yield] leaves a lighter generator behind, which is why the
    [for ... of] loop over it ends. *)
Lemma next_weight (g : generator) (h : store) :
  forall r g' h', next g h = (Some r, g', h') ->
  (weight g' < weight g)%nat.
Proof.
  funelim (next g h); intros r g' h1 Hn; try rewrite <- Heqcall in Hn.
  - discriminate.
  - specialize (H _ _ _ Hn).
    pose proof (while_weight_lookup _ _ Hl). lia.
  - inversion Hn; subst; clear Hn. simpl.
    destruct (length array - offset)%nat; simpl; lia.
  - inversion Hn; subst; clear Hn.
    specialize (Hind _ _ _ Heq). simpl. lia.
  - specialize (H _ _ _ Hn). simpl in *. lia.
Qed.
End Subsets.

(** *** Solutions *)

(** A solution is the closure [async function (ctx) ...]: its code is
    [run] below, and the one variable it captures is [migrationList], the
    array the generator yielded. *)
Record Solution : Type := { migrationList : loc }.

(** The [for ... of] loop of [solve]: resume the generator, push a
    solution for what it yields, until it returns. *)
Equations? solve_loop (catalog : list Migration) (g : generator)
    (h : store) (solutions : list Solution)
    : list Solution * store by wf (weight catalog g) lt :=
  solve_loop catalog g h solutions
    with Logic.inspect (next catalog g h) := {
      | exist _ (Some subset, g', h') Hn =>
          solve_loop catalog g' h'
            (solutions ++ [{| migrationList := subset |}])
      | exist _ (None, _, h') _ => (solutions, h') }.
Proof. eapply next_weight; eassumption. Qed.

(** [solve]: [catalog] is what [getMigrations] loaded; the generator
    starts as [subsets(catalog)] with the default [offset = 0]. *)
Definition solve (catalog : list Migration) (h : store)
  : list Solution * store :=
  solve_loop catalog (AtWhile 0) h [].

(** *** Running a solution *)

(** What a run does that can be seen from outside: the calls into
    migration code and the lines handed to [debug]. *)
Inductive event : Type :=
  | CallPrepare (migration : string)
  | CallEnact (migration : string)
  | DebugRunning (migrations : list string)
  | DebugPrepared (migration : string) (artifact : string)
  | DebugEnacted (migration : string).

Record world : Type := {
  context : Ctx;
  arrays : store;
  events : list event
}.

(** Code that runs in a world and ends with a value or a thrown
    exception; [>>=] stops at the first exception. *)
Definition M (R : Type) : Type := world -> world * (Exn + R).

Definition ret {R : Type} (x : R) : M R := fun w => (w, inr x).

Definition seq_ {R S : Type} (c : M R) (k : R -> M S) : M S :=
  fun w => match c w with
           | (w', inr x) => k x w'
           | (w', inl e) => (w', inl e)
           end.

Definition await {R : Type} (migration_code : action R) : M R :=
  fun w => let '(c, r) := migration_code (context w) in
           ({| context := c; arrays := arrays w; events := events w |}, r).

Definition emit (e : event) : M unit :=
  fun w => ({| context := context w; arrays := arrays w;
               events := events w ++ [e] |}, inr tt).

Definition throwing {R : Type} (r : Exn + R) : M R := fun w => (w, r).

Definition sort_in_place (r : loc) : M (list Migration) :=
  fun w =>
    let sorted :=
      Array_sort (fun a b => localeCompare (name a) (name b))
                 (read (arrays w) r) in
    ({| context := context w;
        arrays := <[r := sorted]> (arrays w);
        events := events w |}, inr sorted).

(** The body of [for (let migration of migrationList)]. *)
Definition apply_migration (migration : Migration) : M unit :=
  seq_ (emit (CallPrepare (name migration))) (fun _ =>
  seq_ (await (prepare migration)) (fun artifact =>
  seq_ (throwing (stringify artifact)) (fun json =>
  seq_ (emit (DebugPrepared (name migration) json)) (fun _ =>
  seq_ (emit (CallEnact (name migration))) (fun _ =>
  seq_ (await (enact migration artifact)) (fun _ =>
  emit (DebugEnacted (name migration)))))))).

Fixpoint apply_migrations (l : list Migration) : M unit :=
  match l with
  | [] => ret tt
  | migration :: rest =>
      seq_ (apply_migration migration) (fun _ => apply_migrations rest)
  end.

Definition run (s : Solution) : M Ctx :=
  seq_ (await getGovernor) (fun governor =>
  seq_ (await getProposer) (fun proposer =>
  seq_ (sort_in_place (migrationList s)) (fun sorted =>
  seq_ (emit (DebugRunning (name <$> sorted))) (fun _ =>
  seq_ (apply_migrations sorted) (fun _ =>
  fun w => (w, inr (context w))))))).

(** The names of the units a solution holds: the identity of its
    scenario. *)
Definition scenario (h : store) (s : Solution) : gset string :=
  list_to_set (name <$> read h (migrationList s)).

(** *** What the properties speak of *)

(** The arrays [subsets] yields, as values: every subset of [l], the
    ones with the first element (pushed last) before the ones without. *)
Fixpoint pure_subsets (l : list Migration) : list (list Migration) :=
  match l with
  | [] => [[]]
  | first :: rest =>
      ((fun subset => subset ++ [first]) <$> pure_subsets rest)
      ++ pure_subsets rest
  end.

(** What a suspended generator has yet to yield. *)
Fixpoint remaining (array : list Migration) (g : generator) : list (list Migration) :=
  match g with
  | AtWhile offset => pure_subsets (drop offset array)
  | InFor offset first inner =>
      ((fun subset => subset ++ [first]) <$> remaining array inner)
      ++ pure_subsets (drop offset array)
  | Returned => []
  end.

Definition names (l : list Migration) : gset string :=
  list_to_set (name <$> l).

(** The units whose [prepare], respectively [enact], was called, in
    the order of the calls. *)
Definition prepared (es : list event) : list string :=
  omap (fun e => match e with CallPrepare n => Some n | _ => None end) es.

Definition enacted (es : list event) : list string :=
  omap (fun e => match e with CallEnact n => Some n | _ => None end) es.

(** The statements of a solution before its loop. *)
Definition enter (s : Solution) : M (list Migration) :=
  seq_ (await getGovernor) (fun governor =>
  seq_ (await getProposer) (fun proposer =>
  seq_ (sort_in_place (migrationList s)) (fun sorted =>
  seq_ (emit (DebugRunning (name <$> sorted))) (fun _ =>
  ret sorted)))).

(** The unit [u], reached in the world [w1], throws [e] from its
    [prepare] or from its [enact], and leaves the world [w2]. *)
Inductive throws (u : Migration) (w1 : world) (e : Exn) : world -> Prop :=
  | throws_prepare c :
      prepare u (context w1) = (c, inl e) ->
      throws u w1 e
        {| context := c; arrays := arrays w1;
           events := events w1 ++ [CallPrepare (name u)] |}
  | throws_enact c a j c' :
      prepare u (context w1) = (c, inr a) ->
      stringify a = inr j ->
      enact u a c = (c', inl e) ->
      throws u w1 e
        {| context := c'; arrays := arrays w1;
           events := events w1 ++ [CallPrepare (name u);
                                   DebugPrepared (name u) j;
                                   CallEnact (name u)] |}.

(** The reading under which "the failure carries the responsible unit's
    name" holds: the name can be read off the surfaced failure. *)
Definition failure_names_unit (unit_name_of : Exn -> string) : Prop :=
  forall s w w0 before u after w1 w2 e x,
    enter s w = (w0, inr (before ++ u :: after)) ->
    apply_migrations before w0 = (w1, inr tt) ->
    throws u w1 e w2 ->
    run s w = (w2, inl x) ->
    unit_name_of x = name u.

End MigrationConstraint.

Arguments Migration : clear implicits.
Arguments world : clear implicits.

(** ** A simulated target *)

(** The comparison by code units, a consistent comparator to run the
    examples with. *)
Definition code_unit_compare (a b : string) : Z :=
  match String_as_OT.compare a b with
  | Lt => -1
  | Eq => 0
  | Gt => 1
  end.

(** The target is the list of the migrations enacted on it; an artifact is
    a string and is its own serialisation; exceptions are messages. *)
Definition target : Type := list string.

Definition migration (n : string) : Migration target string string :=
  {| name := n;
     prepare := fun t => (t, inr n);
     enact := fun artifact t => (t ++ [artifact], inr tt) |}.

Definition failing_prepare (n : string) : Migration target string string :=
  {| name := n;
     prepare := fun t => (t, inl "revert"%string);
     enact := fun artifact t => (t ++ [artifact], inr tt) |}.

Definition failing_enact (n : string) : Migration target string string :=
  {| name := n;
     prepare := fun t => (t, inr n);
     enact := fun artifact t => (t, inl "revert"%string) |}.

Definition serialise (artifact : string) : string + string := inr artifact.
Definition signer : @action target string unit := fun t => (t, inr tt).

Definition run_on_target :=
  run code_unit_compare serialise signer signer.

Definition fresh (h : list (list (Migration target string string)))
  : world target string string :=
  {| context := []; arrays := h; events := [] |}.

(** The catalog of the specification's example, in discovery order. *)
Definition catalog_ab : list (Migration target string string) :=
  [migration "b_addCollateral"; migration "a_fixOracle"].

(** Three units, discovered in reverse order; the enact of the second
    fails. *)
Definition catalog_abc : list (Migration target string string) :=
  [migration "c_raiseCap"; failing_enact "b_addCollateral";
   migration "a_fixOracle"].

(** The scenario of all three units of [catalog_abc], and its sibling
    without the failing unit. *)
Definition all_three : Solution := {| migrationList := 0%nat |}.
Definition without_b : Solution := {| migrationList := 2%nat |}.

Definition started (s : Solution) : world target string string :=
  fst (enter code_unit_compare signer signer s
         (fresh (snd (solve catalog_abc [])))).

Definition after_a : world target string string :=
  fst (apply_migrations serialise [migration "a_fixOracle"]
         (started all_three)).

Definition failed_at_b : world target string string :=
  {| context := ["a_fixOracle"%string];
     arrays := arrays after_a;
     events := events after_a
               ++ [CallPrepare "b_addCollateral";
                   DebugPrepared "b_addCollateral" "b_addCollateral";
                   CallEnact "b_addCollateral"] |}.


(** A context without governor, a unit whose artifact holds a bigint,
    and a [JSON.stringify] that throws on it. *)
Definition no_signer : @action target string unit :=
  fun t => (t, inl "no governor"%string).

Definition bigint_artifact (n : string) : Migration target string string :=
  {| name := n;
     prepare := fun t => (t, inr "1n"%string);
     enact := fun artifact t => (t ++ [artifact], inr tt) |}.

Definition serialise_json (artifact : string) : string + string :=
  if String.eqb artifact "1n" then inl "TypeError"%string
  else inr artifact.

(** ** The guard of the deployment steps *)

Section IdempotentExecutor.
(** The target the steps read and change, and what a failed read or a
    failed effect raises. *)
Context {Target Failure : Type}.

Definition condition : Type := Target -> Failure + bool.
Definition effect : Type := Target -> Target * (Failure + unit).

(** Modelled from the spec: [DeploymentManager.idempotent], the
    specification's [runIfNeeded], whose code is not among the sources.
    It evaluates the precondition on the current target; when the
    precondition is false it returns at once, without calling the effect
    and without error; when it is true it calls the effect and surfaces
    its failure unchanged; a failed read of the target is surfaced too. *)
Definition idempotent (pre : condition) (eff : effect) : effect :=
  fun t =>
    match pre t with
    | inl f => (t, inl f)
    | inr false => (t, inr tt)
    | inr true => eff t
    end.

(** The idempotence closure the specification asks of the author of a
    guarded action. *)
Definition closure (pre : condition) (eff : effect) : Prop :=
  forall t t', pre t = inr true -> eff t = (t', inr tt) ->
               pre t' = inr false.
End IdempotentExecutor.

(** ** The configuration of a network *)

(** What the loader throws besides the errors of the encoders: the
    [Error] of [getContractAddress], whose message names the contract
    and lists the keys of the map. *)
Inductive thrown : Type :=
  | Encoding (e : error)
  | CannotFindContract (contractName : string) (keys : list string).

Definition lift {A : Type} (r : result A) : thrown + A :=
  match r with
  | Ok a => inr a
  | Err e => inl (Encoding e)
  end.

Definition and_then {A B : Type} (r : thrown + A) (k : A -> thrown + B)
  : thrown + B :=
  match r with
  | inr a => k a
  | inl t => inl t
  end.

Notation "'let!' x ':=' r 'in' k" := (and_then r (fun x => k))
  (at level 10, x name, r at level 100, k at level 200).

(** A contract handle; the loader reads its [address] only. *)
Module Ethers.
Record Contract : Type := { address : string }.
End Ethers.

(** [ContractMap] is a [Map<string, Contract>]: its entries in insertion
    order.  [get] returns the value stored under a key, [keys] lists the
    keys in order. *)
Definition ContractMap : Type := list (string * Ethers.Contract).

Fixpoint Map_get (contractMap : ContractMap) (key : string)
  : option Ethers.Contract :=
  match contractMap with
  | [] => None
  | (k, contract) :: rest =>
      if String.eqb k key then Some contract else Map_get rest key
  end.

Definition Map_keys (contractMap : ContractMap) : list string :=
  fst <$> contractMap.

(** A contract handle is an object, never falsy: [!contract] holds
    exactly when [get] found nothing. *)
Definition getContractAddress (contractName : string)
    (contractMap : ContractMap) : thrown + string :=
  match Map_get contractMap contractName with
  | None =>
      inl (CannotFindContract contractName (Map_keys contractMap))
  | Some contract => inr (Ethers.address contract)
  end.

(** The records of the configuration file. *)
Module Network.
Record NetworkRateConfiguration : Type := {
  kink : double;
  slopeLow : double;
  slopeHigh : double;
  base : double
}.

Record NetworkTrackingConfiguration : Type := {
  indexScale : double;
  baseSupplySpeed : double;
  baseBorrowSpeed : double;
  baseMinForRewards : double
}.

(** [assets] is an object used as a map; it is held as its entries, in
    the order [Object.entries] lists them: integer-like names first, in
    ascending order, then the other names in the order of the file. *)
Record NetworkConfiguration : Type := {
  symbol : string;
  governor : string;
  pauseGuardian : string;
  baseToken : string;
  baseTokenPriceFeed : string;
  reserveRate : double;
  borrowMin : double;
  storeFrontPriceFactor : double;
  targetReserves : double;
  rates : NetworkRateConfiguration;
  tracking : NetworkTrackingConfiguration;
  assets : list (string * NetworkAssetConfiguration)
}.
End Network.

Record InterestRateInfo : Type := {
  kink : Z;
  perYearInterestRateSlopeLow : Z;
  perYearInterestRateSlopeHigh : Z;
  perYearInterestRateBase : Z
}.

Record TrackingInfo : Type := {
  trackingIndexScale : Z;
  baseTrackingSupplySpeed : Z;
  baseTrackingBorrowSpeed : Z;
  baseMinForRewards : Z
}.

(** The fields of an object literal are evaluated in the order they are
    written. *)
Definition getInterestRateInfo (rates : Network.NetworkRateConfiguration)
  : result InterestRateInfo :=
  let* kink := percentage (Network.kink rates) true in
  let* slopeLow := percentage (Network.slopeLow rates) true in
  let* slopeHigh := percentage (Network.slopeHigh rates) true in
  let* base := percentage (Network.base rates) true in
  Ok {| kink := kink;
        perYearInterestRateSlopeLow := slopeLow;
        perYearInterestRateSlopeHigh := slopeHigh;
        perYearInterestRateBase := base |}.

Definition getTrackingInfo (tracking : Network.NetworkTrackingConfiguration)
  : result TrackingInfo :=
  let* indexScale := number (Network.indexScale tracking) true in
  let* baseSupplySpeed := number (Network.baseSupplySpeed tracking) true in
  let* baseBorrowSpeed := number (Network.baseBorrowSpeed tracking) true in
  let* baseMinForRewards :=
    number (Network.baseMinForRewards tracking) true in
  Ok {| trackingIndexScale := indexScale;
        baseTrackingSupplySpeed := baseSupplySpeed;
        baseTrackingBorrowSpeed := baseBorrowSpeed;
        baseMinForRewards := baseMinForRewards |}.

(** [Array.prototype.map] with a callback that may throw: the elements
    are visited first to last and the first throw ends the visit. *)
Fixpoint Array_map {A B : Type} (callback : A -> thrown + B) (l : list A)
  : thrown + list B :=
  match l with
  | [] => inr []
  | x :: rest =>
      let! y := callback x in
      let! ys := Array_map callback rest in
      inr (y :: ys)
  end.

Definition getAssetConfigs
    (assets : list (string * NetworkAssetConfiguration))
    (contractMap : ContractMap) : thrown + list AssetConfigStruct :=
  Array_map
    (fun '(assetName, assetConfig) =>
       let! assetAddress := getContractAddress assetName contractMap in
       lift (packAssetConfig assetAddress assetConfig))
    assets.

(** What [getAssetConfigs] computes for one entry. *)
Definition packs_to (contractMap : ContractMap)
    (entry : string * NetworkAssetConfiguration)
    (w : AssetConfigStruct) : Prop :=
  exists assetAddress,
    getContractAddress (fst entry) contractMap = inr assetAddress
    /\ packAssetConfig assetAddress (snd entry) = Ok w.

(** The configuration handed to the deployment.  The record type is
    declared outside the loader; its fields are those of the object
    [getConfiguration] returns, the two spread objects kept whole. *)
Record ProtocolConfiguration : Type := {
  symbol : string;
  governor : string;
  pauseGuardian : string;
  baseToken : string;
  baseTokenPriceFeed : string;
  interestRateInfo : InterestRateInfo;
  reserveRate : Z;
  storeFrontPriceFactor : Z;
  trackingInfo : TrackingInfo;
  baseBorrowMin : Z;
  targetReserves : Z;
  assetConfigs : list AssetConfigStruct
}.

(** [getConfiguration] once the file is read and the contracts are
    known: [networkConfiguration] is what [loadNetworkConfiguration]
    parsed, [contractMap] is [contractMapOverride] or else the contracts
    of the deployment manager. *)
Definition getConfiguration
    (networkConfiguration : Network.NetworkConfiguration)
    (contractMap : ContractMap) : thrown + ProtocolConfiguration :=
  let symbol := Network.symbol networkConfiguration in
  let! baseToken :=
    getContractAddress (Network.baseToken networkConfiguration)
                       contractMap in
  let! baseTokenPriceFeed :=
    lift (address (Network.baseTokenPriceFeed networkConfiguration)) in
  let! governor := lift (address (Network.governor networkConfiguration)) in
  let! pauseGuardian :=
    lift (address (Network.pauseGuardian networkConfiguration)) in
  let! reserveRate :=
    lift (percentage (Network.reserveRate networkConfiguration) true) in
  let! baseBorrowMin :=
    lift (number (Network.borrowMin networkConfiguration) true) in
  let! storeFrontPriceFactor :=
    lift (number (Network.storeFrontPriceFactor networkConfiguration)
            true) in
  let! targetReserves :=
    lift (number (Network.targetReserves networkConfiguration) true) in
  let! interestRateInfo :=
    lift (getInterestRateInfo (Network.rates networkConfiguration)) in
  let! trackingInfo :=
    lift (getTrackingInfo (Network.tracking networkConfiguration)) in
  let! assetConfigs :=
    getAssetConfigs (Network.assets networkConfiguration) contractMap in
  inr {| symbol := symbol;
         governor := governor;
         pauseGuardian := pauseGuardian;
         baseToken := baseToken;
         baseTokenPriceFeed := baseTokenPriceFeed;
         interestRateInfo := interestRateInfo;
         reserveRate := reserveRate;
         storeFrontPriceFactor := storeFrontPriceFactor;
         trackingInfo := trackingInfo;
         baseBorrowMin := baseBorrowMin;
         targetReserves := targetReserves;
         assetConfigs := assetConfigs |}.

(** *** A sample network *)

(** Lower-case letters for upper-case ones, to compare addresses that
    differ in case only. *)
Definition lower (c : ascii) : ascii :=
  if between 65 90 c then ascii_of_N (N_of_ascii c + 32) else c.

Fixpoint lowercase (s : string) : string :=
  match s with
  | EmptyString => EmptyString
  | String c s' => String (lower c) (lowercase s')
  end.

Definition sample_rates : Network.NetworkRateConfiguration :=
  {| Network.kink := literal 8 10;
     Network.slopeLow := literal 5 100;
     Network.slopeHigh := literal 9 10;
     Network.base := literal 1 100 |}.

(** A slope of 300% per year above the kink. *)
Definition steep_rates : Network.NetworkRateConfiguration :=
  {| Network.kink := literal 8 10;
     Network.slopeLow := literal 5 100;
     Network.slopeHigh := of_Z 3;
     Network.base := literal 1 100 |}.

Definition sample_tracking : Network.NetworkTrackingConfiguration :=
  {| Network.indexScale := of_Z (10 ^ 15);
     Network.baseSupplySpeed := of_Z 0;
     Network.baseBorrowSpeed := of_Z 0;
     Network.baseMinForRewards := of_Z 1000000 |}.

Definition sample_contracts : ContractMap :=
  [("USDC"%string,
    {| Ethers.address := "0x07865c6E87B9F70255377e024ace6630C1Eaa37F" |});
   ("WBTC"%string, {| Ethers.address := asset_WBTC |})].

Definition sample_network : Network.NetworkConfiguration :=
  {| Network.symbol := "cUSDCv3";
     Network.governor := "0x8Fa336EB4bF58Cfc508dEA1B0aeC7336f55B1399";
     Network.pauseGuardian := "0x8Fa336EB4bF58Cfc508dEA1B0aeC7336f55B1399";
     Network.baseToken := "USDC";
     Network.baseTokenPriceFeed := feed_sample;
     Network.reserveRate := literal 1 10;
     Network.borrowMin := of_Z 1000000;
     Network.storeFrontPriceFactor := literal 5 10;
     Network.targetReserves := of_Z 5000000;
     Network.rates := sample_rates;
     Network.tracking := sample_tracking;
     Network.assets := [("WBTC"%string, sample_config)] |}.

(** ** The scaling price feed *)

(** The contract [ScalingPriceFeed] (Solidity 0.8.15).  Integers of the
    types [uint8], [uint80], [uint256] and [int256] are held in [Z];
    arithmetic is checked, as the compiler makes it: an operation whose
    result leaves its type reverts with [Panic(0x11)], a division by zero
    with [Panic(0x12)].  A revert of a called contract is passed on, and
    a word that does not decode to its type reverts without data. *)
Module ScalingPriceFeed.

Inductive failure : Type :=
  | InvalidInt256
  | Panic (code : Z)
  | Reverted (data : string).

Definition call (A : Type) : Type := failure + A.

Definition call_bind {A B : Type} (c : call A) (k : A -> call B)
  : call B :=
  match c with
  | inr a => k a
  | inl f => inl f
  end.

Notation "'let?' x ':=' c 'in' k" := (call_bind c (fun x => k))
  (at level 10, x name, c at level 100, k at level 200).

Definition uint8_max : Z := 2 ^ 8 - 1.
Definition uint80_max : Z := 2 ^ 80 - 1.
Definition uint256_max : Z := 2 ^ 256 - 1.
Definition int256_min : Z := - 2 ^ 255.
Definition int256_max : Z := 2 ^ 255 - 1.

Definition is_uint8 (n : Z) : Prop := 0 <= n <= uint8_max.
Definition is_uint80 (n : Z) : Prop := 0 <= n <= uint80_max.
Definition is_int256 (n : Z) : Prop := int256_min <= n <= int256_max.

Definition overflow : Z := 0x11.
Definition division_by_zero : Z := 0x12.

(** [a - b] on [uint8]. *)
Definition sub_uint8 (a b : Z) : call Z :=
  if a <? b then inl (Panic overflow) else inr (a - b).

(** [b ** e] on [uint256]: a literal base raised to a variable exponent
    is computed in [uint256]. *)
Definition pow_uint256 (b e : Z) : call Z :=
  if b ^ e <=? uint256_max then inr (b ^ e) else inl (Panic overflow).

(** [a * b] on [int256]. *)
Definition mul_int256 (a b : Z) : call Z :=
  if (int256_min <=? a * b) && (a * b <=? int256_max) then inr (a * b)
  else inl (Panic overflow).

(** [a / b] on [int256]: the quotient is truncated towards zero. *)
Definition div_int256 (a b : Z) : call Z :=
  if b =? 0 then inl (Panic division_by_zero)
  else if (a =? int256_min) && (b =? -1) then inl (Panic overflow)
  else inr (Z.quot a b).

(** What a round of a feed returns: five words, of which the first and
    the last are read as [uint80]. *)
Record RoundData : Type := {
  roundId : Z;
  answer : Z;
  startedAt : Z;
  updatedAt : Z;
  answeredInRound : Z
}.

(** The compiler's decoder: a word that is to be a [uint8] or a [uint80]
    and does not fit makes the call revert, without data.  It guards the
    arguments a function receives and the values a called contract
    returns. *)
Definition fits_uint8 (n : Z) : bool := (0 <=? n) && (n <=? uint8_max).

Definition decode_uint8 (n : Z) : call Z :=
  if fits_uint8 n then inr n else inl (Reverted "").

Definition fits_uint80 (n : Z) : bool := (0 <=? n) && (n <=? uint80_max).

Definition decode_uint80 (n : Z) : call Z :=
  if fits_uint80 n then inr n else inl (Reverted "").

Definition decode_round (reply : RoundData) : call RoundData :=
  if fits_uint80 (roundId reply) && fits_uint80 (answeredInRound reply)
  then inr reply
  else inl (Reverted "").

(** The interface the contract implements and calls: a feed is the
    answers of its view functions. *)
Module AggregatorV3Interface.
Record t : Type := {
  decimals : call Z;
  description : call string;
  version : call Z;
  getRoundData : Z -> call RoundData;
  latestRoundData : call RoundData
}.
End AggregatorV3Interface.

(** The storage and the immutables of a deployed contract; the address
    of the underlying feed stands for the contract deployed there. *)
Record t : Type := {
  decimals : Z;
  underlyingPriceFeed : AggregatorV3Interface.t;
  description : string;
  shouldUpscale : bool;
  rescaleFactor : Z
}.

Definition version : Z := 1.

Definition signed256 (n : Z) : call Z :=
  if int256_max <? n then inl InvalidInt256 else inr n.

Definition constructor (underlyingPriceFeed_ : AggregatorV3Interface.t)
    (decimals_ : Z) : call t :=
  let? decimals_ := decode_uint8 decimals_ in
  let? description_ :=
    AggregatorV3Interface.description underlyingPriceFeed_ in
  let? reply := AggregatorV3Interface.decimals underlyingPriceFeed_ in
  let? chainlinkPriceFeedDecimals := decode_uint8 reply in
  let shouldUpscale_ := chainlinkPriceFeedDecimals <? decimals_ in
  let? rescaleFactor_ :=
    if shouldUpscale_ then
      let? d := sub_uint8 decimals_ chainlinkPriceFeedDecimals in
      let? p := pow_uint256 10 d in
      signed256 p
    else
      let? d := sub_uint8 chainlinkPriceFeedDecimals decimals_ in
      let? p := pow_uint256 10 d in
      signed256 p in
  inr {| decimals := decimals_;
         underlyingPriceFeed := underlyingPriceFeed_;
         description := description_;
         shouldUpscale := shouldUpscale_;
         rescaleFactor := rescaleFactor_ |}.

Definition scalePrice (this : t) (price : Z) : call Z :=
  if shouldUpscale this then mul_int256 price (rescaleFactor this)
  else div_int256 price (rescaleFactor this).

Definition getRoundData (this : t) (roundId_ : Z) : call RoundData :=
  let? roundId_ := decode_uint80 roundId_ in
  let? reply :=
    AggregatorV3Interface.getRoundData (underlyingPriceFeed this)
                                       roundId_ in
  let? round := decode_round reply in
  let? scaledPrice := scalePrice this (answer round) in
  inr {| roundId := roundId round;
         answer := scaledPrice;
         startedAt := startedAt round;
         updatedAt := updatedAt round;
         answeredInRound := answeredInRound round |}.

Definition latestRoundData (this : t) : call RoundData :=
  let? reply :=
    AggregatorV3Interface.latestRoundData (underlyingPriceFeed this) in
  let? round := decode_round reply in
  let? scaledPrice := scalePrice this (answer round) in
  inr {| roundId := roundId round;
         answer := scaledPrice;
         startedAt := startedAt round;
         updatedAt := updatedAt round;
         answeredInRound := answeredInRound round |}.

(** [contract ScalingPriceFeed is AggregatorV3Interface]. *)
Definition as_feed (this : t) : AggregatorV3Interface.t :=
  {| AggregatorV3Interface.decimals := inr (decimals this);
     AggregatorV3Interface.description := inr (description this);
     AggregatorV3Interface.version := inr version;
     AggregatorV3Interface.getRoundData := getRoundData this;
     AggregatorV3Interface.latestRoundData := latestRoundData this |}.

(** A round with another answer, everything else passed on. *)
Definition with_answer (round : RoundData) (a : Z) : RoundData :=
  {| roundId := roundId round;
     answer := a;
     startedAt := startedAt round;
     updatedAt := updatedAt round;
     answeredInRound := answeredInRound round |}.

(** A feed with eight decimals and one round. *)
Definition sample_round : RoundData :=
  {| roundId := 1; answer := 185043000000; startedAt := 1660000000;
     updatedAt := 1660000012; answeredInRound := 1 |}.

Definition sample_feed : AggregatorV3Interface.t :=
  {| AggregatorV3Interface.decimals := inr 8;
     AggregatorV3Interface.description := inr "ETH / USD"%string;
     AggregatorV3Interface.version := inr 4;
     AggregatorV3Interface.getRoundData :=
       fun roundId_ =>
         if roundId_ =? 1 then inr sample_round
         else inl (Reverted "No data present");
     AggregatorV3Interface.latestRoundData := inr sample_round |}.

(** The contract deployed over the sample feed, as the constructor
    leaves it. *)
Definition scaled_sample (decimals_ : Z) (shouldUpscale_ : bool)
    (rescaleFactor_ : Z) : t :=
  {| decimals := decimals_;
     underlyingPriceFeed := sample_feed;
     description := "ETH / USD";
     shouldUpscale := shouldUpscale_;
     rescaleFactor := rescaleFactor_ |}.

End ScalingPriceFeed.

(** * Properties *)

(** ** Rounding in binary64 *)

Section Rounding.

Lemma digits2_pos_bounds (p : positive) :
  2 ^ (Zpos (digits2_pos p) - 1) <= Zpos p < 2 ^ Zpos (digits2_pos p).
Proof.
  induction p as [p IH | p IH |]; simpl digits2_pos.
  - rewrite Pos2Z.inj_succ, Pos2Z.inj_xI.
    replace (Z.succ (Zpos (digits2_pos p)) - 1)
      with (Z.succ (Zpos (digits2_pos p) - 1)) by lia.
    rewrite !Z.pow_succ_r by lia.
    revert IH. generalize (2 ^ (Zpos (digits2_pos p) - 1)).
    generalize (2 ^ Zpos (digits2_pos p)). lia.
  - rewrite Pos2Z.inj_succ. change (Zpos p~0) with (2 * Zpos p).
    replace (Z.succ (Zpos (digits2_pos p)) - 1)
      with (Z.succ (Zpos (digits2_pos p) - 1)) by lia.
    rewrite !Z.pow_succ_r by lia.
    revert IH. generalize (2 ^ (Zpos (digits2_pos p) - 1)).
    generalize (2 ^ Zpos (digits2_pos p)). lia.
  - simpl. lia.
Qed.

Lemma digits2_pos_le (p : positive) (k : Z) :
  0 <= k -> Zpos p < 2 ^ k -> Zpos (digits2_pos p) <= k.
Proof.
  intros Hk Hp. destruct (digits2_pos_bounds p) as [Hlo _].
  destruct (Z_le_gt_dec (Zpos (digits2_pos p)) k) as [|Hgt]; [assumption|].
  exfalso.
  assert (2 ^ k <= 2 ^ (Zpos (digits2_pos p) - 1))
    by (apply Z.pow_le_mono_r; lia).
  lia.
Qed.

Lemma shr_1_nonneg (m : Z) (r s : bool) :
  0 <= m ->
  shr_1 {| shr_m := m; shr_r := r; shr_s := s |}
  = {| shr_m := m / 2; shr_r := Z.odd m; shr_s := r || s |}.
Proof.
  intros Hm. rewrite <- Z.div2_div.
  destruct m as [|[p|p|]|p]; try reflexivity; lia.
Qed.

Lemma iter_pos_nat {A : Type} (f : A -> A) (p : positive) (x : A) :
  SpecFloat.iter_pos f p x = Nat.iter (Pos.to_nat p) f x.
Proof.
  revert x. induction p as [p IH | p IH |]; intros x.
  - change (SpecFloat.iter_pos f p~1 x)
      with (SpecFloat.iter_pos f p (SpecFloat.iter_pos f p (f x))).
    rewrite !IH, Pos2Nat.inj_xI.
    replace (S (2 * Pos.to_nat p))
      with (Pos.to_nat p + (Pos.to_nat p + 1))%nat by lia.
    rewrite !Nat.iter_add. reflexivity.
  - change (SpecFloat.iter_pos f p~0 x)
      with (SpecFloat.iter_pos f p (SpecFloat.iter_pos f p x)).
    rewrite !IH, Pos2Nat.inj_xO.
    replace (2 * Pos.to_nat p)%nat
      with (Pos.to_nat p + Pos.to_nat p)%nat by lia.
    rewrite Nat.iter_add. reflexivity.
  - reflexivity.
Qed.

Lemma shifted_0 (M : Z) :
  shifted M 0 = {| shr_m := M; shr_r := false; shr_s := false |}.
Proof.
  unfold shifted. simpl. rewrite Z.div_1_r, Z.mod_1_r. reflexivity.
Qed.

Lemma mod_pow2_succ (M k : Z) :
  0 <= k ->
  M mod 2 ^ (k + 1) = M mod 2 ^ k + (if Z.odd (M / 2 ^ k) then 2 ^ k else 0).
Proof.
  intros Hk. rewrite Z.pow_add_r, Z.pow_1_r by lia.
  assert (0 < 2 ^ k) by (apply Z.pow_pos_nonneg; lia).
  rewrite Z.rem_mul_r by lia.
  rewrite Zmod_odd. destruct (Z.odd (M / 2 ^ k)); lia.
Qed.

Lemma shr_1_shifted (M k : Z) :
  0 <= M -> 0 <= k -> shr_1 (shifted M k) = shifted M (k + 1).
Proof.
  intros HM Hk.
  assert (Hp : 0 < 2 ^ k) by (apply Z.pow_pos_nonneg; lia).
  assert (Hq : 0 <= M / 2 ^ k) by (apply Z.div_pos; lia).
  assert (Hrem : 0 <= M mod 2 ^ k < 2 ^ k) by (apply Z.mod_pos_bound; lia).
  unfold shifted at 1. rewrite shr_1_nonneg by assumption.
  unfold shifted. rewrite (mod_pow2_succ M k) by lia.
  replace (k + 1 - 1) with k by lia.
  rewrite Z.pow_add_r, Z.pow_1_r, <- Z.div_div by lia.
  f_equal.
  - replace (0 <? k + 1) with true by (symmetry; apply Z.ltb_lt; lia).
    simpl. destruct (Z.odd (M / 2 ^ k)); symmetry;
      [apply Z.leb_le | apply Z.leb_gt]; lia.
  - replace (0 <? k + 1) with true by (symmetry; apply Z.ltb_lt; lia).
    simpl.
    destruct (Z.eq_dec k 0) as [-> | Hk0].
    + simpl. rewrite Z.mod_1_r. simpl.
      destruct (Z.odd _); reflexivity.
    + replace (0 <? k) with true by (symmetry; apply Z.ltb_lt; lia).
      simpl.
      assert (Hh : 2 * 2 ^ (k - 1) = 2 ^ k).
      { rewrite <- Z.pow_succ_r by lia. f_equal. lia. }
      destruct (2 ^ (k - 1) <=? M mod 2 ^ k) eqn:Hr;
        [apply Z.leb_le in Hr | apply Z.leb_gt in Hr];
        destruct (Z.odd (M / 2 ^ k)); simpl;
        repeat match goal with
        | |- context [?a <=? ?b] => destruct (Z.leb_spec a b)
        | |- context [?a =? ?b] => destruct (Z.eqb_spec a b)
        end; simpl; try reflexivity; try lia.
Qed.

Lemma iter_shr_1 (M : Z) (k : nat) :
  0 <= M ->
  Nat.iter k shr_1 {| shr_m := M; shr_r := false; shr_s := false |}
  = shifted M (Z.of_nat k).
Proof.
  intros HM. induction k as [|k IH].
  - simpl. symmetry. apply shifted_0.
  - rewrite Nat2Z.inj_succ. simpl. rewrite IH.
    rewrite shr_1_shifted by lia. f_equal.
Qed.

Lemma shr_exact (M e n : Z) :
  0 <= M ->
  shr {| shr_m := M; shr_r := false; shr_s := false |} e n
  = (shifted M (Z.max 0 n), e + Z.max 0 n).
Proof.
  intros HM. destruct n as [|p|p]; simpl.
  - rewrite shifted_0, Z.add_0_r. reflexivity.
  - rewrite iter_pos_nat, iter_shr_1 by assumption.
    rewrite positive_nat_Z. reflexivity.
  - rewrite shifted_0, Z.add_0_r. reflexivity.
Qed.

Lemma nearest_even_spec (M k : Z) :
  0 <= M -> 0 <= k ->
  M / 2 ^ k <= nearest_even M k <= M / 2 ^ k + 1
  /\ (M mod 2 ^ k = 0 -> nearest_even M k = M / 2 ^ k)
  /\ 2 * Z.abs (nearest_even M k * 2 ^ k - M) <= 2 ^ k.
Proof.
  intros HM Hk.
  assert (Hp : 0 < 2 ^ k) by (apply Z.pow_pos_nonneg; lia).
  pose proof (Z.div_mod M (2 ^ k) ltac:(lia)) as Hdm.
  pose proof (Z.mod_pos_bound M (2 ^ k) Hp) as Hrem.
  unfold nearest_even, shifted.
  destruct (Z.eq_dec k 0) as [-> | Hk0].
  - simpl. rewrite Z.mod_1_r, Z.div_1_r. simpl. lia.
  - replace (0 <? k) with true by (symmetry; apply Z.ltb_lt; lia).
    assert (Hh : 2 * 2 ^ (k - 1) = 2 ^ k).
    { rewrite <- Z.pow_succ_r by lia. f_equal. lia. }
    revert Hdm Hrem Hh.
    generalize (M / 2 ^ k) (M mod 2 ^ k) (2 ^ (k - 1)) (2 ^ k).
    intros q rem half P Hdm Hrem Hh. simpl.
    repeat match goal with
    | |- context [?a <=? ?b] => destruct (Z.leb_spec a b); simpl
    | |- context [?a =? ?b] => destruct (Z.eqb_spec a b); simpl
    | |- context [Z.even ?a] => destruct (Z.even a); simpl
    end; nia.
Qed.

Lemma fexp_eq (e : Z) : fexp prec emax e = Z.max (e - 53) emin64.
Proof. reflexivity. Qed.

Lemma grid_ge_emin (M E : Z) : emin64 <= grid M E.
Proof. unfold grid. rewrite fexp_eq. lia. Qed.

Lemma Zdigits2_le (R k : Z) :
  0 <= k -> 0 <= R < 2 ^ k -> Zdigits2 R <= k.
Proof.
  intros Hk [H0 Hlt]. destruct R as [|p|p]; simpl; try lia.
  apply digits2_pos_le; assumption.
Qed.

Lemma nearest_even_grid_le (M E : Z) :
  0 < M -> 0 <= nearest_even M (grid M E - E) <= 2 ^ 53.
Proof.
  intros HM.
  assert (Hn : 0 <= grid M E - E) by (unfold grid; lia).
  destruct (nearest_even_spec M (grid M E - E)) as (Hq & _ & _); try lia.
  assert (Hp : 0 < 2 ^ (grid M E - E)) by (apply Z.pow_pos_nonneg; lia).
  assert (0 <= M / 2 ^ (grid M E - E)) by (apply Z.div_pos; lia).
  assert (M / 2 ^ (grid M E - E) < 2 ^ 53); [|lia].
  apply Z.div_lt_upper_bound; [lia|].
  rewrite <- Z.pow_add_r by lia.
  destruct M as [|p|p]; try lia.
  destruct (digits2_pos_bounds p) as [_ Hhi].
  eapply Z.lt_le_trans; [exact Hhi|].
  apply Z.pow_le_mono_r; [lia|].
  unfold grid. rewrite fexp_eq. simpl Zdigits2. lia.
Qed.

Lemma binary_round_aux_exact (s : bool) (M E : Z) :
  0 < M ->
  binary_round_aux prec emax s M E loc_Exact = rounded s M E.
Proof.
  intros HM.
  pose proof (nearest_even_grid_le M E HM) as HR.
  pose proof (grid_ge_emin M E) as Hg.
  unfold binary_round_aux, shr_fexp, rounded. simpl shr_record_of_loc.
  rewrite shr_exact by lia.
  replace (Z.max 0 (fexp prec emax (Zdigits2 M + E) - E))
    with (grid M E - E) by (unfold grid; lia).
  replace (E + (grid M E - E)) with (grid M E) by lia.
  change (round_nearest_even (shr_m (shifted M (grid M E - E)))
            (loc_of_shr_record (shifted M (grid M E - E))))
    with (nearest_even M (grid M E - E)).
  set (R := nearest_even M (grid M E - E)) in *.
  set (g := grid M E) in *.
  rewrite shr_exact by lia.
  destruct (Z.eqb_spec R 0) as [HR0 | HR0].

  - rewrite HR0. simpl Zdigits2. rewrite fexp_eq.
    replace (Z.max 0 (Z.max (0 + g - 53) emin64 - g)) with 0 by lia.
    rewrite shifted_0. reflexivity.
  - destruct (Z.ltb_spec R (2 ^ 53)) as [Hlt | Hge].
    + assert (Hd : Zdigits2 R <= 53) by (apply Zdigits2_le; lia).
      rewrite fexp_eq.
      replace (Z.max 0 (Z.max (Zdigits2 R + g - 53) emin64 - g)) with 0
        by lia.
      rewrite shifted_0, Z.add_0_r. simpl shr_m.
      destruct R as [|p|p]; try lia. reflexivity.
    + assert (HRe : R = 2 ^ 53) by lia.
      rewrite HRe. change (Zdigits2 (2 ^ 53)) with 54. rewrite fexp_eq.
      replace (Z.max 0 (Z.max (54 + g - 53) emin64 - g)) with 1 by lia.
      reflexivity.
Qed.

Lemma shiftl_scaled (R g K : Z) :
  0 <= K -> 0 <= g + K -> Z.shiftl R g = (R * 2 ^ (g + K)) / 2 ^ K.
Proof.
  intros HK Hn.
  assert (HpK : 0 < 2 ^ K) by (apply Z.pow_pos_nonneg; lia).
  destruct (Z_le_gt_dec 0 g) as [Hg | Hg].
  - rewrite Z.shiftl_mul_pow2 by lia.
    rewrite Z.pow_add_r, Z.mul_assoc by lia.
    rewrite Z.div_mul by lia. reflexivity.
  - rewrite Z.shiftl_div_pow2 by lia.
    assert (Hp : 0 < 2 ^ (g + K)) by (apply Z.pow_pos_nonneg; lia).
    replace (2 ^ K) with (2 ^ (- g) * 2 ^ (g + K)).
    + rewrite Z.div_mul_cancel_r by lia. reflexivity.
    + rewrite <- Z.pow_add_r by lia. f_equal. lia.
Qed.

Lemma floor_rounded (M E : Z) :
  0 < M -> E <= 0 -> grid M E <= 970 ->
  floor_to_bigint (rounded false M E)
  = Ok ((nearest_even M (grid M E - E) * 2 ^ (grid M E - E)) / 2 ^ (- E)).
Proof.
  intros HM HE Hg.
  pose proof (nearest_even_grid_le M E HM) as HR.
  assert (Hn : 0 <= grid M E - E) by (unfold grid; lia).
  unfold rounded.
  set (R := nearest_even M (grid M E - E)) in *.
  set (g := grid M E) in *.
  replace (g - E) with (g + - E) by lia.
  rewrite <- shiftl_scaled by lia.
  destruct (Z.eqb_spec R 0) as [HR0 | HR0].
  - rewrite HR0, Z.shiftl_0_l. reflexivity.
  - destruct (Z.ltb_spec R (2 ^ 53)) as [Hlt | Hge].
    + replace (g <=? 971) with true by (symmetry; apply Z.leb_le; lia).
      cbn [floor_to_bigint signed cond_Zopp].
      rewrite Z2Pos.id by lia. reflexivity.
    + replace (g + 1 <=? 971) with true by (symmetry; apply Z.leb_le; lia).
      assert (HRe : R = Z.shiftl (R / 2) 1).
      { replace R with (2 ^ 53) by lia. reflexivity. }
      assert (0 < R / 2) by (replace R with (2 ^ 53) by lia; reflexivity).
      cbn [floor_to_bigint signed cond_Zopp].
      rewrite Z2Pos.id by lia.
      rewrite HRe at 2. rewrite Z.shiftl_shiftl by lia.
      f_equal. f_equal. lia.
Qed.

Lemma div_close (a b c d : Z) :
  0 < d -> Z.abs (a - b) <= c * d -> Z.abs (a / d - b / d) <= c.
Proof.
  intros Hd Hab.
  assert (a / d <= b / d + c).
  { rewrite <- Z.div_add by lia. apply Z.div_le_mono; lia. }
  assert (b / d <= a / d + c).
  { rewrite <- Z.div_add by lia. apply Z.div_le_mono; lia. }
  lia.
Qed.

Lemma unit_interval_finite (s : bool) (m : positive) (e : Z) :
  in_unit_interval (S754_finite s m e) ->
  s = false /\ e <= -52 /\ Zpos m <= 2 ^ (- e).
Proof.
  intros (Hv & H0 & H1).
  unfold is_double, valid_binary, bounded, canonical_mantissa in Hv.
  apply andb_true_iff in Hv as [Hc _]. apply Z.eqb_eq in Hc.
  rewrite fexp_eq in Hc.
  destruct (digits2_pos_bounds m) as [_ Hhi].
  destruct s; [discriminate|]. split; [reflexivity|].
  unfold leb, SFleb, one in H1. cbn [SFcompare] in H1.
  destruct (Z.compare_spec e (-52)) as [He | He | He]; try discriminate.
  - subst e. split; [lia|].
    assert (Hm : (m <= 4503599627370496)%positive).
    { unfold Pos.le, Pos.compare. revert H1.
      destruct (PosDef.Pos.compare_cont Eq m _); intros H1; discriminate. }
    change (2 ^ (- -52)) with (Zpos 4503599627370496).
    apply Pos2Z.pos_le_pos. exact Hm.
  - split; [lia|].
    assert (2 ^ Zpos (digits2_pos m) <= 2 ^ (- e))
      by (apply Z.pow_le_mono_r; unfold emin64 in Hc; lia).
    clear - Hhi H. lia.
Qed.

Lemma grid_product (m : positive) (e : Z) :
  e <= -52 -> Zpos m <= 2 ^ (- e) ->
  grid (Zpos (m * 7812500000000000)) (e + 7) <= 7.
Proof.
  intros He Hm. unfold grid. rewrite fexp_eq. cbn [Zdigits2].
  destruct (digits2_pos_bounds (m * 7812500000000000)) as [Hlo _].
  rewrite Pos2Z.inj_mul in Hlo.
  assert (Hp : 0 < 2 ^ (- e)) by (apply Z.pow_pos_nonneg; lia).
  assert (Hlt : 2 ^ (Zpos (digits2_pos (m * 7812500000000000)) - 1)
                < 2 ^ (- e + 53)).
  { rewrite Z.pow_add_r by lia. change (2 ^ 53) with 9007199254740992.
    nia. }
  apply Z.pow_lt_mono_r_iff in Hlt; unfold emin64; lia.
Qed.

(** The encoding of a percentage in range: the product with [1e18] is
    rounded on a grid of step at most [2^7], stays at most [10^18], its
    floor is at most 64 away from the exact floor, and it does not fall
    below a multiple of [10^14] that the exact value reaches (the multiple
    is on the grid). *)
Lemma percentage_finite (m : positive) (e : Z) :
  e <= -52 -> Zpos m <= 2 ^ (- e) ->
  exists v,
    floor (mul (S754_finite false m e) ten_pow_18) = Ok v
    /\ 0 <= v <= 10 ^ 18
    /\ Z.abs (v - exact_floor_scaled (S754_finite false m e) (10 ^ 18))
       <= 64
    /\ forall k,
         k * 10 ^ 14 <= exact_floor_scaled (S754_finite false m e) (10 ^ 18)
         -> k * 10 ^ 14 <= v.
Proof.
  intros He Hm.
  pose proof (grid_product m e He Hm) as Hg.
  unfold mul, ten_pow_18, floor. cbn [SFmul xorb].
  set (M := Zpos (m * 7812500000000000)) in *.
  assert (HM : 0 < M) by (unfold M; lia).
  rewrite binary_round_aux_exact by assumption.
  rewrite floor_rounded by lia.
  eexists; split; [reflexivity|].
  assert (Hn : 0 <= grid M (e + 7) - (e + 7)) by (unfold grid; lia).
  destruct (nearest_even_spec M (grid M (e + 7) - (e + 7)))
    as (Hq & Hex & Herr); try lia.
  pose proof (nearest_even_grid_le M (e + 7) HM) as HR.
  set (R := nearest_even M (grid M (e + 7) - (e + 7))) in *.
  set (g := grid M (e + 7)) in *.
  set (K := - (e + 7)).
  replace (g - (e + 7)) with (g + K) in * by (unfold K; lia).
  assert (HK : 0 <= K) by (unfold K; lia).
  assert (HpK : 0 < 2 ^ K) by (apply Z.pow_pos_nonneg; lia).
  assert (HP : 0 < 2 ^ (g + K)) by (apply Z.pow_pos_nonneg; lia).
  assert (Hc : 0 < 2 ^ (7 - g)) by (apply Z.pow_pos_nonneg; lia).
  assert (Hsplit : 2 ^ (g + K) * 2 ^ (7 - g) = 128 * 2 ^ K).
  { rewrite <- Z.pow_add_r by lia.
    replace (g + K + (7 - g)) with (7 + K) by lia.
    rewrite Z.pow_add_r by lia. reflexivity. }
  assert (HMle : M <= 10 ^ 18 * 2 ^ K).
  { unfold M. rewrite Pos2Z.inj_mul.
    replace (2 ^ (- e)) with (128 * 2 ^ K) in Hm.
    - change (10 ^ 18) with (7812500000000000 * 128). nia.
    - change 128 with (2 ^ 7). rewrite <- Z.pow_add_r by lia.
      f_equal. unfold K. lia. }
  assert (Hfloor : exact_floor_scaled (S754_finite false m e) (10 ^ 18)
                   = M / 2 ^ K).
  { unfold exact_floor_scaled, signed. cbn [cond_Zopp].
    rewrite Z.shiftl_div_pow2 by lia.
    replace (2 ^ (- e)) with (2 ^ K * 128).
    - change (10 ^ 18) with (7812500000000000 * 128).
      rewrite Z.mul_assoc, Z.div_mul_cancel_r by lia.
      unfold M. rewrite Pos2Z.inj_mul. reflexivity.
    - change 128 with (2 ^ 7). rewrite <- Z.pow_add_r by lia.
      f_equal. unfold K. lia. }
  rewrite Hfloor.
  pose proof (Z.div_mod M (2 ^ (g + K)) ltac:(lia)) as Hdm.
  pose proof (Z.mod_pos_bound M (2 ^ (g + K)) HP) as Hrem.
  assert (HRle : R * 2 ^ (g + K) <= 10 ^ 18 * 2 ^ K).
  { change (10 ^ 18) with (7812500000000000 * 128) in *.
    assert (R <= 7812500000000000 * 2 ^ (7 - g)); [|nia].
    destruct (Z.eq_dec (M mod 2 ^ (g + K)) 0) as [Hz | Hnz].
    - rewrite (Hex Hz). nia.
    - assert (M / 2 ^ (g + K) < 7812500000000000 * 2 ^ (7 - g)); nia. }
  split; [split|split].
  - apply Z.div_pos; nia.
  - apply Z.div_le_upper_bound; lia.
  - apply div_close; [lia|].
    assert (2 ^ (g + K) <= 128 * 2 ^ K) by nia. lia.
  - intros k Hk.
    assert (Hc14 : 0 < 2 ^ (14 - g)) by (apply Z.pow_pos_nonneg; lia).
    assert (Hsplit14 : 2 ^ (g + K) * 2 ^ (14 - g) = 16384 * 2 ^ K).
    { rewrite <- Z.pow_add_r by lia.
      replace (g + K + (14 - g)) with (14 + K) by lia.
      rewrite Z.pow_add_r by lia. reflexivity. }
    pose proof (Z.mul_div_le M (2 ^ K) HpK) as HMK.
    change (10 ^ 14) with (6103515625 * 16384) in *.
    apply Z.div_le_lower_bound; [lia|].
    assert (Hquot : k * 6103515625 * 2 ^ (14 - g) <= M / 2 ^ (g + K)).
    { apply Z.div_le_lower_bound; [lia|]. nia. }
    nia.
Qed.

End Rounding.

(** ** Addresses *)

Section Addresses.

Lemma is_hex_not_space (c : ascii) : is_hex c = true -> is_space c = false.
Proof.
  destruct c as [[] [] [] [] [] [] [] []]; intros H;
    try reflexivity; discriminate H.
Qed.

Lemma digit_value_hex (c : ascii) :
  is_hex c = true -> exists d, digit_value 16 c = Some d /\ 0 <= d < 16.
Proof.
  destruct c as [[] [] [] [] [] [] [] []]; intros H; try discriminate H;
    (eexists; split; [reflexivity | vm_compute; split; congruence]).
Qed.

Lemma trim_end_id (s : string) :
  forallb (fun c => negb (is_space c)) (list_ascii_of_string s) = true ->
  trim_end s = s.
Proof.
  induction s as [|c s IH]; simpl; [reflexivity|].
  intros H. apply andb_true_iff in H as [Hc Hs].
  rewrite (IH Hs). apply negb_true_iff in Hc. rewrite Hc.
  destruct s; reflexivity.
Qed.

Lemma digits_value_hex (r : string) (acc : Z) :
  forallb is_hex (list_ascii_of_string r) = true -> 0 <= acc ->
  exists v, digits_value 16 r acc = Some v
    /\ 0 <= v < (acc + 1) * 16 ^ Z.of_nat (String.length r).
Proof.
  revert acc. induction r as [|c r IH]; intros acc H Hacc.
  - exists acc. split; [reflexivity|]. simpl. lia.
  - simpl in H. apply andb_true_iff in H as [Hc Hr].
    destruct (digit_value_hex c Hc) as (d & Hd & Hdb).
    destruct (IH (acc * 16 + d) Hr) as (v & Hv & Hvb); [lia|].
    exists v. cbn [digits_value]. rewrite Hd. split; [exact Hv|].
    cbn [String.length]. rewrite Nat2Z.inj_succ, Z.pow_succ_r by lia.
    assert (0 < 16 ^ Z.of_nat (String.length r))
      by (apply Z.pow_pos_nonneg; lia).
    nia.
Qed.

Lemma isAddress_inv (a : string) :
  isAddress a = true ->
  exists r, a = String "0" (String "x" r)
    /\ String.length r = 40%nat
    /\ forallb is_hex (list_ascii_of_string r) = true.
Proof.
  unfold isAddress.
  destruct a as [|c0 [|c1 r]]; try discriminate.
  - destruct c0 as [[] [] [] [] [] [] [] []]; discriminate.
  - destruct c0 as [[] [] [] [] [] [] [] []]; try discriminate.
    destruct c1 as [[] [] [] [] [] [] [] []]; try discriminate.
    intros H. apply andb_true_iff in H as [Hl Hh].
    apply Nat.eqb_eq in Hl. exists r. auto.
Qed.

(** A well-formed address converts to a 160-bit value. *)
Lemma address_value (a : string) :
  isAddress a = true ->
  exists v, BigInt_of_string a = Ok v /\ 0 <= v < 2 ^ 160.
Proof.
  intros H. destruct (isAddress_inv a H) as (r & -> & Hl & Hh).
  unfold BigInt_of_string, StringToBigInt.
  change (trim_start (String "0" (String "x" r)))
    with (String "0" (String "x" r)).
  rewrite trim_end_id.
  - destruct (digits_value_hex r 0 Hh) as (v & Hv & Hvb); [lia|].
    exists v. cbn. unfold parse_digits.
    destruct r as [|c r]; [discriminate Hl|].
    rewrite Hv. split; [reflexivity|].
    rewrite Hl in Hvb. change ((0 + 1) * 16 ^ Z.of_nat 40) with (2 ^ 160) in Hvb.
    exact Hvb.
  - change (forallb (fun c => negb (is_space c)) (list_ascii_of_string r)
            = true).
    rewrite List.forallb_forall in Hh. apply List.forallb_forall.
    intros c Hc. rewrite (is_hex_not_space c (Hh c Hc)). reflexivity.
Qed.

End Addresses.

(** ** Bit fields of a word *)

Section Fields.

Lemma testbit_above (a k n : Z) :
  0 <= a < 2 ^ k -> 0 <= k <= n -> Z.testbit a n = false.
Proof.
  intros Ha Hk. rewrite <- (Z.mod_small a (2 ^ k)) by lia.
  apply Z.mod_pow2_bits_high. lia.
Qed.

(** A value below [2^k] and a value shifted left by [k] share no bit, so
    their bitwise OR is their sum. *)
Lemma lor_field (lo v k : Z) :
  0 <= k -> 0 <= lo < 2 ^ k ->
  Z.lor lo (Z.shiftl v k) = lo + v * 2 ^ k.
Proof.
  intros Hk Hlo.
  assert (Hdisj : Z.land lo (Z.shiftl v k) = 0).
  { apply Z.bits_inj'. intros n Hn.
    rewrite Z.land_spec, Z.bits_0.
    destruct (Z_lt_le_dec n k) as [Hlt | Hge].
    - rewrite Z.shiftl_spec_low by lia. apply andb_false_r.
    - rewrite (testbit_above lo k n) by lia. reflexivity. }
  rewrite <- Z.lxor_lor by exact Hdisj.
  rewrite <- Z.add_nocarry_lxor by exact Hdisj.
  rewrite Z.shiftl_mul_pow2 by lia. reflexivity.
Qed.

Lemma field_low (lo v k : Z) :
  0 <= k -> 0 <= lo < 2 ^ k ->
  Z.land (lo + v * 2 ^ k) (Z.ones k) = lo.
Proof.
  intros Hk Hlo. rewrite Z.land_ones by lia.
  rewrite Z.mod_add by lia. apply Z.mod_small. lia.
Qed.

Lemma field_high (lo v k : Z) :
  0 <= k -> 0 <= lo < 2 ^ k ->
  Z.shiftr (lo + v * 2 ^ k) k = v.
Proof.
  intros Hk Hlo. rewrite Z.shiftr_div_pow2 by lia.
  rewrite Z.div_add by lia. rewrite Z.div_small by lia. lia.
Qed.

Lemma below_next (lo v k w : Z) :
  0 <= k -> 0 <= w -> 0 <= lo < 2 ^ k -> 0 <= v < 2 ^ w ->
  0 <= lo + v * 2 ^ k < 2 ^ (k + w).
Proof.
  intros Hk Hw Hlo Hv. rewrite Z.pow_add_r by lia.
  assert (0 < 2 ^ k) by (apply Z.pow_pos_nonneg; lia).
  nia.
Qed.

(** The layout of [word_a]: a 160-bit value and three 16-bit values. *)
Lemma word_a_layout (a b c d : Z) :
  0 <= a < 2 ^ 160 -> 0 <= b < 2 ^ 16 -> 0 <= c < 2 ^ 16 ->
  0 <= d < 2 ^ 16 ->
  let w := Z.lor (Z.lor (Z.lor a (Z.shiftl b 160)) (Z.shiftl c 176))
                 (Z.shiftl d 192) in
  0 <= w < 2 ^ 208
  /\ Z.land w (Z.ones 160) = a
  /\ Z.land (Z.shiftr w 160) (Z.ones 16) = b
  /\ Z.land (Z.shiftr w 176) (Z.ones 16) = c
  /\ Z.land (Z.shiftr w 192) (Z.ones 16) = d.
Proof.
  intros Ha Hb Hc Hd w. subst w.
  pose proof (below_next a b 160 16 ltac:(lia) ltac:(lia) Ha Hb) as H1.
  pose proof (below_next _ c 176 16 ltac:(lia) ltac:(lia) H1 Hc) as H2.
  pose proof (below_next _ d 192 16 ltac:(lia) ltac:(lia) H2 Hd) as H3.
  rewrite (lor_field a b 160) by lia.
  rewrite (lor_field _ c 176) by (simpl Z.add in H1; lia).
  rewrite (lor_field _ d 192) by (simpl Z.add in H2; lia).
  split; [exact H3|]. split; [|split; [|split]].
  - replace (a + b * 2 ^ 160 + c * 2 ^ 176 + d * 2 ^ 192)
      with (a + (b + c * 2 ^ 16 + d * 2 ^ 32) * 2 ^ 160) by ring.
    apply field_low; lia.
  - replace (a + b * 2 ^ 160 + c * 2 ^ 176 + d * 2 ^ 192)
      with (a + (b + (c + d * 2 ^ 16) * 2 ^ 16) * 2 ^ 160) by ring.
    rewrite field_high by lia. apply field_low; lia.
  - replace (a + b * 2 ^ 160 + c * 2 ^ 176 + d * 2 ^ 192)
      with (a + b * 2 ^ 160 + (c + d * 2 ^ 16) * 2 ^ 176) by ring.
    rewrite field_high by (simpl Z.add in H1; lia). apply field_low; lia.
  - rewrite field_high by (simpl Z.add in H2; lia).
    rewrite Z.land_ones by lia. apply Z.mod_small. lia.
Qed.

(** The layout of [word_b]: a 160-bit value, an 8-bit value and whatever
    is left of the word. *)
Lemma word_b_layout (p d c : Z) :
  0 <= p < 2 ^ 160 -> 0 <= d < 2 ^ 8 -> 0 <= c ->
  let w := Z.lor (Z.lor p (Z.shiftl d 160)) (Z.shiftl c 168) in
  Z.land w (Z.ones 160) = p
  /\ Z.land (Z.shiftr w 160) (Z.ones 8) = d
  /\ Z.shiftr w 168 = c.
Proof.
  intros Hp Hd Hc w. subst w.
  pose proof (below_next p d 160 8 ltac:(lia) ltac:(lia) Hp Hd) as H1.
  rewrite (lor_field p d 160) by lia.
  rewrite (lor_field _ c 168) by (simpl Z.add in H1; lia).
  split; [|split].
  - replace (p + d * 2 ^ 160 + c * 2 ^ 168)
      with (p + (d + c * 2 ^ 8) * 2 ^ 160) by ring.
    apply field_low; lia.
  - replace (p + d * 2 ^ 160 + c * 2 ^ 168)
      with (p + (d + c * 2 ^ 8) * 2 ^ 160) by ring.
    rewrite field_high by lia. apply field_low; lia.
  - apply field_high; simpl Z.add in H1; lia.
Qed.

End Fields.

(** ** The codec on valid records *)

Section Codec.

Lemma compare_one_finite (m : positive) (e : Z) :
  leb (S754_finite false m e) one = true ->
  gtb (S754_finite false m e) one = false.
Proof.
  unfold leb, gtb, SFleb, SFltb, one. cbn [SFcompare].
  rewrite (Z.compare_antisym e (-52)).
  destruct (e ?= -52); cbn [CompOpp]; try congruence.
  match goal with
  | |- context [PosDef.Pos.compare_cont Eq ?x m] =>
      pose proof (Pos.compare_cont_antisym m x Eq) as Ha
  end.
  cbn [CompOpp] in Ha. rewrite <- Ha.
  destruct (PosDef.Pos.compare_cont Eq m _); cbn [CompOpp]; congruence.
Qed.

Lemma percentage_in_range (n : double) :
  in_unit_interval n ->
  exists v, percentage n true = Ok v
    /\ 0 <= v <= 10 ^ 18
    /\ Z.abs (v - exact_floor_scaled n (10 ^ 18)) <= 64
    /\ forall k, k * 10 ^ 14 <= exact_floor_scaled n (10 ^ 18) ->
                 k * 10 ^ 14 <= v.
Proof.
  intros Hn. destruct n as [s | s | | s m e].
  - exists 0. destruct s; repeat split; try reflexivity; cbn; lia.
  - destruct Hn as (_ & H0 & H1). destruct s; discriminate.
  - destruct Hn as (_ & H0 & _). discriminate.
  - destruct (unit_interval_finite s m e Hn) as (-> & He & Hm).
    destruct (percentage_finite m e He Hm) as (v & Hv & Hb & Hc & Hk).
    exists v. split; [|split; [|split]; assumption].
    destruct Hn as (_ & _ & H1).
    unfold percentage. rewrite (compare_one_finite m e H1).
    exact Hv.
Qed.

Lemma scaled_back (v D : Z) :
  0 < D -> 0 <= v - v / D * D < D.
Proof.
  intros HD. pose proof (Z.div_mod v D ltac:(lia)).
  pose proof (Z.mod_pos_bound v D HD). lia.
Qed.

(** What descaling keeps of a percentage is within [10^14] of its exact
    value on the [10^18] scale. *)
Lemma descaled_close (n : double) (v : Z) :
  in_unit_interval n -> percentage n true = Ok v ->
  -64 <= exact_floor_scaled n (10 ^ 18) - v / 10 ^ 14 * 10 ^ 14 < 10 ^ 14.
Proof.
  intros Hn Hv.
  destruct (percentage_in_range n Hn) as (v' & Hv' & Hr & Hd & Hk).
  rewrite Hv in Hv'. inversion Hv'; subst v'; clear Hv'.
  pose proof (scaled_back v (10 ^ 14) ltac:(lia)) as Hs.
  split; [lia|].
  destruct (Z_lt_le_dec (exact_floor_scaled n (10 ^ 18)
                         - v / 10 ^ 14 * 10 ^ 14) (10 ^ 14)) as [|Hge];
    [assumption|].
  specialize (Hk (v / 10 ^ 14 + 1)). lia.
Qed.

Lemma percentage_rejects (n : double) :
  out_of_range n -> fails_with OutOfRange (percentage n true).
Proof.
  intros [Hgt | Hlt]; unfold percentage.
  - rewrite Hgt. exact I.
  - rewrite Hlt. destruct (gtb n one); exact I.
Qed.

Lemma percentage_input_cases (n : double) :
  percentage_input n -> out_of_range n \/ in_unit_interval n.
Proof.
  intros [Hv Hnan]. destruct n as [s | s | | s m e].
  - right. destruct s; repeat split.
  - left. destruct s; [right | left]; reflexivity.
  - congruence.
  - destruct s; [left; right; reflexivity|].
    destruct (leb (S754_finite false m e) one) eqn:Hle.
    + right. repeat split; assumption.
    + left. left. revert Hle.
      unfold leb, gtb, SFleb, SFltb, one. cbn [SFcompare].
      rewrite (Z.compare_antisym e (-52)).
      destruct (e ?= -52); cbn [CompOpp]; try congruence.
      match goal with
      | |- context [PosDef.Pos.compare_cont Eq ?x m] =>
          pose proof (Pos.compare_cont_antisym m x Eq) as Ha
      end.
      cbn [CompOpp] in Ha. rewrite <- Ha.
      destruct (PosDef.Pos.compare_cont Eq m _); cbn [CompOpp]; congruence.
Qed.

Lemma count_floor (n : double) :
  is_count n -> exists c, number n true = Ok c /\ 0 <= c.
Proof.
  intros (_ & Hf & H0). destruct n as [s | s | | s m e]; try contradiction.
  - exists 0. split; [reflexivity | lia].
  - destruct s; [discriminate|].
    eexists. split; [reflexivity|].
    apply Z.shiftl_nonneg. cbn. lia.
Qed.

Lemma pack_encoded (assetAddress : string) (c : NetworkAssetConfiguration)
    (x : fields) :
  isAddress (priceFeed c) = true ->
  encodes assetAddress c x -> in_ranges x ->
  packAssetConfig assetAddress c = Ok (packing_rule x).
Proof.
  intros Hfeed [] [].
  unfold packAssetConfig, address. rewrite Hfeed. cbn [negb bind].
  rewrite enc_decimals0. cbn [bind].
  rewrite enc_borrowCF0. cbn [bind].
  rewrite enc_liquidateCF0. cbn [bind].
  rewrite enc_liquidationFactor0. cbn [bind].
  rewrite enc_supplyCap0. cbn [bind].
  rewrite enc_asset0. cbn [bind].
  rewrite enc_priceFeed0. cbn [bind].
  unfold bigint_pow.
  replace (f_decimals x <? 0) with false by (symmetry; apply Z.ltb_ge; lia).
  cbn [bind]. unfold packing_rule.
  change descale with (10 ^ 14).
  assert (0 < 10 ^ f_decimals x) by (apply Z.pow_pos_nonneg; lia).
  rewrite !Z.quot_div_nonneg by lia. reflexivity.
Qed.

Lemma valid_encoded (assetAddress : string)
    (c : NetworkAssetConfiguration) :
  valid_fields assetAddress c ->
  exists x, encodes assetAddress c x /\ in_ranges x.
Proof.
  intros [Ha Hp (d & Hd & Hdr) Hb Hl Hf Hc].
  destruct (address_value _ Ha) as (a & Hav & Har).
  destruct (address_value _ Hp) as (p & Hpv & Hpr).
  destruct (percentage_in_range _ Hb) as (b & Hbv & Hbr & _).
  destruct (percentage_in_range _ Hl) as (l & Hlv & Hlr & _).
  destruct (percentage_in_range _ Hf) as (f & Hfv & Hfr & _).
  destruct (count_floor _ Hc) as (cap & Hcv & Hcr).
  exists {| f_asset := a; f_borrowCF := b; f_liquidateCF := l;
            f_liquidationFactor := f; f_priceFeed := p;
            f_decimals := d; f_supplyCap := cap |}.
  split; constructor; assumption.
Qed.

Lemma descaled_range (v : Z) :
  0 <= v <= 10 ^ 18 -> 0 <= v / 10 ^ 14 <= 10 ^ 4 /\ v / 10 ^ 14 < 2 ^ 16.
Proof.
  intros Hv.
  assert (0 <= v / 10 ^ 14) by (apply Z.div_pos; lia).
  assert (v / 10 ^ 14 <= 10 ^ 18 / 10 ^ 14) by (apply Z.div_le_mono; lia).
  change (10 ^ 18 / 10 ^ 14) with (10 ^ 4) in *.
  change (10 ^ 4) with 10000 in *. change (2 ^ 16) with 65536. lia.
Qed.

End Codec.

(** ** The codec: packing, unpacking, rejection *)

Section CodecProperties.

Lemma window_0 (word width : Z) :
  Z.land (Z.shiftr word 0) (Z.ones width) = Z.land word (Z.ones width).
Proof. rewrite Z.shiftr_0_r. reflexivity. Qed.

Lemma unpack_packing_rule (x : fields) :
  in_ranges x ->
  let y := unpack (packing_rule x) in
  f_asset y = f_asset x
  /\ f_priceFeed y = f_priceFeed x
  /\ f_decimals y = f_decimals x
  /\ f_borrowCF y = f_borrowCF x / 10 ^ 14 * 10 ^ 14
  /\ f_liquidateCF y = f_liquidateCF x / 10 ^ 14 * 10 ^ 14
  /\ f_liquidationFactor y = f_liquidationFactor x / 10 ^ 14 * 10 ^ 14
  /\ f_supplyCap y
     = (f_supplyCap x / 10 ^ f_decimals x) mod 2 ^ 88
       * 10 ^ f_decimals x.
Proof.
  intros [].
  destruct (descaled_range _ rng_borrowCF0) as [Hb1 Hb2].
  destruct (descaled_range _ rng_liquidateCF0) as [Hl1 Hl2].
  destruct (descaled_range _ rng_liquidationFactor0) as [Hf1 Hf2].
  assert (Hu : 0 < 10 ^ f_decimals x) by (apply Z.pow_pos_nonneg; lia).
  assert (Hc : 0 <= f_supplyCap x / 10 ^ f_decimals x)
    by (apply Z.div_pos; lia).
  destruct (word_a_layout (f_asset x) (f_borrowCF x / 10 ^ 14)
              (f_liquidateCF x / 10 ^ 14)
              (f_liquidationFactor x / 10 ^ 14))
    as (_ & Ha & Hb & Hl & Hf); try lia.
  destruct (word_b_layout (f_priceFeed x) (f_decimals x)
              (f_supplyCap x / 10 ^ f_decimals x))
    as (Hp & Hd & Hs); try lia.
  unfold unpack.
  cbn [packing_rule word_a word_b f_asset f_priceFeed f_decimals
       f_borrowCF f_liquidateCF f_liquidationFactor f_supplyCap].
  rewrite !window_0, Ha, Hb, Hl, Hf, Hp, Hd, Hs.
  rewrite (Z.land_ones _ 88) by lia.
  change descale with (10 ^ 14). repeat split; reflexivity.
Qed.

Lemma number_exact_floor (n : double) (checkRange : bool) (v : Z) :
  number n checkRange = Ok v -> v = exact_floor_scaled n 1.
Proof.
  destruct n as [s | s | | s m e]; cbn; intros H;
    try discriminate H; inversion H; [reflexivity|].
  rewrite Z.mul_1_r. reflexivity.
Qed.

(** C1 (amended: round trip).  For every valid field record whose
    supply cap is below [2^88] whole tokens, [packAssetConfig] succeeds
    with two 256-bit words, and unpacking them gives back the asset
    address, the price-feed address and the decimals exactly, each
    percentage less than [10^14] below its encoding and within [10^14]
    of the exact value of the field times [10^18], and the supply cap
    less than one whole token ([10^decimals] raw units) below the floor
    of the field. *)
Theorem unpack_pack_round_trip (assetAddress : string)
    (c : NetworkAssetConfiguration) :
  valid_fields assetAddress c -> cap_fits c ->
  exists x w,
    encodes assetAddress c x
    /\ packAssetConfig assetAddress c = Ok w
    /\ 0 <= word_a w < 2 ^ 256
    /\ 0 <= word_b w < 2 ^ 256
    /\ f_asset (unpack w) = f_asset x
    /\ f_priceFeed (unpack w) = f_priceFeed x
    /\ f_decimals (unpack w) = f_decimals x
    /\ 0 <= f_borrowCF x - f_borrowCF (unpack w) < 10 ^ 14
    /\ 0 <= f_liquidateCF x - f_liquidateCF (unpack w) < 10 ^ 14
    /\ 0 <= f_liquidationFactor x - f_liquidationFactor (unpack w)
       < 10 ^ 14
    /\ 0 <= f_supplyCap x - f_supplyCap (unpack w) < 10 ^ f_decimals x
    /\ -64 <= exact_floor_scaled (borrowCF c) (10 ^ 18)
              - f_borrowCF (unpack w) < 10 ^ 14
    /\ -64 <= exact_floor_scaled (liquidateCF c) (10 ^ 18)
              - f_liquidateCF (unpack w) < 10 ^ 14
    /\ -64 <= exact_floor_scaled (liquidationFactor c) (10 ^ 18)
              - f_liquidationFactor (unpack w) < 10 ^ 14
    /\ 0 <= exact_floor_scaled (supplyCap c) 1 - f_supplyCap (unpack w)
       < 10 ^ f_decimals x.
Proof.
  intros Hv Hfits. destruct (valid_encoded _ _ Hv) as (x & Hx & Hr).
  exists x, (packing_rule x).
  split; [exact Hx|].
  split; [apply pack_encoded; [apply Hv | exact Hx | exact Hr]|].
  destruct (unpack_packing_rule x Hr) as (Ha & Hp & Hd & Hb & Hl & Hf & Hs).
  pose proof (number_exact_floor _ _ _ (enc_supplyCap _ _ _ Hx)) as Hcap.
  pose proof (Hfits _ (enc_decimals _ _ _ Hx)) as Hlt.
  rewrite <- Hcap in Hlt |- *.
  assert (Hu : 0 < 10 ^ f_decimals x)
    by (apply Z.pow_pos_nonneg; destruct Hr; lia).
  assert (Hc : 0 <= f_supplyCap x / 10 ^ f_decimals x)
    by (apply Z.div_pos; destruct Hr; lia).
  rewrite Z.mod_small in Hs by lia.
  rewrite Ha, Hp, Hd, Hb, Hl, Hf, Hs.
  pose proof (descaled_close _ _ (valid_borrowCF _ _ Hv)
                (enc_borrowCF _ _ _ Hx)) as Cb.
  pose proof (descaled_close _ _ (valid_liquidateCF _ _ Hv)
                (enc_liquidateCF _ _ _ Hx)) as Cl.
  pose proof (descaled_close _ _ (valid_liquidationFactor _ _ Hv)
                (enc_liquidationFactor _ _ _ Hx)) as Cf.
  split.
  { destruct Hr as [Ra Rp Rd Rb Rl Rf Rs].
    destruct (descaled_range _ Rb) as [Hb1 Hb2].
    destruct (descaled_range _ Rl) as [Hl1 Hl2].
    destruct (descaled_range _ Rf) as [Hf1 Hf2].
    destruct (word_a_layout (f_asset x) (f_borrowCF x / 10 ^ 14)
                (f_liquidateCF x / 10 ^ 14)
                (f_liquidationFactor x / 10 ^ 14))
      as (Hw & _); try lia.
    cbn [packing_rule word_a]. lia. }
  split.
  { destruct Hr as [Ra Rp Rd Rb Rl Rf Rs].
    cbn [packing_rule word_b].
    pose proof (below_next (f_priceFeed x) (f_decimals x) 160 8
                  ltac:(lia) ltac:(lia) Rp Rd) as H1.
    simpl Z.add in H1.
    pose proof (below_next _ (f_supplyCap x / 10 ^ f_decimals x) 168 88
                  ltac:(lia) ltac:(lia) H1 ltac:(lia)) as H2.
    simpl Z.add in H2.
    rewrite (lor_field (f_priceFeed x)) by lia.
    rewrite (lor_field _ _ 168) by lia. exact H2. }
  repeat (split; [first [reflexivity | apply scaled_back; lia]|]).
  split; [exact Cb|]. split; [exact Cl|]. split; [exact Cf|].
  apply scaled_back; lia.
Qed.

(** C3 (packing rule).  For every valid record, [packAssetConfig]
    returns the two words of the packing rule: [word_a] is the asset
    address ORed with the borrow, liquidate and liquidation-penalty
    factors, each divided by [10^14], at the offsets 160, 176 and 192;
    [word_b] is the price-feed address ORed with the decimals at offset
    160 and the supply cap divided by [10^decimals] at offset 168; and the
    low 160 bits of each word are the address put there.  The values so
    placed are those of the record: each factor, before the division, is
    within 64 of the exact value of its field times [10^18], so that the
    factor written is within one unit of the field times [10^4], and
    the supply cap, before the division, is the floor of its field. *)
Theorem pack_follows_packing_rule (assetAddress : string)
    (c : NetworkAssetConfiguration) :
  valid_fields assetAddress c ->
  exists x,
    encodes assetAddress c x
    /\ in_ranges x
    /\ packAssetConfig assetAddress c
       = Ok {| word_a :=
                 Z.lor (Z.lor (Z.lor (f_asset x)
                   (Z.shiftl (f_borrowCF x / 10 ^ 14) 160))
                   (Z.shiftl (f_liquidateCF x / 10 ^ 14) 176))
                   (Z.shiftl (f_liquidationFactor x / 10 ^ 14) 192);
               word_b :=
                 Z.lor (Z.lor (f_priceFeed x)
                   (Z.shiftl (f_decimals x) 160))
                   (Z.shiftl (f_supplyCap x / 10 ^ f_decimals x) 168) |}
    /\ Z.land (word_a (packing_rule x)) (Z.ones 160) = f_asset x
    /\ Z.land (word_b (packing_rule x)) (Z.ones 160) = f_priceFeed x
    /\ Z.abs (f_borrowCF x - exact_floor_scaled (borrowCF c) (10 ^ 18))
       <= 64
    /\ Z.abs (f_liquidateCF x
              - exact_floor_scaled (liquidateCF c) (10 ^ 18)) <= 64
    /\ Z.abs (f_liquidationFactor x
              - exact_floor_scaled (liquidationFactor c) (10 ^ 18)) <= 64
    /\ -64 <= exact_floor_scaled (borrowCF c) (10 ^ 18)
              - f_borrowCF x / 10 ^ 14 * 10 ^ 14 < 10 ^ 14
    /\ -64 <= exact_floor_scaled (liquidateCF c) (10 ^ 18)
              - f_liquidateCF x / 10 ^ 14 * 10 ^ 14 < 10 ^ 14
    /\ -64 <= exact_floor_scaled (liquidationFactor c) (10 ^ 18)
              - f_liquidationFactor x / 10 ^ 14 * 10 ^ 14 < 10 ^ 14
    /\ f_supplyCap x = exact_floor_scaled (supplyCap c) 1.
Proof.
  intros Hv. destruct (valid_encoded _ _ Hv) as (x & Hx & Hr).
  exists x. split; [exact Hx|]. split; [exact Hr|].
  split; [apply pack_encoded; [apply Hv | exact Hx | exact Hr]|].
  destruct (unpack_packing_rule x Hr) as (Ha & Hp & _).
  unfold unpack in Ha, Hp. cbn [f_asset f_priceFeed] in Ha, Hp.
  rewrite window_0 in Ha, Hp.
  split; [exact Ha|]. split; [exact Hp|].
  assert (Hclose : forall n v, in_unit_interval n ->
            percentage n true = Ok v ->
            Z.abs (v - exact_floor_scaled n (10 ^ 18)) <= 64).
  { intros n v Hn Hpv.
    destruct (percentage_in_range n Hn) as (v' & Hv' & _ & Hd & _).
    rewrite Hpv in Hv'. inversion Hv'; subst. exact Hd. }
  split; [apply Hclose; [apply Hv | apply Hx]|].
  split; [apply Hclose; [apply Hv | apply Hx]|].
  split; [apply Hclose; [apply Hv | apply Hx]|].
  split; [apply descaled_close; [apply Hv | apply Hx]|].
  split; [apply descaled_close; [apply Hv | apply Hx]|].
  split; [apply descaled_close; [apply Hv | apply Hx]|].
  eapply number_exact_floor. apply Hx.
Qed.

(** *** Sample records *)

Lemma sample_config_valid : valid_fields asset_WBTC sample_config.
Proof.
  constructor.
  - vm_compute; reflexivity.
  - vm_compute; reflexivity.
  - exists 8. split; [vm_compute; reflexivity | lia].
  - split; [|split]; vm_compute; reflexivity.
  - split; [|split]; vm_compute; reflexivity.
  - split; [|split]; vm_compute; reflexivity.
  - split; [|split]; vm_compute; solve [reflexivity | exact I].
Defined.

(** The record of the specification's example: factors 0.8, 0.85, 0.95. *)
Example sample_config_packed :
  packAssetConfig asset_WBTC sample_config
  = Ok {| word_a :=
            0x2260fac5e5542a773aa44fbcfedf7c193bc2c599
            + 8000 * 2 ^ 160 + 8500 * 2 ^ 176 + 9500 * 2 ^ 192;
          word_b :=
            0x5f4eC3Df9cbd43714FE2740f5E3616155c5b8419
            + 8 * 2 ^ 160 + 35000 * 2 ^ 168 |}.
Proof. vm_compute. reflexivity. Qed.

Lemma sample_config_cap_fits : cap_fits sample_config.
Proof.
  intros d Hd. vm_compute in Hd. inversion Hd; subst.
  vm_compute. reflexivity.
Defined.

Lemma unpack_pack_round_trip_witness :
  valid_fields asset_WBTC sample_config
  /\ cap_fits sample_config
  /\ exists x w,
       encodes asset_WBTC sample_config x
       /\ packAssetConfig asset_WBTC sample_config = Ok w
       /\ f_asset (unpack w) = f_asset x
       /\ 0 <= f_borrowCF x - f_borrowCF (unpack w) < 10 ^ 14
       /\ 0 <= exact_floor_scaled (supplyCap sample_config) 1
               - f_supplyCap (unpack w) < 10 ^ f_decimals x.
Proof.
  split; [exact sample_config_valid|].
  split; [exact sample_config_cap_fits|].
  destruct (unpack_pack_round_trip asset_WBTC sample_config
              sample_config_valid sample_config_cap_fits)
    as (x & w & Hx & Hw & _ & _ & Ha & _ & _ & Hb & _ & _ & _ & _ & _
        & _ & Hc).
  exists x, w. split; [exact Hx|]. split; [exact Hw|].
  split; [exact Ha|]. split; [exact Hb | exact Hc].
Defined.

(** C1, as stated, fails for a large supply cap: a cap of [2^88] whole
    tokens is a non-negative count and the record is valid, but the cap
    does not fit the 88 bits [word_b] has left for it; the word that is
    returned is wider than 256 bits and the cap read back from its 256
    bits is 0. *)
Lemma unpack_pack_loses_large_cap :
  valid_fields asset_WBTC large_cap_config
  /\ number (supplyCap large_cap_config) true = Ok (2 ^ 88 * 10 ^ 8)
  /\ exact_floor_scaled (supplyCap large_cap_config) 1 = 2 ^ 88 * 10 ^ 8
  /\ exists w,
       packAssetConfig asset_WBTC large_cap_config = Ok w
       /\ 2 ^ 256 <= word_b w
       /\ f_decimals (unpack w) = 8
       /\ f_supplyCap (unpack w) = 0
       /\ ~ (2 ^ 88 * 10 ^ 8 - f_supplyCap (unpack w) < 10 ^ 8).
Proof.
  split.
  { constructor.
    - vm_compute; reflexivity.
    - vm_compute; reflexivity.
    - exists 8. split; [vm_compute; reflexivity | lia].
    - split; [|split]; vm_compute; reflexivity.
    - split; [|split]; vm_compute; reflexivity.
    - split; [|split]; vm_compute; reflexivity.
    - split; [|split]; vm_compute; solve [reflexivity | exact I]. }
  split; [vm_compute; reflexivity|].
  split; [vm_compute; reflexivity|].
  eexists. split; [vm_compute; reflexivity|].
  split; [vm_compute; discriminate|].
  split; [vm_compute; reflexivity|].
  split; [vm_compute; reflexivity|].
  vm_compute. discriminate.
Qed.

Lemma pack_follows_packing_rule_witness :
  valid_fields asset_WBTC sample_config
  /\ exists x,
       encodes asset_WBTC sample_config x
       /\ packAssetConfig asset_WBTC sample_config = Ok (packing_rule x).
Proof.
  split; [exact sample_config_valid|].
  destruct (pack_follows_packing_rule asset_WBTC sample_config
              sample_config_valid) as (x & Hx & _ & Hw & _).
  exists x. split; assumption.
Defined.

(** *** Range rejection *)


Lemma in_range_not_rejected (n : double) :
  in_unit_interval n -> out_of_range n -> False.
Proof.
  intros Hin Hout.
  destruct (percentage_in_range n Hin) as (v & Hv & _).
  pose proof (percentage_rejects n Hout) as Hf.
  rewrite Hv in Hf. exact Hf.
Qed.





(** *** The encoding of a percentage *)

(** C7, as stated, fails: 0.07 is in range, its encoding is
    70000000000000008, and the exact floor of its value times [10^18] is
    70000000000000006 (that of the decimal 0.07 is 70000000000000000). *)
Lemma percentage_floor_inexact :
  in_unit_interval (literal 7 100)
  /\ percentage (literal 7 100) true = Ok 70000000000000008
  /\ exact_floor_scaled (literal 7 100) (10 ^ 18) = 70000000000000006
  /\ 7 * 10 ^ 18 / 100 = 70000000000000000.
Proof.
  split; [split; [|split]; vm_compute; reflexivity|].
  split; [|split]; vm_compute; reflexivity.
Qed.

(** C7 (amended).  For every percentage in [[0.0, 1.0]], the encoded
    integer is the floor of the binary64 product [n * 1e18]; it lies
    between 0 and [10^18] and is at most 64 away from the exact floor of
    the value times [10^18]. *)
Theorem percentage_floor_of_rounded_product (n : double) :
  in_unit_interval n ->
  exists v,
    percentage n true = Ok v
    /\ floor (mul n ten_pow_18) = Ok v
    /\ 0 <= v <= 10 ^ 18
    /\ Z.abs (v - exact_floor_scaled n (10 ^ 18)) <= 64.
Proof.
  intros Hn. destruct (percentage_in_range n Hn) as (v & Hv & Hr & Hd & _).
  exists v. split; [exact Hv|]. split; [|split; assumption].
  destruct (percentage_input_cases n) as [Ho | _].
  - split; [apply Hn|]. intros ->. destruct Hn as (_ & H0 & _).
    discriminate.
  - exfalso. eapply in_range_not_rejected; [exact Hn | exact Ho].
  - revert Hv. unfold percentage.
    destruct (gtb n one); [discriminate|].
    destruct (ltb n zero); [discriminate|]. cbn [bind]. auto.
Qed.

(** The specification's example: 0.8 is encoded exactly. *)
Lemma percentage_floor_of_rounded_product_witness :
  in_unit_interval (literal 8 10)
  /\ exists v,
       percentage (literal 8 10) true = Ok v
       /\ Z.abs (v - exact_floor_scaled (literal 8 10) (10 ^ 18)) <= 64.
Proof.
  assert (H : in_unit_interval (literal 8 10))
    by (split; [|split]; vm_compute; reflexivity).
  split; [exact H|].
  destruct (percentage_floor_of_rounded_product (literal 8 10) H)
    as (v & Hv & _ & _ & Hd).
  exists v. split; assumption.
Defined.

Example percentage_0_8 :
  percentage (literal 8 10) true = Ok 800000000000000000.
Proof. vm_compute. reflexivity. Qed.

(** The rounding reaches the packed factor: 0.57 is encoded as
    569999999999999936 and packed as 5699. *)
Example percentage_0_57 :
  percentage (literal 57 100) true = Ok 569999999999999936
  /\ Z.quot 569999999999999936 descale = 5699.
Proof. split; vm_compute; reflexivity. Qed.

(** *** Address validation *)

(** C9, as stated, fails for the asset address: ["0x1"] is not an address
    and the record is packed with it; ["WBTC"] is not an address either
    and the failure is the [SyntaxError] of [BigInt], not the loader's
    address error. *)
Lemma pack_accepts_malformed_asset :
  isAddress "0x1" = false
  /\ (exists w, packAssetConfig "0x1" sample_config = Ok w)
  /\ isAddress "WBTC" = false
  /\ packAssetConfig "WBTC" sample_config = Err BigIntSyntaxError
  /\ ~ fails_with InvalidAddress (packAssetConfig "0x1" sample_config)
  /\ ~ fails_with InvalidAddress (packAssetConfig "WBTC" sample_config).
Proof.
  split; [vm_compute; reflexivity|].
  split; [eexists; vm_compute; reflexivity|].
  split; [vm_compute; reflexivity|].
  split; [vm_compute; reflexivity|].
  split; vm_compute; auto.
Qed.

(** C9 (amended).  [packAssetConfig] fails with [InvalidAddress], the
    error naming the string, for every input whose price-feed address is
    not [0x] followed by exactly forty hexadecimal digits, whatever the
    other fields and the asset address are. *)
Theorem pack_rejects_malformed_priceFeed (assetAddress : string)
    (c : NetworkAssetConfiguration) :
  isAddress (priceFeed c) = false ->
  packAssetConfig assetAddress c = Err (ExpectedAddress (priceFeed c))
  /\ fails_with InvalidAddress (packAssetConfig assetAddress c).
Proof.
  intros H.
  assert (He : packAssetConfig assetAddress c
               = Err (ExpectedAddress (priceFeed c))).
  { unfold packAssetConfig, address. rewrite H. reflexivity. }
  split; [exact He|]. rewrite He. exact I.
Qed.

Lemma pack_rejects_malformed_priceFeed_witness :
  isAddress (priceFeed bad_feed_config) = false
  /\ fails_with InvalidAddress (packAssetConfig asset_WBTC bad_feed_config).
Proof.
  assert (H : isAddress (priceFeed bad_feed_config) = false)
    by (vm_compute; reflexivity).
  split; [exact H|].
  exact (proj2 (pack_rejects_malformed_priceFeed asset_WBTC
                  bad_feed_config H)).
Defined.

(** *** The fields of [word_a] *)

Lemma pack_inv (assetAddress : string) (c : NetworkAssetConfiguration)
    (w : AssetConfigStruct) :
  packAssetConfig assetAddress c = Ok w ->
  exists a p d b l f cap unit,
    BigInt_of_string assetAddress = Ok a
    /\ BigInt_of_string (priceFeed c) = Ok p
    /\ BigInt_of_number (decimals c) = Ok d
    /\ percentage (borrowCF c) true = Ok b
    /\ percentage (liquidateCF c) true = Ok l
    /\ percentage (liquidationFactor c) true = Ok f
    /\ number (supplyCap c) true = Ok cap
    /\ bigint_pow 10 d = Ok unit
    /\ w = {| word_a :=
                Z.lor (Z.lor (Z.lor a
                  (Z.shiftl (Z.quot b descale) 160))
                  (Z.shiftl (Z.quot l descale) 176))
                  (Z.shiftl (Z.quot f descale) 192);
              word_b :=
                Z.lor (Z.lor p (Z.shiftl d 160))
                      (Z.shiftl (Z.quot cap unit) 168) |}.
Proof.
  unfold packAssetConfig, address.
  destruct (isAddress (priceFeed c)); cbn [negb bind]; [|discriminate].
  destruct (BigInt_of_number (decimals c)) as [d|]; cbn [bind];
    [|discriminate].
  destruct (percentage (borrowCF c) true) as [b|]; cbn [bind];
    [|discriminate].
  destruct (percentage (liquidateCF c) true) as [l|]; cbn [bind];
    [|discriminate].
  destruct (percentage (liquidationFactor c) true) as [f|]; cbn [bind];
    [|discriminate].
  destruct (number (supplyCap c) true) as [cap|]; cbn [bind];
    [|discriminate].
  destruct (BigInt_of_string assetAddress) as [a|]; cbn [bind];
    [|discriminate].
  destruct (BigInt_of_string (priceFeed c)) as [p|]; cbn [bind];
    [|discriminate].
  destruct (bigint_pow 10 d) as [unit|] eqn:Hu; cbn [bind]; [|discriminate].
  intros H. inversion H; subst; clear H.
  exists a, p, d, b, l, f, cap, unit.
  repeat (split; [reflexivity|]). split; [exact Hu | reflexivity].
Qed.

(** C10, as stated, fails: factors in range do not keep the address out
    of their windows.  With the factors 0.8, 0.85 and 0.95, an asset
    string of forty-one hexadecimal digits is packed and the borrow
    factor read back is 8001, not 8000; the asset string ["-1"] is packed
    and every factor window reads 65535. *)
Lemma word_a_fields_overlap :
  in_unit_interval (borrowCF sample_config)
  /\ in_unit_interval (liquidateCF sample_config)
  /\ in_unit_interval (liquidationFactor sample_config)
  /\ percentage (borrowCF sample_config) true = Ok 800000000000000000
  /\ Z.quot 800000000000000000 descale = 8000
  /\ (exists w,
        packAssetConfig "0x10000000000000000000000000000000000000000"
                        sample_config = Ok w
        /\ Z.land (Z.shiftr (word_a w) 160) (Z.ones 16) = 8001)
  /\ (exists w,
        packAssetConfig "-1" sample_config = Ok w
        /\ Z.land (Z.shiftr (word_a w) 160) (Z.ones 16) = 65535
        /\ Z.land (Z.shiftr (word_a w) 176) (Z.ones 16) = 65535
        /\ Z.land (Z.shiftr (word_a w) 192) (Z.ones 16) = 65535).
Proof.
  split; [split; [|split]; vm_compute; reflexivity|].
  split; [split; [|split]; vm_compute; reflexivity|].
  split; [split; [|split]; vm_compute; reflexivity|].
  split; [vm_compute; reflexivity|].
  split; [vm_compute; reflexivity|].
  split; eexists; repeat split; vm_compute; reflexivity.
Qed.

(** C10 (amended: the fields of [word_a] do not overlap).  When the
    three percentage fields are in [[0.0, 1.0]], each descaled factor is
    at most [10^4], which is below [2^16]; so whenever the asset address
    converts to a 160-bit value, as every well-formed address does, and
    the record is packed, the address is the low 160 bits of [word_a]
    and each factor is read back by shifting to its offset and masking
    16 bits. *)
Theorem word_a_fields_disjoint (assetAddress : string)
    (c : NetworkAssetConfiguration) :
  in_unit_interval (borrowCF c) ->
  in_unit_interval (liquidateCF c) ->
  in_unit_interval (liquidationFactor c) ->
  exists b l f,
    percentage (borrowCF c) true = Ok b
    /\ percentage (liquidateCF c) true = Ok l
    /\ percentage (liquidationFactor c) true = Ok f
    /\ 0 <= Z.quot b descale <= 10 ^ 4
    /\ 0 <= Z.quot l descale <= 10 ^ 4
    /\ 0 <= Z.quot f descale <= 10 ^ 4
    /\ 10 ^ 4 < 2 ^ 16
    /\ (isAddress assetAddress = true ->
        exists a, BigInt_of_string assetAddress = Ok a
                  /\ 0 <= a < 2 ^ 160)
    /\ forall a w,
         BigInt_of_string assetAddress = Ok a -> 0 <= a < 2 ^ 160 ->
         packAssetConfig assetAddress c = Ok w ->
         Z.land (word_a w) (Z.ones 160) = a
         /\ Z.land (Z.shiftr (word_a w) 160) (Z.ones 16) = Z.quot b descale
         /\ Z.land (Z.shiftr (word_a w) 176) (Z.ones 16) = Z.quot l descale
         /\ Z.land (Z.shiftr (word_a w) 192) (Z.ones 16)
            = Z.quot f descale.
Proof.
  intros Hb Hl Hf.
  destruct (percentage_in_range _ Hb) as (b & Hbv & Hbr & _).
  destruct (percentage_in_range _ Hl) as (l & Hlv & Hlr & _).
  destruct (percentage_in_range _ Hf) as (f & Hfv & Hfr & _).
  destruct (descaled_range _ Hbr) as [Hb1 Hb2].
  destruct (descaled_range _ Hlr) as [Hl1 Hl2].
  destruct (descaled_range _ Hfr) as [Hf1 Hf2].
  exists b, l, f. change descale with (10 ^ 14).
  rewrite !Z.quot_div_nonneg by lia.
  repeat (split; [assumption|]). split; [reflexivity|].
  split; [apply address_value|].
  intros a w Ha Har Hw.
  destruct (pack_inv _ _ _ Hw)
    as (a' & p & d & b' & l' & f' & cap & unit
        & Ha' & _ & _ & Hb' & Hl' & Hf' & _ & _ & ->).
  rewrite Ha in Ha'. rewrite Hbv in Hb'. rewrite Hlv in Hl'.
  rewrite Hfv in Hf'.
  inversion Ha'; inversion Hb'; inversion Hl'; inversion Hf'; subst.
  change descale with (10 ^ 14). rewrite !Z.quot_div_nonneg by lia.
  cbn [word_a].
  destruct (word_a_layout a' (b' / 10 ^ 14) (l' / 10 ^ 14) (f' / 10 ^ 14))
    as (_ & H1 & H2 & H3 & H4); [lia | lia | lia | lia |].
  repeat split; assumption.
Qed.

Lemma word_a_fields_disjoint_witness :
  exists b l f,
    percentage (borrowCF sample_config) true = Ok b
    /\ percentage (liquidateCF sample_config) true = Ok l
    /\ percentage (liquidationFactor sample_config) true = Ok f
    /\ forall a w,
         BigInt_of_string asset_WBTC = Ok a -> 0 <= a < 2 ^ 160 ->
         packAssetConfig asset_WBTC sample_config = Ok w ->
         Z.land (Z.shiftr (word_a w) 160) (Z.ones 16) = Z.quot b descale.
Proof.
  destruct (word_a_fields_disjoint asset_WBTC sample_config
              (valid_borrowCF _ _ sample_config_valid)
              (valid_liquidateCF _ _ sample_config_valid)
              (valid_liquidationFactor _ _ sample_config_valid))
    as (b & l & f & Hb & Hl & Hf & _ & _ & _ & _ & _ & H).
  exists b, l, f. repeat (split; [assumption|]).
  intros a w Ha Har Hw. apply (H a w Ha Har Hw).
Defined.

(** An asset address that [BigInt] accepts but that is longer than an
    address spills into the factor fields: with forty-one digits the
    borrow factor read back from [word_a] is off by one. *)
Example overlong_asset_overlaps :
  exists w,
    packAssetConfig "0x10000000000000000000000000000000000000000"
                    sample_config = Ok w
    /\ Z.land (Z.shiftr (word_a w) 160) (Z.ones 16) = 8001.
Proof. eexists. split; vm_compute; reflexivity. Qed.

End CodecProperties.

(** ** Sorting *)

Section SortFacts.
Context {A : Type} (compareFn : A -> A -> Z).

(** A consistent comparator: swapping the arguments swaps the sign, and
    "not above" is transitive. *)
Hypothesis compare_antisym :
  forall a b, 0 < compareFn a b <-> compareFn b a < 0.
Hypothesis compare_trans :
  forall a b c, compareFn a b <= 0 -> compareFn b c <= 0 ->
                compareFn a c <= 0.

Lemma sort_insert_perm (x : A) (l : list A) :
  sort_insert compareFn x l ≡ₚ x :: l.
Proof.
  induction l as [|y l IH]; simpl; [reflexivity|].
  destruct (0 <? compareFn x y); [|reflexivity].
  rewrite IH. apply Permutation_swap.
Qed.


Lemma sort_insert_sorted (x : A) (l : list A) :
  StronglySorted (not_above compareFn) l ->
  StronglySorted (not_above compareFn) (sort_insert compareFn x l).
Proof.
  induction 1 as [|y l Hs IH Hy]; simpl.
  - repeat constructor.
  - destruct (Z.ltb_spec 0 (compareFn x y)) as [Hgt | Hle].
    + constructor; [exact IH|].
      rewrite sort_insert_perm. constructor; [|exact Hy].
      unfold not_above. apply compare_antisym in Hgt. lia.
    + constructor; [constructor; assumption|].
      constructor; [exact Hle|].
      eapply Forall_impl; [exact Hy|].
      intros z Hz. eapply compare_trans; [exact Hle | exact Hz].
Qed.

Lemma Array_sort_sorted (l : list A) :
  StronglySorted (not_above compareFn) (Array_sort compareFn l).
Proof.
  induction l as [|x l IH]; simpl; [constructor|].
  apply sort_insert_sorted. exact IH.
Qed.



End SortFacts.

(** ** The generator and the store *)

Section Generator.
Context {Ctx Artifact Exn : Type}.
Abbreviation unit_ := (Migration Ctx Artifact Exn).

Lemma pure_subsets_nonempty (l : list unit_) : pure_subsets l <> [].
Proof.
  induction l as [|x l IH]; simpl; [discriminate|].
  intros H. apply app_eq_nil in H as [_ H]. contradiction.
Qed.

(** Resuming a generator allocates one array, the next it has to yield,
    and leaves every other array of the store alone. *)
Lemma next_spec (array : list unit_) (g : generator) (h : store) :
  match remaining array g with
  | [] => exists g', next array g h = (None, g', h)
  | subset :: rest =>
      exists g', next array g h = (Some (length h), g', h ++ [subset])
                 /\ remaining array g' = rest
  end.
Proof.
  funelim (next array g h); try rewrite <- Heqcall.
  - simpl. eauto.
  - simpl remaining in *.
    rewrite (drop_S _ _ _ Hl). simpl pure_subsets. exact H.
  - simpl remaining. rewrite drop_ge by (apply lookup_ge_None; exact e).
    simpl. eauto.
  - simpl remaining.
    destruct (remaining array inner) as [|c rest].
    { destruct Hind as (g' & Hg). rewrite Hg in Heq. discriminate. }
    destruct Hind as (g' & Hg & Hrest). rewrite Hg in Heq.
    inversion Heq; subst; clear Heq. simpl.
    exists (InFor offset first inner'). split; [|reflexivity].
    f_equal. unfold push.
    unfold loc, store in *.
    rewrite alter_app_r_alt by lia. rewrite Nat.sub_diag. reflexivity.
  - simpl remaining.
    destruct (remaining array inner) as [|c rest].
    + destruct Hind as (g' & Hg). rewrite Hg in Heq.
      inversion Heq; subst; clear Heq. simpl. exact H.
    + destruct Hind as (g' & Hg & _). rewrite Hg in Heq. discriminate.
Qed.

Lemma solve_loop_step (catalog : list unit_) (g : generator)
    (h : store) (solutions : list Solution) :
  solve_loop catalog g h solutions
  = match next catalog g h with
    | (Some subset, g', h') =>
        solve_loop catalog g' h'
          (solutions ++ [{| migrationList := subset |}])
    | (None, _, h') => (solutions, h')
    end.
Proof.
  funelim (solve_loop catalog g h solutions);
    match goal with Hnext : next _ _ _ = _ |- _ => rewrite Hnext end;
    reflexivity.
Qed.

(** The loop of [solve] pushes one solution per array still to be
    yielded; the arrays are appended to the store in that order. *)
Lemma solve_loop_spec (catalog : list unit_) (g : generator) (h : store)
    (solutions : list Solution) :
  solve_loop catalog g h solutions
  = (solutions
       ++ (Build_Solution
             <$> seq (length h) (length (remaining catalog g))),
     h ++ remaining catalog g).
Proof.
  remember (remaining catalog g) as R eqn:HR.
  revert g h solutions HR.
  induction R as [|c rest IH]; intros g h solutions HR;
    rewrite solve_loop_step;
    pose proof (next_spec catalog g h) as Hn; rewrite <- HR in Hn.
  - destruct Hn as (g' & ->). simpl. rewrite !app_nil_r. reflexivity.
  - destruct Hn as (g' & -> & Hrest).
    rewrite (IH g' _ _ (eq_sym Hrest)).
    rewrite length_app. simpl length.
    replace (length h + 1)%nat with (S (length h)) by lia.
    simpl. rewrite <- !app_assoc. reflexivity.
Qed.

Lemma solve_spec (catalog : list unit_) (h : store) :
  solve catalog h
  = (Build_Solution
       <$> seq (length h) (length (pure_subsets catalog)),
     h ++ pure_subsets catalog).
Proof.
  unfold solve. rewrite solve_loop_spec. simpl. reflexivity.
Qed.

(** *** The subsets *)

Lemma names_snoc (l : list unit_) (x : unit_) :
  names (l ++ [x]) = {[name x]} ∪ names l.
Proof.
  unfold names. rewrite fmap_app, list_to_set_app_L. simpl. set_solver.
Qed.

Lemma names_cons (l : list unit_) (x : unit_) :
  names (x :: l) = {[name x]} ∪ names l.
Proof. reflexivity. Qed.

Lemma pure_subsets_length (l : list unit_) :
  length (pure_subsets l) = (2 ^ length l)%nat.
Proof.
  induction l as [|x l IH]; simpl; [reflexivity|].
  rewrite length_app, length_fmap, IH. lia.
Qed.

Lemma pure_subsets_names (l : list unit_) (S : gset string) :
  S ∈ names <$> pure_subsets l <-> S ⊆ names l.
Proof.
  revert S. induction l as [|x l IH]; intros S.
  - simpl. rewrite list_elem_of_singleton. unfold names. simpl.
    set_solver.
  - simpl pure_subsets. rewrite fmap_app, elem_of_app, <- list_fmap_compose.
    rewrite names_cons. split.
    + intros [H | H].
      * apply list_elem_of_fmap in H as (s & -> & Hs). simpl.
        rewrite names_snoc.
        assert (names s ⊆ names l)
          by (apply IH, list_elem_of_fmap; eauto).
        set_solver.
      * apply IH in H. set_solver.
    + intros HS. destruct (decide (name x ∈ S)) as [Hx | Hx].
      * left. assert (H : S ∖ {[name x]} ⊆ names l) by set_solver.
        apply IH in H. apply list_elem_of_fmap in H as (s & Hs & Hin).
        apply list_elem_of_fmap. exists s. split; [|exact Hin].
        simpl. rewrite names_snoc, <- Hs.
        apply set_eq. intros y. rewrite elem_of_union, elem_of_difference,
          elem_of_singleton.
        destruct (decide (y = name x)) as [-> |]; naive_solver.
      * right. apply IH. set_solver.
Qed.

Lemma pure_subsets_distinct (l : list unit_) :
  NoDup (name <$> l) -> NoDup (names <$> pure_subsets l).
Proof.
  induction l as [|x l IH]; intros Hnd.
  - simpl. apply NoDup_singleton.
  - rewrite fmap_cons in Hnd. apply NoDup_cons in Hnd as [Hx Hnd].
    assert (Hx' : name x ∉ names l).
    { unfold names. rewrite elem_of_list_to_set. exact Hx. }
    assert (Hfirst : names <$> ((fun s => s ++ [x]) <$> pure_subsets l)
                     = (fun S => {[name x]} ∪ S)
                         <$> (names <$> pure_subsets l)).
    { rewrite <- !list_fmap_compose. apply list_fmap_ext.
      intros i s _. simpl. apply names_snoc. }
    simpl pure_subsets. rewrite fmap_app, Hfirst.
    apply NoDup_app. split; [|split].
    + apply NoDup_fmap_2_strong; [|apply IH; exact Hnd].
      intros S1 S2 H1 H2 Heq.
      apply pure_subsets_names in H1. apply pure_subsets_names in H2.
      set_solver.
    + intros S H1 H2. apply pure_subsets_names in H2.
      apply list_elem_of_fmap in H1 as (S' & -> & _). set_solver.
    + apply IH. exact Hnd.
Qed.

Lemma pure_subsets_empty (l : list unit_) : [] ∈ pure_subsets l.
Proof.
  induction l as [|x l IH]; simpl; [left|].
  apply elem_of_app. right. exact IH.
Qed.

Lemma pure_subsets_sublist (l s : list unit_) :
  s ∈ pure_subsets l -> sublist (reverse s) l.
Proof.
  revert s. induction l as [|x l IH]; intros s; simpl.
  - rewrite list_elem_of_singleton. intros ->. constructor.
  - rewrite elem_of_app. intros [H | H].
    + apply list_elem_of_fmap in H as (s' & -> & Hs').
      rewrite reverse_snoc. apply sublist_skip. apply IH. exact Hs'.
    + apply sublist_cons. apply IH. exact H.
Qed.

(** Reading the arrays [solve] appended to the store gives the subsets
    back, one location each. *)
Lemma read_appended (h P : list (list unit_)) :
  (fun r => read (h ++ P) r) <$> seq (length h) (length P) = P.
Proof.
  revert h. induction P as [|c P IH]; intros h; [reflexivity|].
  simpl length. simpl seq. rewrite fmap_cons. f_equal.
  - unfold read, store, loc.
    rewrite list_lookup_middle by reflexivity. reflexivity.
  - specialize (IH (h ++ [c])).
    rewrite length_app, <- app_assoc in IH. simpl in IH.
    replace (length h + 1)%nat with (S (length h)) in IH by lia.
    exact IH.
Qed.

Lemma solve_scenarios (catalog : list unit_) (h : store) :
  scenario (snd (solve catalog h)) <$> fst (solve catalog h)
  = names <$> pure_subsets catalog.
Proof.
  rewrite solve_spec. cbn [fst snd].
  transitivity
    (names <$> ((fun r => read (h ++ pure_subsets catalog) r)
                  <$> seq (length h) (length (pure_subsets catalog))));
    [|rewrite read_appended; reflexivity].
  rewrite <- !list_fmap_compose. apply list_fmap_ext.
  intros i r _. reflexivity.
Qed.

Lemma solve_arrays (catalog : list unit_) (h : store) :
  (fun s => read (snd (solve catalog h)) (migrationList s))
    <$> fst (solve catalog h)
  = pure_subsets catalog.
Proof.
  rewrite solve_spec. cbn [fst snd].
  transitivity
    ((fun r => read (h ++ pure_subsets catalog) r)
       <$> seq (length h) (length (pure_subsets catalog)));
    [|apply read_appended].
  rewrite <- !list_fmap_compose. apply list_fmap_ext.
  intros i r _. reflexivity.
Qed.

(** C2 (subset completeness).  For a catalog of [N] units with distinct
    names, [solve] returns exactly [2^N] solutions, each with an array of
    its own; their scenarios (the sets of unit names they hold) are
    pairwise different and are exactly the subsets of the catalog's
    names, the empty one included; and each array holds members of the
    catalog, without repetition. *)
Theorem solve_enumerates_subsets (catalog : list unit_) (h : store) :
  NoDup (name <$> catalog) ->
  let '(solutions, h') := solve catalog h in
  length solutions = (2 ^ length catalog)%nat
  /\ NoDup (migrationList <$> solutions)
  /\ NoDup (scenario h' <$> solutions)
  /\ (forall S : gset string,
        S ∈ scenario h' <$> solutions <-> S ⊆ names catalog)
  /\ ∅ ∈ scenario h' <$> solutions
  /\ (forall s, s ∈ solutions ->
        sublist (reverse (read h' (migrationList s))) catalog).
Proof.
  intros Hnd.
  pose proof (solve_scenarios catalog h) as Hsc.
  pose proof (solve_arrays catalog h) as Har.
  destruct (solve catalog h) as [solutions h'] eqn:Hsolve.
  cbn [fst snd] in Hsc, Har. rewrite Hsc.
  rewrite solve_spec in Hsolve. injection Hsolve as Hs Hh.
  split; [|split; [|split; [|split; [|split]]]].
  - rewrite <- Hs, length_fmap, length_seq. apply pure_subsets_length.
  - rewrite <- Hs, <- list_fmap_compose.
    erewrite list_fmap_ext; [rewrite list_fmap_id; apply NoDup_seq|].
    intros i r _. reflexivity.
  - apply pure_subsets_distinct. exact Hnd.
  - intros S. apply pure_subsets_names.
  - apply list_elem_of_fmap. exists []. split; [reflexivity|].
    apply pure_subsets_empty.
  - intros s Hin. apply pure_subsets_sublist.
    rewrite <- Har. apply list_elem_of_fmap.
    exists s. split; [reflexivity | exact Hin].
Qed.

End Generator.

(** ** Running a solution *)

Section Run.
Context {Ctx Artifact Exn : Type}.
Abbreviation unit_ := (Migration Ctx Artifact Exn).
Abbreviation world_ := (world Ctx Artifact Exn).

Variable localeCompare : string -> string -> Z.
Variable stringify : Artifact -> Exn + string.
Variable getGovernor getProposer : @action Ctx Exn unit.

Abbreviation run_ := (run localeCompare stringify getGovernor getProposer).
Abbreviation apply_ := (@apply_migrations Ctx Artifact Exn stringify).
Abbreviation enter_ := (enter localeCompare getGovernor getProposer).
Abbreviation throws_ := (throws stringify).
Abbreviation by_name :=
  (fun a b : unit_ => localeCompare (name a) (name b)).

Lemma run_enter (s : Solution) (w : world_) :
  run_ s w
  = match enter_ s w with
    | (w0, inr sorted) =>
        match apply_ sorted w0 with
        | (w', inr _) => (w', inr (context w'))
        | (w', inl e) => (w', inl e)
        end
    | (w0, inl e) => (w0, inl e)
    end.
Proof.
  unfold run, enter, seq_, await, sort_in_place, emit, ret.
  destruct (getGovernor (context w)) as [c1 [e1 | []]]; cbn; [reflexivity|].
  destruct (getProposer c1) as [c2 [e2 | []]]; cbn; reflexivity.
Qed.

Lemma enter_inv (s : Solution) (w w0 : world_) (sorted : list unit_) :
  enter_ s w = (w0, inr sorted) ->
  sorted = Array_sort by_name (read (arrays w) (migrationList s))
  /\ arrays w0 = <[migrationList s := sorted]> (arrays w)
  /\ events w0 = events w ++ [DebugRunning (name <$> sorted)].
Proof.
  unfold enter, seq_, await, sort_in_place, emit, ret.
  destruct (getGovernor (context w)) as [c1 [e1 | []]]; cbn;
    [discriminate|].
  destruct (getProposer c1) as [c2 [e2 | []]]; cbn; [discriminate|].
  intros H. inversion H; subst; clear H. cbn. auto.
Qed.

Lemma apply_migration_cases (u : unit_) (w : world_) :
  apply_migration stringify u w
  = match prepare u (context w) with
    | (c, inl e) =>
        ({| context := c; arrays := arrays w;
            events := events w ++ [CallPrepare (name u)] |}, inl e)
    | (c, inr a) =>
        match stringify a with
        | inl e =>
            ({| context := c; arrays := arrays w;
                events := events w ++ [CallPrepare (name u)] |}, inl e)
        | inr j =>
            match enact u a c with
            | (c', inl e) =>
                ({| context := c'; arrays := arrays w;
                    events := events w ++ [CallPrepare (name u);
                                           DebugPrepared (name u) j;
                                           CallEnact (name u)] |}, inl e)
            | (c', inr _) =>
                ({| context := c'; arrays := arrays w;
                    events := events w ++ [CallPrepare (name u);
                                           DebugPrepared (name u) j;
                                           CallEnact (name u);
                                           DebugEnacted (name u)] |},
                 inr tt)
            end
        end
    end.
Proof.
  unfold apply_migration, seq_, await, emit, throwing. cbn.
  destruct (prepare u (context w)) as [c [e | a]]; cbn; [reflexivity|].
  destruct (stringify a) as [e | j]; cbn; [reflexivity|].
  destruct (enact u a c) as [c' [e | []]]; cbn;
    rewrite <- ?app_assoc; reflexivity.
Qed.

Lemma throws_apply (u : unit_) (w1 w2 : world_) (e : Exn) :
  throws_ u w1 e w2 -> apply_migration stringify u w1 = (w2, inl e).
Proof.
  intros [c Hp | c a j c' Hp Hj He]; rewrite apply_migration_cases, Hp.
  - reflexivity.
  - rewrite Hj, He. reflexivity.
Qed.

(** A unit that fails was prepared once and enacted at most once, and
    nothing else was called. *)
Lemma apply_migration_fails (u : unit_) (w1 w2 : world_) (e : Exn) :
  apply_migration stringify u w1 = (w2, inl e) ->
  exists es, events w2 = events w1 ++ es
    /\ prepared es = [name u]
    /\ (enacted es = [] \/ enacted es = [name u]).
Proof.
  rewrite apply_migration_cases.
  destruct (prepare u (context w1)) as [c [e' | a]].
  - intros H. inversion H; subst; clear H. cbn. eauto.
  - destruct (stringify a) as [e' | j].
    + intros H. inversion H; subst; clear H. cbn. eauto.
    + destruct (enact u a c) as [c' [e' | []]]; [|discriminate].
      intros H. inversion H; subst; clear H. cbn. eauto.
Qed.

Lemma apply_migration_completes (u : unit_) (w1 w2 : world_) :
  apply_migration stringify u w1 = (w2, inr tt) ->
  exists es, events w2 = events w1 ++ es
    /\ prepared es = [name u] /\ enacted es = [name u].
Proof.
  rewrite apply_migration_cases.
  destruct (prepare u (context w1)) as [c [e' | a]]; [discriminate|].
  destruct (stringify a) as [e' | j]; [discriminate|].
  destruct (enact u a c) as [c' [e' | []]]; [discriminate|].
  intros H. inversion H; subst; clear H. cbn. eauto.
Qed.

Lemma prepared_app (es1 es2 : list event) :
  prepared (es1 ++ es2) = prepared es1 ++ prepared es2.
Proof. apply omap_app. Qed.

Lemma enacted_app (es1 es2 : list event) :
  enacted (es1 ++ es2) = enacted es1 ++ enacted es2.
Proof. apply omap_app. Qed.



Lemma apply_cons (u : unit_) (l : list unit_) (w : world_) :
  apply_ (u :: l) w
  = match apply_migration stringify u w with
    | (w1, inr _) => apply_ l w1
    | (w1, inl e) => (w1, inl e)
    end.
Proof. reflexivity. Qed.

Lemma apply_completes (l : list unit_) (w w1 : world_) :
  apply_ l w = (w1, inr tt) ->
  exists es, events w1 = events w ++ es
    /\ prepared es = name <$> l /\ enacted es = name <$> l.
Proof.
  revert w. induction l as [|u l IH]; intros w.
  - cbn. intros H. inversion H; subst. exists []. rewrite app_nil_r. auto.
  - rewrite apply_cons.
    destruct (apply_migration stringify u w) as [w' [e | []]] eqn:Hu;
      [discriminate|].
    intros Hl.
    destruct (apply_migration_completes _ _ _ Hu) as (es1 & E1 & P1 & N1).
    destruct (IH _ Hl) as (es2 & E2 & P2 & N2).
    exists (es1 ++ es2). rewrite E2, E1, <- app_assoc.
    rewrite prepared_app, enacted_app, P1, P2, N1, N2. auto.
Qed.

Lemma apply_app (before after : list unit_) (w : world_) :
  apply_ (before ++ after) w
  = match apply_ before w with
    | (w1, inr _) => apply_ after w1
    | (w1, inl e) => (w1, inl e)
    end.
Proof.
  revert w. induction before as [|u l IH]; intros w; [reflexivity|].
  simpl app. rewrite !apply_cons.
  destruct (apply_migration stringify u w) as [w' [e | []]];
    [reflexivity|]. apply IH.
Qed.


(** C4 (amended: fail fast, the failure unchanged).  When the units
    before [u] in the sorted sequence complete and [u] throws [e] from
    its [prepare] or its [enact], the run ends there: its result is [e]
    itself, in the world the failing step left; the units prepared are
    the ones up to [u] and no other, the units enacted are the ones
    before [u], with [u] when the failing step was its [enact]. *)
Theorem run_stops_at_first_failure (s : Solution) (w w0 w1 w2 : world_)
    (before after : list unit_) (u : unit_) (e : Exn) :
  enter_ s w = (w0, inr (before ++ u :: after)) ->
  apply_ before w0 = (w1, inr tt) ->
  throws_ u w1 e w2 ->
  run_ s w = (w2, inl e)
  /\ exists es,
       events w2 = events w0 ++ es
       /\ prepared es = name <$> (before ++ [u])
       /\ (enacted es = name <$> before
           \/ enacted es = name <$> (before ++ [u])).
Proof.
  intros He Hb Ht. apply throws_apply in Ht as Hu. split.
  - rewrite run_enter, He, apply_app, Hb, apply_cons, Hu. reflexivity.
  - destruct (apply_completes _ _ _ Hb) as (es1 & E1 & P1 & N1).
    destruct (apply_migration_fails _ _ _ _ Hu) as (es2 & E2 & P2 & N2).
    exists (es1 ++ es2). rewrite E2, E1, <- app_assoc.
    rewrite prepared_app, enacted_app, P1, P2, !fmap_app.
    split; [reflexivity|]. split; [reflexivity|].
    destruct N2 as [-> | ->]; rewrite N1; [left | right].
    + apply app_nil_r.
    + reflexivity.
Qed.

End Run.

(** ** The order of application *)

Section RunOrder.
Context {Ctx Artifact Exn : Type}.
Abbreviation unit_ := (Migration Ctx Artifact Exn).
Abbreviation world_ := (world Ctx Artifact Exn).

Variable localeCompare : string -> string -> Z.
Variable stringify : Artifact -> Exn + string.
Variable getGovernor getProposer : @action Ctx Exn unit.

(** The host's comparison is a consistent comparator. *)
Hypothesis localeCompare_antisym :
  forall a b, 0 < localeCompare a b <-> localeCompare b a < 0.
Hypothesis localeCompare_trans :
  forall a b c, localeCompare a b <= 0 -> localeCompare b c <= 0 ->
                localeCompare a c <= 0.

Abbreviation run_ := (run localeCompare stringify getGovernor getProposer).
Abbreviation by_name :=
  (fun a b : unit_ => localeCompare (name a) (name b)).





End RunOrder.

(** ** A catalog on a simulated target *)

Section Examples.

Lemma code_unit_compare_cases (a b : string) :
  (code_unit_compare a b = 0 /\ a = b)
  \/ (code_unit_compare a b = -1 /\ String_as_OT.lt a b)
  \/ (code_unit_compare a b = 1 /\ String_as_OT.lt b a).
Proof.
  unfold code_unit_compare.
  destruct (String_as_OT.compare_spec a b); auto.
Qed.

Ltac cyclic :=
  exfalso; subst;
  match goal with
  | H : String_as_OT.lt ?x ?x |- _ =>
      exact (StrictOrder_Irreflexive x H)
  | H1 : String_as_OT.lt ?x ?y, H2 : String_as_OT.lt ?y ?x |- _ =>
      exact (StrictOrder_Irreflexive x (StrictOrder_Transitive x y x H1 H2))
  | H1 : String_as_OT.lt ?x ?y, H2 : String_as_OT.lt ?y ?z,
    H3 : String_as_OT.lt ?z ?x |- _ =>
      exact (StrictOrder_Irreflexive x
               (StrictOrder_Transitive x z x
                  (StrictOrder_Transitive x y z H1 H2) H3))
  end.

Lemma code_unit_compare_antisym (a b : string) :
  0 < code_unit_compare a b <-> code_unit_compare b a < 0.
Proof.
  destruct (code_unit_compare_cases a b) as [[-> ?] | [[-> ?] | [-> ?]]];
    destruct (code_unit_compare_cases b a) as [[-> ?] | [[-> ?] | [-> ?]]];
    try lia; cyclic.
Qed.

Lemma code_unit_compare_trans (a b c : string) :
  code_unit_compare a b <= 0 -> code_unit_compare b c <= 0 ->
  code_unit_compare a c <= 0.
Proof.
  destruct (code_unit_compare_cases a b) as [[-> ?] | [[-> ?] | [-> ?]]];
    destruct (code_unit_compare_cases b c) as [[-> ?] | [[-> ?] | [-> ?]]];
    destruct (code_unit_compare_cases a c) as [[-> ?] | [[-> ?] | [-> ?]]];
    try lia; intros _ _; cyclic.
Qed.

Lemma code_unit_compare_eq (a b : string) :
  code_unit_compare a b = 0 -> a = b.
Proof.
  destruct (code_unit_compare_cases a b) as [[_ ?] | [[-> ?] | [-> ?]]];
    [auto | discriminate | discriminate].
Qed.

(** The example of the specification: two units, four scenarios. *)
Example solve_catalog_ab :
  let '(solutions, h) := solve catalog_ab [] in
  (fun s => name <$> read h (migrationList s)) <$> solutions
  = [["a_fixOracle"; "b_addCollateral"]; ["b_addCollateral"];
     ["a_fixOracle"]; []]%string.
Proof. vm_compute. reflexivity. Qed.

Example run_catalog_ab :
  let '(solutions, h) := solve catalog_ab [] in
  prepared (events (fst (run_on_target {| migrationList := 0%nat |}
                           (fresh h))))
  = ["a_fixOracle"; "b_addCollateral"]%string.
Proof. vm_compute. reflexivity. Qed.

Lemma catalog_ab_names : NoDup (name <$> catalog_ab).
Proof.
  apply NoDup_cons. split.
  - intros H. apply list_elem_of_singleton in H. discriminate H.
  - apply NoDup_singleton.
Defined.

Lemma solve_enumerates_subsets_witness :
  NoDup (name <$> catalog_ab)
  /\ length (fst (solve catalog_ab [])) = 4%nat
  /\ NoDup (scenario (snd (solve catalog_ab []))
              <$> fst (solve catalog_ab [])).
Proof.
  split; [exact catalog_ab_names|].
  pose proof (solve_enumerates_subsets catalog_ab [] catalog_ab_names) as H.
  destruct (solve catalog_ab []) as [solutions h].
  destruct H as (Hlen & _ & Hnd & _). split; [exact Hlen | exact Hnd].
Defined.

Lemma run_stops_at_first_failure_witness :
  (run_on_target all_three (fresh (snd (solve catalog_abc [])))
   = (failed_at_b, inl "revert"%string)
   /\ exists es,
        events failed_at_b = events (started all_three) ++ es
        /\ prepared es = ["a_fixOracle"; "b_addCollateral"]%string)
  /\ exists w',
       run_on_target without_b (fresh (snd (solve catalog_abc [])))
       = (w', inr ["a_fixOracle"; "c_raiseCap"]%string).
Proof.
  split.
  - destruct (run_stops_at_first_failure code_unit_compare serialise
                signer signer all_three
                (fresh (snd (solve catalog_abc [])))
                (started all_three) after_a failed_at_b
                [migration "a_fixOracle"] [migration "c_raiseCap"]
                (failing_enact "b_addCollateral") "revert"%string)
      as (Hrun & es & Hev & Hp & _).
    + vm_compute. reflexivity.
    + vm_compute. reflexivity.
    + apply (throws_enact serialise (failing_enact "b_addCollateral")
               after_a "revert"%string ["a_fixOracle"%string]
               "b_addCollateral"%string "b_addCollateral"%string
               ["a_fixOracle"%string]); reflexivity.
    + split; [exact Hrun|]. exists es. split; [exact Hev | exact Hp].
  - eexists. vm_compute. reflexivity.
Defined.

(** C4, as stated, fails in its last part: no function reads the
    responsible unit's name off the surfaced failure, because the failure
    is the thrown value itself, and two units can throw the same value. *)
Lemma failure_carries_no_unit_name :
  ~ exists unit_of : string -> string,
      failure_names_unit code_unit_compare serialise signer signer unit_of.
Proof.
  intros [unit_of H].
  assert (Hn : forall n : string, unit_of "revert"%string = n).
  { intros n.
    pose (w0 := {| context := ([] : target);
                   arrays := [[failing_prepare n]];
                   events := [DebugRunning [n]] |}).
    apply (H {| migrationList := 0%nat |}
             (fresh [[failing_prepare n]]) w0 []
             (failing_prepare n) [] w0
             {| context := []; arrays := arrays w0;
                events := events w0 ++ [CallPrepare n] |}
             "revert"%string "revert"%string).
    - reflexivity.
    - reflexivity.
    - apply (throws_prepare serialise (failing_prepare n) w0
               "revert"%string []). reflexivity.
    - reflexivity. }
  pose proof (Hn "a_fixOracle"%string) as Ha.
  pose proof (Hn "b_addCollateral"%string) as Hb.
  rewrite Ha in Hb. discriminate Hb.
Qed.


End Examples.

(** ** The guard *)

Section GuardedActions.
Context {Target Failure : Type}.

(** Under the closure, a second run right after a successful first one
    finds the precondition false and leaves the target as it is. *)
Lemma idempotent_twice (pre : @condition Target Failure)
    (eff : @effect Target Failure) (t t' : Target) :
  closure pre eff ->
  idempotent pre eff t = (t', inr tt) ->
  idempotent pre eff t' = (t', inr tt).
Proof.
  intros Hc. unfold idempotent.
  destruct (pre t) as [f | [|]] eqn:Hp.
  - discriminate.
  - intros Hrun. rewrite (Hc t t' Hp Hrun). reflexivity.
  - intros Hrun. inversion Hrun; subst. rewrite Hp. reflexivity.
Qed.

End GuardedActions.

(** * Further properties of the code *)

(** ** The encoders on every number *)

Section Encoders.

Lemma percentage_accepted (n : double) (v : Z) :
  is_double n -> percentage n true = Ok v -> in_unit_interval n.
Proof.
  intros Hd Hv.
  destruct n as [s | s | | s m e] eqn:Hn; try discriminate Hv.
  - destruct s; repeat split.
  - destruct s; discriminate Hv.
  - rewrite <- Hn in *.
    destruct (percentage_input_cases n) as [Ho | Hi].
    + split; [exact Hd | subst n; discriminate].
    + apply percentage_rejects in Ho. rewrite Hv in Ho. contradiction.
    + exact Hi.
Qed.

(** X1.  The three outcomes of [percentage] with its range check: a value
    between 0 and [10^18] on the numbers from 0.0 to 1.0; the loader's
    range error on the numbers above 1.0 or below 0.0, the infinities
    included; and on [NaN], which passes both comparisons, the
    [RangeError] of [BigInt]. *)
Theorem percentage_outcomes (n : double) :
  is_double n ->
  (in_unit_interval n
   /\ exists v, percentage n true = Ok v /\ 0 <= v <= 10 ^ 18)
  \/ (out_of_range n /\ fails_with OutOfRange (percentage n true))
  \/ (n = S754_nan /\ percentage n true = Err BigIntRangeError).
Proof.
  intros Hd.
  assert (Hnan : n = S754_nan \/ n <> S754_nan)
    by (destruct n; [right | right | left | right]; congruence).
  destruct Hnan as [-> | Hn].
  - right. right. split; reflexivity.
  - destruct (percentage_input_cases n (conj Hd Hn)) as [Ho | Hi].
    + right. left. split; [exact Ho | apply percentage_rejects; exact Ho].
    + left. split; [exact Hi|].
      destruct (percentage_in_range n Hi) as (v & Hv & Hr & _). eauto.
Qed.
End Encoders.

Section Numbers.

(** X2.  [number] is the floor of its argument, whatever [checkRange] is: on
    a finite number of value [signed s m * 2^e] it returns the largest
    integer not above that value, so a negative number is accepted and
    rounded away from zero; on [NaN] and on the infinities it fails with
    the [RangeError] of [BigInt]. *)
Theorem number_rounds_down (n : double) (checkRange : bool) :
  match n with
  | S754_zero _ => number n checkRange = Ok 0
  | S754_finite s m e =>
      exists v,
        number n checkRange = Ok v
        /\ v * 2 ^ Z.max 0 (- e) <= signed s m * 2 ^ Z.max 0 e
           < (v + 1) * 2 ^ Z.max 0 (- e)
  | S754_infinity _ | S754_nan =>
      number n checkRange = Err BigIntRangeError
  end.
Proof.
  destruct n as [s | s | | s m e]; try reflexivity.
  exists (Z.shiftl (signed s m) e). split; [reflexivity|].
  destruct (Z_le_gt_dec 0 e) as [He | He].
  - rewrite Z.shiftl_mul_pow2 by lia.
    rewrite (Z.max_l 0 (- e)), (Z.max_r 0 e) by lia. lia.
  - rewrite <- Z.shiftr_opp_r, Z.shiftr_div_pow2 by lia.
    rewrite (Z.max_r 0 (- e)), (Z.max_l 0 e) by lia.
    assert (Hp : 0 < 2 ^ (- e)) by (apply Z.pow_pos_nonneg; lia).
    pose proof (Z.div_mod (signed s m) (2 ^ (- e)) ltac:(lia)) as Hdm.
    pose proof (Z.mod_pos_bound (signed s m) (2 ^ (- e)) Hp) as Hb.
    revert Hdm Hb. generalize (signed s m / 2 ^ (- e)).
    generalize (signed s m mod 2 ^ (- e)). generalize (2 ^ (- e)).
    intros; lia.
Qed.

End Numbers.

(** ** Addresses and letter case *)

Section AddressCase.

Lemma lower_hex (c : ascii) :
  is_hex c = true ->
  is_hex (lower c) = true /\ digit_value 16 (lower c) = digit_value 16 c.
Proof.
  destruct c as [[] [] [] [] [] [] [] []]; intros H;
    try discriminate H; split; reflexivity.
Qed.

Lemma lowercase_length (s : string) :
  String.length (lowercase s) = String.length s.
Proof. induction s as [|c s IH]; simpl; congruence. Qed.

Lemma lowercase_hex (r : string) :
  forallb is_hex (list_ascii_of_string r) = true ->
  forallb is_hex (list_ascii_of_string (lowercase r)) = true
  /\ forall acc, digits_value 16 (lowercase r) acc = digits_value 16 r acc.
Proof.
  induction r as [|c r IH]; simpl; [auto|].
  intros H. apply andb_true_iff in H as [Hc Hr].
  destruct (lower_hex c Hc) as [Hl Hd]. destruct (IH Hr) as [IH1 IH2].
  split; [rewrite Hl, IH1; reflexivity|].
  intros acc. rewrite Hd. destruct (digit_value 16 c); [apply IH2|].
  reflexivity.
Qed.

Lemma hex_literal_value (r : string) :
  forallb is_hex (list_ascii_of_string r) = true ->
  BigInt_of_string (String "0" (String "x" r))
  = match parse_digits 16 r with
    | Some v => Ok v
    | None => Err BigIntSyntaxError
    end.
Proof.
  intros Hh. unfold BigInt_of_string, StringToBigInt.
  change (trim_start (String "0" (String "x" r)))
    with (String "0" (String "x" r)).
  rewrite trim_end_id; [reflexivity|].
  change (forallb (fun c => negb (is_space c)) (list_ascii_of_string r)
          = true).
  rewrite List.forallb_forall in Hh. apply List.forallb_forall.
  intros c Hc. rewrite (is_hex_not_space c (Hh c Hc)). reflexivity.
Qed.

Lemma lowercase_address (a : string) :
  isAddress a = true ->
  isAddress (lowercase a) = true
  /\ BigInt_of_string (lowercase a) = BigInt_of_string a.
Proof.
  intros H. destruct (isAddress_inv a H) as (r & -> & Hl & Hh).
  destruct (lowercase_hex r Hh) as [Hh' Hd].
  change (lowercase (String "0" (String "x" r)))
    with (String "0" (String "x" (lowercase r))).
  split.
  - unfold isAddress. rewrite lowercase_length, Hl, Hh'. reflexivity.
  - rewrite !hex_literal_value by assumption.
    unfold parse_digits. rewrite Hd.
    destruct r; [discriminate Hl | reflexivity].
Qed.

(** X3.  The loader takes addresses in any letter case and does not look at
    the checksum the case may carry: [address] returns the string it
    accepts unchanged, an address in lower case is accepted like the
    original, and a record packs to the same two words whether its asset
    address and its price feed are given in mixed or in lower case. *)
Theorem address_case_is_ignored (assetAddress : string)
    (c : NetworkAssetConfiguration) :
  isAddress assetAddress = true ->
  isAddress (priceFeed c) = true ->
  address (priceFeed c) = Ok (priceFeed c)
  /\ isAddress (lowercase (priceFeed c)) = true
  /\ packAssetConfig (lowercase assetAddress)
       {| priceFeed := lowercase (priceFeed c);
          decimals := decimals c;
          borrowCF := borrowCF c;
          liquidateCF := liquidateCF c;
          liquidationFactor := liquidationFactor c;
          supplyCap := supplyCap c |}
     = packAssetConfig assetAddress c.
Proof.
  intros Ha Hp.
  destruct (lowercase_address _ Ha) as [_ Hav].
  destruct (lowercase_address _ Hp) as [Hp' Hpv].
  split; [unfold address; rewrite Hp; reflexivity|].
  split; [exact Hp'|].
  unfold packAssetConfig, address.
  cbn [priceFeed decimals borrowCF liquidateCF liquidationFactor supplyCap].
  rewrite Hp, Hp'. cbn [negb bind]. rewrite Hav, Hpv. reflexivity.
Qed.

End AddressCase.

(** ** The contract map *)

Section ContractMaps.

Lemma Map_get_None (contractMap : ContractMap) (key : string) :
  Map_get contractMap key = None <-> key ∉ Map_keys contractMap.
Proof.
  induction contractMap as [|[k c] rest IH]; simpl.
  - split; [intros _; apply not_elem_of_nil | reflexivity].
  - rewrite not_elem_of_cons.
    destruct (String.eqb_spec k key) as [-> | Hne].
    + split; [discriminate | intros [H _]; contradiction].
    + rewrite IH. split; [intros H; split; [congruence | exact H]|].
      intros [_ H]. exact H.
Qed.

Lemma Map_get_first (before after : ContractMap) (key : string)
    (contract : Ethers.Contract) :
  key ∉ Map_keys before ->
  Map_get (before ++ (key, contract) :: after) key = Some contract.
Proof.
  induction before as [|[k c] rest IH]; simpl; intros Hk.
  - rewrite String.eqb_refl. reflexivity.
  - apply not_elem_of_cons in Hk as [Hne Hk].
    destruct (String.eqb_spec k key) as [-> | _]; [contradiction|].
    apply IH. exact Hk.
Qed.

(** X4.  [getContractAddress] returns an address exactly when the name is a
    key of the map, and then it is the address of the contract stored
    under that key; for any other name it throws the error that names
    the contract and lists every key of the map, in order. *)
Theorem getContractAddress_found_iff (contractName : string)
    (contractMap : ContractMap) :
  ((exists a, getContractAddress contractName contractMap = inr a)
   <-> contractName ∈ Map_keys contractMap)
  /\ (contractName ∉ Map_keys contractMap ->
      getContractAddress contractName contractMap
      = inl (CannotFindContract contractName (Map_keys contractMap)))
  /\ (forall before contract after,
        contractMap = before ++ (contractName, contract) :: after ->
        contractName ∉ Map_keys before ->
        getContractAddress contractName contractMap
        = inr (Ethers.address contract)).
Proof.
  unfold getContractAddress. split; [|split].
  - destruct (Map_get contractMap contractName) as [c|] eqn:Hg.
    + split; [intros _ | eauto].
      destruct (decide (contractName ∈ Map_keys contractMap))
        as [Hin | Hout]; [exact Hin|].
      apply Map_get_None in Hout. congruence.
    + split; [intros [a Ha]; discriminate|].
      intros Hin. apply Map_get_None in Hg. contradiction.
  - intros Hout. apply Map_get_None in Hout. rewrite Hout. reflexivity.
  - intros before contract after -> Hb.
    rewrite (Map_get_first _ _ _ _ Hb). reflexivity.
Qed.

End ContractMaps.

(** ** Rates and tracking *)

Section Rates.

Lemma getInterestRateInfo_inv (rates : Network.NetworkRateConfiguration)
    (info : InterestRateInfo) :
  getInterestRateInfo rates = Ok info <->
  percentage (Network.kink rates) true = Ok (kink info)
  /\ percentage (Network.slopeLow rates) true
     = Ok (perYearInterestRateSlopeLow info)
  /\ percentage (Network.slopeHigh rates) true
     = Ok (perYearInterestRateSlopeHigh info)
  /\ percentage (Network.base rates) true
     = Ok (perYearInterestRateBase info).
Proof.
  unfold getInterestRateInfo. split.
  - destruct (percentage (Network.kink rates) true); cbn [bind];
      [|discriminate].
    destruct (percentage (Network.slopeLow rates) true); cbn [bind];
      [|discriminate].
    destruct (percentage (Network.slopeHigh rates) true); cbn [bind];
      [|discriminate].
    destruct (percentage (Network.base rates) true); cbn [bind];
      [|discriminate].
    intros H. inversion H; subst; clear H. cbn. auto.
  - intros (-> & -> & -> & ->). destruct info; reflexivity.
Qed.

(** X5.  [getInterestRateInfo] accepts a rate record exactly when each of the
    four rates is between 0.0 and 1.0, and then each encoded rate is
    between 0 and [10^18]: a slope above 100% per year is refused, with
    the range error when no field before it fails. *)
Theorem getInterestRateInfo_accepts_iff
    (rates : Network.NetworkRateConfiguration) :
  is_double (Network.kink rates) ->
  is_double (Network.slopeLow rates) ->
  is_double (Network.slopeHigh rates) ->
  is_double (Network.base rates) ->
  ((exists info, getInterestRateInfo rates = Ok info)
   <-> in_unit_interval (Network.kink rates)
       /\ in_unit_interval (Network.slopeLow rates)
       /\ in_unit_interval (Network.slopeHigh rates)
       /\ in_unit_interval (Network.base rates))
  /\ (forall info,
        getInterestRateInfo rates = Ok info ->
        0 <= kink info <= 10 ^ 18
        /\ 0 <= perYearInterestRateSlopeLow info <= 10 ^ 18
        /\ 0 <= perYearInterestRateSlopeHigh info <= 10 ^ 18
        /\ 0 <= perYearInterestRateBase info <= 10 ^ 18)
  /\ (in_unit_interval (Network.kink rates) ->
      in_unit_interval (Network.slopeLow rates) ->
      out_of_range (Network.slopeHigh rates) ->
      fails_with OutOfRange (getInterestRateInfo rates)).
Proof.
  intros Dk Dl Dh Db. split; [split|split].
  - intros (info & H). apply getInterestRateInfo_inv in H
      as (Hk & Hl & Hh & Hb).
    repeat split; eapply percentage_accepted; eassumption.
  - intros (Ik & Il & Ih & Ib).
    destruct (percentage_in_range _ Ik) as (k & Hk & _).
    destruct (percentage_in_range _ Il) as (l & Hl & _).
    destruct (percentage_in_range _ Ih) as (h & Hh & _).
    destruct (percentage_in_range _ Ib) as (b & Hb & _).
    exists {| kink := k; perYearInterestRateSlopeLow := l;
              perYearInterestRateSlopeHigh := h;
              perYearInterestRateBase := b |}.
    apply getInterestRateInfo_inv. cbn. auto.
  - intros info H. apply getInterestRateInfo_inv in H
      as (Hk & Hl & Hh & Hb).
    assert (Hrange : forall n v, is_double n -> percentage n true = Ok v ->
                                 0 <= v <= 10 ^ 18).
    { intros n v Hd Hv.
      destruct (percentage_in_range n (percentage_accepted n v Hd Hv))
        as (v' & Hv' & Hr & _).
      rewrite Hv in Hv'. inversion Hv'; subst. exact Hr. }
    split; [|split; [|split]];
      (eapply Hrange; [|eassumption]; assumption).
  - intros Ik Il Oh. unfold getInterestRateInfo.
    destruct (percentage_in_range _ Ik) as (k & -> & _).
    destruct (percentage_in_range _ Il) as (l & -> & _). cbn [bind].
    pose proof (percentage_rejects _ Oh) as Hr.
    destruct (percentage (Network.slopeHigh rates) true);
      [contradiction | exact Hr].
Qed.

Lemma number_ok_iff (n : double) (checkRange : bool) :
  (exists v, number n checkRange = Ok v) <-> finite n.
Proof.
  destruct n as [s | s | | s m e]; cbn; split;
    try (intros [v H]; discriminate); try contradiction; eauto.
Qed.

Lemma number_error (n : double) (checkRange : bool) (e : error) :
  number n checkRange = Err e -> e = BigIntRangeError.
Proof.
  destruct n as [s | s | | s m x]; cbn; intros H;
    try discriminate; inversion H; reflexivity.
Qed.

(** X6.  [getTrackingInfo] applies no range check: it accepts a record
    exactly when its four numbers are finite, whatever their sign and
    size, and the only error it can throw is the [RangeError] of
    [BigInt]. *)
Theorem getTrackingInfo_accepts_iff
    (tracking : Network.NetworkTrackingConfiguration) :
  ((exists info, getTrackingInfo tracking = Ok info)
   <-> finite (Network.indexScale tracking)
       /\ finite (Network.baseSupplySpeed tracking)
       /\ finite (Network.baseBorrowSpeed tracking)
       /\ finite (Network.baseMinForRewards tracking))
  /\ (forall e, getTrackingInfo tracking = Err e -> e = BigIntRangeError).
Proof.
  unfold getTrackingInfo. split; [split|].
  - intros (info & H). revert H.
    destruct (number (Network.indexScale tracking) true) eqn:H1;
      cbn [bind]; [|discriminate].
    destruct (number (Network.baseSupplySpeed tracking) true) eqn:H2;
      cbn [bind]; [|discriminate].
    destruct (number (Network.baseBorrowSpeed tracking) true) eqn:H3;
      cbn [bind]; [|discriminate].
    destruct (number (Network.baseMinForRewards tracking) true) eqn:H4;
      cbn [bind]; [|discriminate].
    intros _. repeat split; eapply number_ok_iff; eauto.
  - intros (F1 & F2 & F3 & F4).
    apply (number_ok_iff _ true) in F1 as (v1 & ->).
    apply (number_ok_iff _ true) in F2 as (v2 & ->).
    apply (number_ok_iff _ true) in F3 as (v3 & ->).
    apply (number_ok_iff _ true) in F4 as (v4 & ->).
    cbn [bind]. eauto.
  - intros e.
    destruct (number (Network.indexScale tracking) true) eqn:H1;
      cbn [bind];
      [|intros H; inversion H; subst; eapply number_error; eauto].
    destruct (number (Network.baseSupplySpeed tracking) true) eqn:H2;
      cbn [bind];
      [|intros H; inversion H; subst; eapply number_error; eauto].
    destruct (number (Network.baseBorrowSpeed tracking) true) eqn:H3;
      cbn [bind];
      [|intros H; inversion H; subst; eapply number_error; eauto].
    destruct (number (Network.baseMinForRewards tracking) true) eqn:H4;
      cbn [bind];
      [|intros H; inversion H; subst; eapply number_error; eauto].
    discriminate.
Qed.

End Rates.

(** ** The asset configurations *)

Section AssetConfigs.

Lemma Array_map_cons {A B : Type} (callback : A -> thrown + B) (x : A)
    (l : list A) :
  Array_map callback (x :: l)
  = match callback x with
    | inl t => inl t
    | inr y => match Array_map callback l with
               | inl t => inl t
               | inr ys => inr (y :: ys)
               end
    end.
Proof. reflexivity. Qed.

Lemma Array_map_inr {A B : Type} (callback : A -> thrown + B)
    (l : list A) (ys : list B) :
  Array_map callback l = inr ys
  <-> Forall2 (fun x y => callback x = inr y) l ys.
Proof.
  revert ys. induction l as [|x l IH]; intros ys.
  - cbn. split.
    + intros H. inversion H. constructor.
    + intros H. inversion H. reflexivity.
  - rewrite Array_map_cons. split.
    + destruct (callback x) as [t | y] eqn:Hx; [discriminate|].
      destruct (Array_map callback l) as [t | ys'] eqn:Hl; [discriminate|].
      intros H. inversion H; subst. constructor; [exact Hx|].
      apply IH. reflexivity.
    + intros H. inversion H as [|x' y l' ys' Hx Hl]; subst.
      rewrite Hx. apply IH in Hl. rewrite Hl. reflexivity.
Qed.

Lemma Array_map_inl {A B : Type} (callback : A -> thrown + B)
    (l : list A) (t : thrown) :
  Array_map callback l = inl t
  <-> exists before x after,
        l = before ++ x :: after
        /\ (exists ys, Array_map callback before = inr ys)
        /\ callback x = inl t.
Proof.
  induction l as [|x l IH].
  - cbn. split; [discriminate|].
    intros (before & x & after & H & _). destruct before; discriminate.
  - rewrite Array_map_cons. split.
    + destruct (callback x) as [t' | y] eqn:Hx.
      * intros H. inversion H; subst. exists [], x, l. cbn. eauto.
      * destruct (Array_map callback l) as [t' | ys'] eqn:Hl;
          [|discriminate].
        intros H. inversion H; subst.
        destruct (proj1 IH eq_refl)
          as (before & x' & after & -> & (ys & Hb) & Hx').
        exists (x :: before), x', after. split; [reflexivity|].
        split; [|exact Hx']. rewrite Array_map_cons, Hx, Hb. eauto.
    + intros (before & x' & after & Hl & (ys & Hb) & Hx').
      destruct before as [|b before]; cbn in Hl; inversion Hl; subst.
      * rewrite Hx'. reflexivity.
      * rewrite Array_map_cons in Hb.
        destruct (callback b) as [t' | y]; [discriminate|].
        destruct (Array_map callback before) as [t' | ys'] eqn:Hb';
          [discriminate|].
        assert (Hrest : Array_map callback (before ++ x' :: after) = inl t)
          by (apply IH; exists before, x', after; eauto).
        rewrite Hrest. reflexivity.
Qed.

Lemma getAssetConfigs_inr
    (assets : list (string * NetworkAssetConfiguration))
    (contractMap : ContractMap) (configs : list AssetConfigStruct) :
  getAssetConfigs assets contractMap = inr configs
  <-> Forall2 (packs_to contractMap) assets configs.
Proof.
  unfold getAssetConfigs. rewrite Array_map_inr.
  split; intros H; (eapply Forall2_impl; [exact H|]);
    intros [assetName assetConfig] w; unfold packs_to; cbn.
  - destruct (getContractAddress assetName contractMap) as [t | a];
      cbn; [discriminate|].
    destruct (packAssetConfig a assetConfig) as [w' | e] eqn:Hp; cbn;
      [|discriminate].
    intros Hw. inversion Hw; subst. exists a. split; [reflexivity | exact Hp].
  - intros (a & -> & Hw). cbn. rewrite Hw. reflexivity.
Qed.

(** X7.  [getAssetConfigs] returns one packed configuration per asset, in the
    order of the entries, each packed with the address the contract map
    holds for the asset's name; and whenever every entry can be packed
    so, it returns. *)
Theorem getAssetConfigs_entrywise
    (assets : list (string * NetworkAssetConfiguration))
    (contractMap : ContractMap) (configs : list AssetConfigStruct) :
  (getAssetConfigs assets contractMap = inr configs
   <-> Forall2 (packs_to contractMap) assets configs)
  /\ (getAssetConfigs assets contractMap = inr configs ->
      length configs = length assets).
Proof.
  split; [apply getAssetConfigs_inr|].
  intros H. apply getAssetConfigs_inr in H.
  symmetry. eapply Forall2_length. exact H.
Qed.

(** X8.  When [getAssetConfigs] throws, the error is that of the first entry
    that cannot be packed: either its name is missing from the contract
    map, or [packAssetConfig] threw on it; the entries after it are not
    looked at. *)
Theorem getAssetConfigs_first_failure
    (assets : list (string * NetworkAssetConfiguration))
    (contractMap : ContractMap) (t : thrown) :
  getAssetConfigs assets contractMap = inl t
  <-> exists before assetName assetConfig after,
        assets = before ++ (assetName, assetConfig) :: after
        /\ (exists configs, getAssetConfigs before contractMap = inr configs)
        /\ (getContractAddress assetName contractMap = inl t
            \/ exists assetAddress e,
                 getContractAddress assetName contractMap = inr assetAddress
                 /\ packAssetConfig assetAddress assetConfig = Err e
                 /\ t = Encoding e).
Proof.
  unfold getAssetConfigs. rewrite Array_map_inl. split.
  - intros (before & [assetName assetConfig] & after & -> & Hb & Hx).
    exists before, assetName, assetConfig, after.
    split; [reflexivity|]. split; [exact Hb|].
    destruct (getContractAddress assetName contractMap) as [t' | a];
      cbn in Hx; [left; inversion Hx; reflexivity|].
    destruct (packAssetConfig a assetConfig) as [w | e] eqn:Hw;
      cbn in Hx; [discriminate|].
    inversion Hx; subst. right. eauto.
  - intros (before & assetName & assetConfig & after & -> & Hb & Hx).
    exists before, (assetName, assetConfig), after.
    split; [reflexivity|]. split; [exact Hb|].
    destruct Hx as [-> | (a & e & -> & Hw & ->)]; cbn;
      [reflexivity|]. rewrite Hw. reflexivity.
Qed.

End AssetConfigs.

(** ** What [packAssetConfig] accepts, and the size of its words *)

Section PackDomain.

Lemma pack_feed_checked (assetAddress : string)
    (c : NetworkAssetConfiguration) (w : AssetConfigStruct) :
  packAssetConfig assetAddress c = Ok w -> isAddress (priceFeed c) = true.
Proof.
  unfold packAssetConfig, address.
  destruct (isAddress (priceFeed c)); [reflexivity | discriminate].
Qed.

(** X9.  [packAssetConfig] returns a packed configuration exactly when the
    price feed is a well-formed address, the decimals are a non-negative
    integer, the three factors are between 0.0 and 1.0, the supply cap
    is finite and the asset address is an integer literal that [BigInt]
    reads; nothing else is required of the record.  (Bigints are
    unbounded here; an engine also throws on a power of ten it cannot
    hold.) *)
Theorem packAssetConfig_accepts_iff (assetAddress : string)
    (c : NetworkAssetConfiguration) :
  is_double (borrowCF c) -> is_double (liquidateCF c) ->
  is_double (liquidationFactor c) ->
  (exists w, packAssetConfig assetAddress c = Ok w)
  <-> isAddress (priceFeed c) = true
      /\ (exists d, BigInt_of_number (decimals c) = Ok d /\ 0 <= d)
      /\ in_unit_interval (borrowCF c)
      /\ in_unit_interval (liquidateCF c)
      /\ in_unit_interval (liquidationFactor c)
      /\ finite (supplyCap c)
      /\ (exists a, StringToBigInt assetAddress = Some a).
Proof.
  intros Db Dl Df. split.
  - intros (w & Hw). pose proof (pack_feed_checked _ _ _ Hw) as Hfeed.
    destruct (pack_inv _ _ _ Hw)
      as (a & p & d & b & l & f & cap & unit
          & Ha & _ & Hd & Hb & Hl & Hf & Hcap & Hu & _).
    split; [exact Hfeed|]. split.
    { exists d. split; [exact Hd|]. revert Hu. unfold bigint_pow.
      destruct (Z.ltb_spec d 0); [discriminate | lia]. }
    split; [eapply percentage_accepted; eassumption|].
    split; [eapply percentage_accepted; eassumption|].
    split; [eapply percentage_accepted; eassumption|].
    split.
    { destruct (supplyCap c); cbn in Hcap |- *;
        solve [exact I | discriminate]. }
    revert Ha. unfold BigInt_of_string.
    destruct (StringToBigInt assetAddress) as [v|]; [eauto | discriminate].
  - intros (Hfeed & (d & Hd & Hd0) & Ib & Il & If & Hcap & (a & Ha)).
    destruct (address_value _ Hfeed) as (p & Hp & _).
    destruct (percentage_in_range _ Ib) as (b & Hb & _).
    destruct (percentage_in_range _ Il) as (l & Hl & _).
    destruct (percentage_in_range _ If) as (f & Hf & _).
    assert (exists cap, number (supplyCap c) true = Ok cap) as (cap & Hc).
    { destruct (supplyCap c); cbn in Hcap |- *; try contradiction; eauto. }
    unfold packAssetConfig, address, BigInt_of_string in *.
    rewrite Hfeed, Hd. cbn [negb bind].
    rewrite Hb, Hl, Hf, Hc, Ha. cbn [bind].
    destruct (StringToBigInt (priceFeed c)); [|discriminate]. cbn [bind].
    unfold bigint_pow.
    destruct (Z.ltb_spec d 0); [lia|]. cbn [bind]. eauto.
Qed.

(** X10.  The words of a valid record as numbers: the OR of the fields is their
    sum, [word_a] is below [2^208], and [word_b], which holds the supply
    cap in whole tokens above bit 168 without a bound of its own, is a
    256-bit word exactly when that count is below [2^88]. *)
Theorem packed_words_size (assetAddress : string)
    (c : NetworkAssetConfiguration) :
  valid_fields assetAddress c ->
  exists x w,
    encodes assetAddress c x
    /\ packAssetConfig assetAddress c = Ok w
    /\ word_a w
       = f_asset x + f_borrowCF x / 10 ^ 14 * 2 ^ 160
         + f_liquidateCF x / 10 ^ 14 * 2 ^ 176
         + f_liquidationFactor x / 10 ^ 14 * 2 ^ 192
    /\ word_b w
       = f_priceFeed x + f_decimals x * 2 ^ 160
         + f_supplyCap x / 10 ^ f_decimals x * 2 ^ 168
    /\ 0 <= word_a w < 2 ^ 208
    /\ 0 <= word_b w
    /\ (word_b w < 2 ^ 256
        <-> f_supplyCap x / 10 ^ f_decimals x < 2 ^ 88).
Proof.
  intros Hv. destruct (valid_encoded _ _ Hv) as (x & Hx & Hr).
  exists x, (packing_rule x). split; [exact Hx|].
  split; [apply pack_encoded; [apply Hv | exact Hx | exact Hr]|].
  destruct Hr as [Ra Rp Rd Rb Rl Rf Rs].
  destruct (descaled_range _ Rb) as [Hb1 Hb2].
  destruct (descaled_range _ Rl) as [Hl1 Hl2].
  destruct (descaled_range _ Rf) as [Hf1 Hf2].
  assert (Hu : 0 < 10 ^ f_decimals x) by (apply Z.pow_pos_nonneg; lia).
  assert (Hc : 0 <= f_supplyCap x / 10 ^ f_decimals x)
    by (apply Z.div_pos; lia).
  cbn [packing_rule word_a word_b].
  pose proof (below_next (f_asset x) (f_borrowCF x / 10 ^ 14) 160 16
                ltac:(lia) ltac:(lia) ltac:(lia) ltac:(lia)) as H1.
  pose proof (below_next _ (f_liquidateCF x / 10 ^ 14) 176 16
                ltac:(lia) ltac:(lia) H1 ltac:(lia)) as H2.
  pose proof (below_next _ (f_liquidationFactor x / 10 ^ 14) 192 16
                ltac:(lia) ltac:(lia) H2 ltac:(lia)) as H3.
  pose proof (below_next (f_priceFeed x) (f_decimals x) 160 8
                ltac:(lia) ltac:(lia) ltac:(lia) ltac:(lia)) as H4.
  simpl Z.add in H1, H2, H3, H4.
  rewrite (lor_field (f_asset x)) by lia.
  rewrite (lor_field _ _ 176) by lia.
  rewrite (lor_field _ _ 192) by lia.
  rewrite (lor_field (f_priceFeed x)) by lia.
  rewrite (lor_field _ _ 168) by lia.
  split; [reflexivity|]. split; [reflexivity|].
  split; [exact H3|].
  revert Hc H4. generalize (f_supplyCap x / 10 ^ f_decimals x).
  generalize (f_priceFeed x + f_decimals x * 2 ^ 160).
  intros lo cap Hc Hlo.
  change (2 ^ 256) with (2 ^ 88 * 2 ^ 168).
  assert (0 < 2 ^ 168) by lia.
  split; [nia|]. split; intros; nia.
Qed.

End PackDomain.

(** ** The configuration as a whole *)

Section Configuration.

Lemma address_inv (a a' : string) :
  address a = Ok a' -> a' = a /\ isAddress a = true.
Proof.
  unfold address. destruct (isAddress a); cbn; [|discriminate].
  intros H. inversion H. auto.
Qed.

Lemma lift_inr {A : Type} (r : result A) (a : A) :
  lift r = inr a <-> r = Ok a.
Proof.
  destruct r; cbn; split; intros H; inversion H; reflexivity.
Qed.

Lemma Map_get_Some (contractMap : ContractMap) (key : string)
    (contract : Ethers.Contract) :
  Map_get contractMap key = Some contract ->
  exists before after,
    contractMap = before ++ (key, contract) :: after
    /\ key ∉ Map_keys before.
Proof.
  induction contractMap as [|[k c] rest IH]; simpl; [discriminate|].
  destruct (String.eqb_spec k key) as [-> | Hne].
  - intros H. inversion H; subst. exists [], rest.
    split; [reflexivity | apply not_elem_of_nil].
  - intros H. destruct (IH H) as (before & after & -> & Hb).
    exists ((k, c) :: before), after. split; [reflexivity|].
    simpl. apply not_elem_of_cons. split; [congruence | exact Hb].
Qed.

Lemma getContractAddress_key (contractName : string)
    (contractMap : ContractMap) (a : string) :
  getContractAddress contractName contractMap = inr a ->
  contractName ∈ Map_keys contractMap.
Proof.
  unfold getContractAddress.
  destruct (Map_get contractMap contractName) as [c|] eqn:Hg;
    [|discriminate].
  intros _. destruct (decide (contractName ∈ Map_keys contractMap))
    as [Hin | Hout]; [exact Hin|].
  apply Map_get_None in Hout. congruence.
Qed.

Lemma getConfiguration_inv
    (networkConfiguration : Network.NetworkConfiguration)
    (contractMap : ContractMap) (p : ProtocolConfiguration) :
  getConfiguration networkConfiguration contractMap = inr p ->
  symbol p = Network.symbol networkConfiguration
  /\ getContractAddress (Network.baseToken networkConfiguration)
       contractMap = inr (baseToken p)
  /\ address (Network.baseTokenPriceFeed networkConfiguration)
     = Ok (baseTokenPriceFeed p)
  /\ address (Network.governor networkConfiguration) = Ok (governor p)
  /\ address (Network.pauseGuardian networkConfiguration)
     = Ok (pauseGuardian p)
  /\ percentage (Network.reserveRate networkConfiguration) true
     = Ok (reserveRate p)
  /\ number (Network.borrowMin networkConfiguration) true
     = Ok (baseBorrowMin p)
  /\ number (Network.storeFrontPriceFactor networkConfiguration) true
     = Ok (storeFrontPriceFactor p)
  /\ number (Network.targetReserves networkConfiguration) true
     = Ok (targetReserves p)
  /\ getInterestRateInfo (Network.rates networkConfiguration)
     = Ok (interestRateInfo p)
  /\ getTrackingInfo (Network.tracking networkConfiguration)
     = Ok (trackingInfo p)
  /\ getAssetConfigs (Network.assets networkConfiguration) contractMap
     = inr (assetConfigs p).
Proof.
  unfold getConfiguration.
  repeat match goal with
  | |- and_then (lift ?r) _ = _ -> _ =>
      let H := fresh "H" in
      destruct r eqn:H; cbn [lift and_then]; [|discriminate]
  | |- and_then ?r _ = _ -> _ =>
      let H := fresh "H" in
      destruct r eqn:H; cbn [and_then]; [discriminate|]
  end.
  intros H11. inversion H11; subst; clear H11. cbn.
  repeat split; reflexivity.
Qed.

(** X11.  A configuration that [getConfiguration] returns has a governor, a
    pause guardian and a base-token price feed that are the strings of
    the file and are well-formed addresses; its base token is the
    address the contract map holds under the file's name, taken as it
    is; every asset of the file is a key of the map and has one packed
    configuration, in the order in which [Object.entries] lists the
    assets (integer-like names first, in ascending order, then the
    other names as the file has them); the store-front price factor,
    the minimal borrow and the target reserves are the floors of the
    file's numbers, without scaling; and the reserve rate is between 0
    and [10^18]. *)
Theorem getConfiguration_output
    (networkConfiguration : Network.NetworkConfiguration)
    (contractMap : ContractMap) (p : ProtocolConfiguration) :
  is_double (Network.reserveRate networkConfiguration) ->
  getConfiguration networkConfiguration contractMap = inr p ->
  (governor p = Network.governor networkConfiguration
   /\ isAddress (governor p) = true)
  /\ (pauseGuardian p = Network.pauseGuardian networkConfiguration
      /\ isAddress (pauseGuardian p) = true)
  /\ (baseTokenPriceFeed p
      = Network.baseTokenPriceFeed networkConfiguration
      /\ isAddress (baseTokenPriceFeed p) = true)
  /\ (exists before contract after,
        contractMap
        = (before
             ++ (Network.baseToken networkConfiguration, contract) :: after)
        /\ (Network.baseToken networkConfiguration ∉ Map_keys before)
        /\ baseToken p = Ethers.address contract)
  /\ Forall2 (packs_to contractMap)
       (Network.assets networkConfiguration) (assetConfigs p)
  /\ Forall (fun entry => fst entry ∈ Map_keys contractMap)
       (Network.assets networkConfiguration)
  /\ floor (Network.storeFrontPriceFactor networkConfiguration)
     = Ok (storeFrontPriceFactor p)
  /\ floor (Network.borrowMin networkConfiguration) = Ok (baseBorrowMin p)
  /\ floor (Network.targetReserves networkConfiguration)
     = Ok (targetReserves p)
  /\ 0 <= reserveRate p <= 10 ^ 18.
Proof.
  intros Hd H. apply getConfiguration_inv in H
    as (_ & Hbase & Hfeed & Hgov & Hpg & Hrr & Hmin & Hsf & Htr & _ & _
        & Hassets).
  apply address_inv in Hfeed as [Hfeed1 Hfeed2].
  apply address_inv in Hgov as [Hgov1 Hgov2].
  apply address_inv in Hpg as [Hpg1 Hpg2].
  rewrite <- Hfeed1 in Hfeed2. rewrite <- Hgov1 in Hgov2.
  rewrite <- Hpg1 in Hpg2.
  apply getAssetConfigs_inr in Hassets.
  split; [auto|]. split; [auto|]. split; [auto|].
  split.
  { revert Hbase. unfold getContractAddress.
    destruct (Map_get contractMap _) as [contract|] eqn:Hg;
      [|discriminate].
    intros H. inversion H; subst; clear H.
    destruct (Map_get_Some _ _ _ Hg) as (before & after & Hm & Hb).
    exists before, contract, after. auto. }
  split; [exact Hassets|]. split.
  { clear -Hassets. induction Hassets as [|entry w l ws Hw _ IH];
      constructor; [|exact IH].
    destruct Hw as (a & Ha & _).
    apply getContractAddress_key in Ha. exact Ha. }
  split; [exact Hsf|]. split; [exact Hmin|]. split; [exact Htr|].
  destruct (percentage_in_range _ (percentage_accepted _ _ Hd Hrr))
    as (v & Hv & Hr & _).
  rewrite Hrr in Hv. inversion Hv; subst. exact Hr.
Qed.

End Configuration.

(** ** More on running a solution *)

Section RunTrace.
Context {Ctx Artifact Exn : Type}.
Abbreviation unit_ := (Migration Ctx Artifact Exn).
Abbreviation world_ := (world Ctx Artifact Exn).

Variable localeCompare : string -> string -> Z.
Variable stringify : Artifact -> Exn + string.
Variable getGovernor getProposer : @action Ctx Exn unit.

Abbreviation run_ := (run localeCompare stringify getGovernor getProposer).
Abbreviation apply_ := (@apply_migrations Ctx Artifact Exn stringify).
Abbreviation enter_ := (enter localeCompare getGovernor getProposer).
Abbreviation by_name :=
  (fun a b : unit_ => localeCompare (name a) (name b)).

(** X12.  A run whose governor or proposer cannot be obtained ends with that
    failure before the array is sorted: no array of the store changes, no
    debug line is written and no migration is called. *)
Theorem run_fails_before_sorting (s : Solution) (w : world_) (c : Ctx)
    (e : Exn) :
  getGovernor (context w) = (c, inl e)
  \/ (exists c1, getGovernor (context w) = (c1, inr tt)
                 /\ getProposer c1 = (c, inl e)) ->
  run_ s w
  = ({| context := c; arrays := arrays w; events := events w |}, inl e).
Proof.
  unfold run, seq_, await.
  intros [Hg | (c1 & Hg & Hp)]; rewrite Hg; cbn; [reflexivity|].
  rewrite Hp. reflexivity.
Qed.

Lemma apply_arrays (l : list unit_) (w w' : world_) (r : Exn + unit) :
  apply_ l w = (w', r) -> arrays w' = arrays w.
Proof.
  revert w. induction l as [|u l IH]; intros w.
  - cbn. intros H. inversion H; reflexivity.
  - rewrite apply_cons, apply_migration_cases.
    destruct (prepare u (context w)) as [c1 [e1 | a]].
    { intros H. inversion H; reflexivity. }
    destruct (stringify a) as [e2 | j].
    { intros H. inversion H; reflexivity. }
    destruct (enact u a c1) as [c2 [e3 | []]].
    { intros H. inversion H; reflexivity. }
    intros H. apply IH in H. exact H.
Qed.



(** X14.  An artifact that cannot be serialised ends the run, because the debug
    line is built before [enact] is called: when the units before [u]
    complete and [JSON.stringify] throws [e] on the artifact [u]
    prepared, the run fails with [e], [u] is not enacted and no later
    unit is called. *)
Theorem run_stops_at_unserialisable_artifact (s : Solution)
    (w w0 w1 : world_) (before after : list unit_) (u : unit_)
    (c : Ctx) (a : Artifact) (e : Exn) :
  enter_ s w = (w0, inr (before ++ u :: after)) ->
  apply_ before w0 = (w1, inr tt) ->
  prepare u (context w1) = (c, inr a) ->
  stringify a = inl e ->
  exists w2,
    run_ s w = (w2, inl e)
    /\ context w2 = c
    /\ exists es,
         events w2 = events w0 ++ es
         /\ prepared es = name <$> (before ++ [u])
         /\ enacted es = name <$> before.
Proof.
  intros He Hb Hp Hj.
  assert (Hu : apply_migration stringify u w1
               = ({| context := c; arrays := arrays w1;
                     events := events w1 ++ [CallPrepare (name u)] |},
                  inl e)).
  { rewrite apply_migration_cases, Hp, Hj. reflexivity. }
  eexists. split.
  - rewrite run_enter, He, apply_app, Hb, apply_cons, Hu. reflexivity.
  - split; [reflexivity|].
    destruct (apply_completes _ _ _ _ Hb) as (es1 & E1 & P1 & N1).
    exists (es1 ++ [CallPrepare (name u)]). cbn [events].
    rewrite E1, <- app_assoc. split; [reflexivity|].
    rewrite prepared_app, enacted_app, P1, N1, fmap_app. cbn.
    rewrite app_nil_r. auto.
Qed.

End RunTrace.

Section Rerun.
Context {Ctx Artifact Exn : Type}.
Abbreviation unit_ := (Migration Ctx Artifact Exn).
Abbreviation world_ := (world Ctx Artifact Exn).

Variable localeCompare : string -> string -> Z.
Variable stringify : Artifact -> Exn + string.
Variable getGovernor getProposer : @action Ctx Exn unit.

Hypothesis localeCompare_antisym :
  forall a b, 0 < localeCompare a b <-> localeCompare b a < 0.
Hypothesis localeCompare_trans :
  forall a b c, localeCompare a b <= 0 -> localeCompare b c <= 0 ->
                localeCompare a c <= 0.

Abbreviation run_ := (run localeCompare stringify getGovernor getProposer).
Abbreviation by_name :=
  (fun a b : unit_ => localeCompare (name a) (name b)).

Lemma Array_sort_sorted_id {A : Type} (compareFn : A -> A -> Z)
    (l : list A) :
  StronglySorted (not_above compareFn) l -> Array_sort compareFn l = l.
Proof.
  induction 1 as [|x l Hs IH Hx]; [reflexivity|].
  cbn [Array_sort foldr]. fold (Array_sort compareFn l). rewrite IH.
  destruct l as [|y l]; [reflexivity|].
  apply Forall_cons in Hx as [Hxy _]. unfold not_above in Hxy.
  cbn [sort_insert].
  destruct (Z.ltb_spec 0 (compareFn x y)); [lia | reflexivity].
Qed.

(** X15.  A run leaves its array sorted in the store, also when a migration
    fails, and leaves every other array as it was; so a second run of
    the same solution, or a run of another solution of the same
    [solve], finds what the first one found, and applies the same
    sequence. *)
Theorem run_sorts_only_its_array (s : Solution) (w w' : world_)
    (r : Exn + Ctx) :
  run_ s w = (w', r) ->
  let sorted := Array_sort by_name (read (arrays w) (migrationList s)) in
  (forall other, other <> migrationList s ->
     read (arrays w') other = read (arrays w) other)
  /\ (read (arrays w') (migrationList s)
      = read (arrays w) (migrationList s)
      \/ read (arrays w') (migrationList s) = sorted)
  /\ Array_sort by_name (read (arrays w') (migrationList s)) = sorted.
Proof.
  rewrite run_enter. intros H sorted.
  destruct (enter localeCompare getGovernor getProposer s w)
    as [w0 [e | sorted']] eqn:He.
  - inversion H; subst; clear H.
    assert (Harr : arrays w' = arrays w).
    { revert He. unfold enter, seq_, await, sort_in_place, emit, ret.
      destruct (getGovernor (context w)) as [c1 [e1 | []]]; cbn.
      - intros H; inversion H; subst; reflexivity.
      - destruct (getProposer c1) as [c2 [e2 | []]]; cbn;
          intros H; inversion H; subst; reflexivity. }
    rewrite Harr. auto.
  - destruct (enter_inv _ _ _ _ _ _ _ He) as (Hs & Harr & _).
    fold sorted in Hs. subst sorted'.
    assert (Harr' : arrays w' = <[migrationList s := sorted]> (arrays w)).
    { destruct (apply_migrations stringify sorted w0) as [w1 r1] eqn:Ha.
      pose proof (apply_arrays _ _ _ _ _ Ha) as Hsame.
      destruct r1 as [e | []]; inversion H; subst; clear H;
        rewrite Hsame; exact Harr. }
    rewrite Harr'. unfold read, store, loc in *.
    assert (Hread : default [] (<[migrationList s := sorted]> (arrays w)
                                  !! migrationList s) = sorted).
    { unfold store, loc.
      destruct (decide (migrationList s < length (arrays w))%nat)
        as [Hlt | Hge].
      - rewrite list_lookup_insert_eq by exact Hlt. reflexivity.
      - rewrite list_insert_ge by lia. subst sorted.
        rewrite lookup_ge_None_2 by lia. reflexivity. }
    unfold read, store, loc in *.
    split; [|split].
    + intros other Hother.
      rewrite list_lookup_insert_ne by congruence.
      reflexivity.
    + right. exact Hread.
    + rewrite Hread. apply Array_sort_sorted_id.
      apply (Array_sort_sorted by_name); [intros; apply localeCompare_antisym|].
      intros a b c0. apply localeCompare_trans.
Qed.

End Rerun.

(** ** More on the generator *)

Section GeneratorStore.
Context {Ctx Artifact Exn : Type}.
Abbreviation unit_ := (Migration Ctx Artifact Exn).

(** X16.  Resuming the generator never changes an array that is already in the
    store: a resumption that yields appends one new array, the one it
    yields, and a resumption that returns leaves the store as it is.  So
    the pushes that a yielded array receives all happen before the
    consumer of the outermost generator sees it. *)
Theorem next_appends_one_array (array : list unit_) (g g' : generator)
    (h h' : store) (r : option loc) :
  next array g h = (r, g', h') ->
  match r with
  | Some subset =>
      subset = length h
      /\ h' = h ++ [read h' subset]
      /\ remaining array g = read h' subset :: remaining array g'
  | None => h' = h /\ remaining array g = []
  end.
Proof.
  intros Hn. pose proof (next_spec array g h) as Hs.
  destruct (remaining array g) as [|subset rest].
  - destruct Hs as (g0 & Hg). rewrite Hg in Hn.
    inversion Hn; subst. auto.
  - destruct Hs as (g0 & Hg & Hrest). rewrite Hg in Hn.
    inversion Hn; subst; clear Hn.
    assert (Hread : read (h ++ [subset]) (length h) = subset).
    { unfold read, store, loc.
      rewrite list_lookup_middle by reflexivity. reflexivity. }
    rewrite Hread. auto.
Qed.

Lemma pure_subsets_head (l : list unit_) :
  head (pure_subsets l) = Some (reverse l).
Proof.
  induction l as [|x l IH]; [reflexivity|].
  simpl pure_subsets. destruct (pure_subsets l) as [|s rest] eqn:Hp;
    [discriminate|].
  rewrite reverse_cons, fmap_cons, <- app_comm_cons.
  change (Some (s ++ [x]) = Some (reverse l ++ [x])).
  change (Some s = Some (reverse l)) in IH. congruence.
Qed.

Lemma pure_subsets_last (l : list unit_) : last (pure_subsets l) = Some [].
Proof.
  induction l as [|x l IH]; [reflexivity|].
  simpl pure_subsets. destruct (pure_subsets l) as [|s rest] eqn:Hp;
    [discriminate|].
  rewrite last_app, IH. reflexivity.
Qed.

(** X17.  [solve] lists the scenario of the whole catalog first and the empty
    scenario last; it appends one array per solution to the store, in
    the order of the solutions, and changes no array that was there; the
    array of the first solution holds the catalog in reverse order. *)
Theorem solve_appends_in_order (catalog : list unit_) (h : store) :
  let '(solutions, h') := solve catalog h in
  let array_of := fun s => read h' (migrationList s) in
  h' = h ++ (array_of <$> solutions)
  /\ migrationList <$> solutions
     = seq (length h) (2 ^ length catalog)
  /\ array_of <$> head solutions = Some (reverse catalog)
  /\ array_of <$> last solutions = Some [].
Proof.
  pose proof (solve_arrays catalog h) as Har.
  pose proof (solve_spec catalog h) as Hsp.
  destruct (solve catalog h) as [solutions h'].
  cbn [fst snd] in Har. injection Hsp as Hs Hh. cbv zeta.
  split; [|split; [|split]].
  - rewrite Har. exact Hh.
  - rewrite Hs, <- list_fmap_compose, <- pure_subsets_length.
    erewrite list_fmap_ext; [apply list_fmap_id|].
    intros i r _. reflexivity.
  - rewrite <- pure_subsets_head, <- Har.
    destruct solutions; reflexivity.
  - rewrite <- fmap_last, Har. apply pure_subsets_last.
Qed.

End GeneratorStore.

(** ** The scaling price feed *)

Section PriceFeed.
Import ScalingPriceFeed.

Lemma pow10_int256 (k : Z) : 0 <= k <= 76 -> 1 <= 10 ^ k <= int256_max.
Proof.
  intros Hk. split.
  - change 1 with (10 ^ 0). apply Z.pow_le_mono_r; lia.
  - transitivity (10 ^ 76); [apply Z.pow_le_mono_r; lia|].
    vm_compute. discriminate.
Qed.

Lemma pow10_uint256 (k : Z) : 78 <= k -> uint256_max < 10 ^ k.
Proof.
  intros Hk. apply Z.lt_le_trans with (10 ^ 78).
  - vm_compute. reflexivity.
  - apply Z.pow_le_mono_r; lia.
Qed.

Lemma decode_uint8_fits (n : Z) : is_uint8 n -> decode_uint8 n = inr n.
Proof.
  unfold decode_uint8, fits_uint8, is_uint8. intros [H0 H1].
  apply Z.leb_le in H0, H1. rewrite H0, H1. reflexivity.
Qed.

(** The factor the constructor computes for an exponent. *)
Lemma factor_cases (k : Z) :
  0 <= k ->
  call_bind (pow_uint256 10 k) signed256
  = if k <=? 76 then inr (10 ^ k)
    else if k =? 77 then inl InvalidInt256
    else inl (Panic overflow).
Proof.
  intros Hk. unfold pow_uint256, signed256, call_bind.
  destruct (Z.leb_spec k 76) as [H76 | H76].
  - pose proof (pow10_int256 k ltac:(lia)) as [H1 H2].
    assert (Hu : 10 ^ k <= uint256_max).
    { transitivity int256_max; [exact H2 | vm_compute; discriminate]. }
    apply Z.leb_le in Hu. rewrite Hu.
    destruct (Z.ltb_spec int256_max (10 ^ k)); [lia | reflexivity].
  - destruct (Z.eqb_spec k 77) as [-> | H77]; [reflexivity|].
    pose proof (pow10_uint256 k ltac:(lia)) as Hbig.
    destruct (Z.leb_spec (10 ^ k) uint256_max); [lia | reflexivity].
Qed.

(** X18.  The constructor fixes the factor once: for an underlying feed of [c]
    decimals and [d] decimals asked for, the factor is [10^|d - c|] and
    the feed upscales exactly when [c < d].  The deployment succeeds when
    the two differ by at most 76; a difference of 77 reverts with
    [InvalidInt256] and a larger one with the overflow panic of the
    exponentiation. *)
Theorem constructor_fixes_power_of_ten
    (underlying : AggregatorV3Interface.t) (d c : Z) (text : string) :
  is_uint8 d -> is_uint8 c ->
  AggregatorV3Interface.decimals underlying = inr c ->
  AggregatorV3Interface.description underlying = inr text ->
  (Z.abs (d - c) <= 76 ->
   constructor underlying d
   = inr {| decimals := d;
            underlyingPriceFeed := underlying;
            description := text;
            shouldUpscale := c <? d;
            rescaleFactor := 10 ^ Z.abs (d - c) |})
  /\ (Z.abs (d - c) = 77 -> constructor underlying d = inl InvalidInt256)
  /\ (78 <= Z.abs (d - c) ->
      constructor underlying d = inl (Panic overflow)).
Proof.
  intros Hd Hc Hdec Htext. unfold constructor.
  rewrite (decode_uint8_fits d Hd). cbn [call_bind].
  rewrite Htext, Hdec. cbn [call_bind].
  rewrite (decode_uint8_fits c Hc). cbn [call_bind]. unfold sub_uint8.
  destruct (Z.ltb_spec c d) as [Hlt | Hge].
  - destruct (Z.ltb_spec d c); [lia|]. cbn [call_bind].
    rewrite factor_cases by lia.
    replace (Z.abs (d - c)) with (d - c) by lia.
    split; [|split]; intros Hk.
    + destruct (Z.leb_spec (d - c) 76); [reflexivity | lia].
    + rewrite Hk. reflexivity.
    + destruct (Z.leb_spec (d - c) 76); [lia|].
      destruct (Z.eqb_spec (d - c) 77); [lia | reflexivity].
  - destruct (Z.ltb_spec c d); [lia|]. cbn [call_bind].
    rewrite factor_cases by lia.
    replace (Z.abs (d - c)) with (c - d) by lia.
    split; [|split]; intros Hk.
    + destruct (Z.leb_spec (c - d) 76); [reflexivity | lia].
    + rewrite Hk. reflexivity.
    + destruct (Z.leb_spec (c - d) 76); [lia|].
      destruct (Z.eqb_spec (c - d) 77); [lia | reflexivity].
Qed.

(** Every deployed feed holds a factor that is a power of ten between 1
    and [10^76]. *)
Lemma constructor_inv (underlying : AggregatorV3Interface.t) (d c : Z)
    (this : t) :
  is_uint8 d -> is_uint8 c ->
  AggregatorV3Interface.decimals underlying = inr c ->
  constructor underlying d = inr this ->
  decimals this = d
  /\ underlyingPriceFeed this = underlying
  /\ shouldUpscale this = (c <? d)
  /\ rescaleFactor this = 10 ^ Z.abs (d - c)
  /\ Z.abs (d - c) <= 76.
Proof.
  intros Hd Hc Hdec. unfold constructor.
  rewrite (decode_uint8_fits d Hd). cbn [call_bind]. rewrite Hdec.
  destruct (AggregatorV3Interface.description underlying) as [f | text];
    cbn [call_bind]; [discriminate|].
  rewrite (decode_uint8_fits c Hc). cbn [call_bind].
  unfold sub_uint8.
  destruct (Z.ltb_spec c d) as [Hlt | Hge].
  - destruct (Z.ltb_spec d c); [lia|]. cbn [call_bind].
    rewrite factor_cases by lia.
    replace (Z.abs (d - c)) with (d - c) by lia.
    destruct (Z.leb_spec (d - c) 76); cbn [call_bind].
    + intros H'. inversion H'; subst; clear H'. cbn.
      destruct (Z.ltb_spec c d); [auto | lia].
    + destruct (d - c =? 77); discriminate.
  - destruct (Z.ltb_spec c d); [lia|]. cbn [call_bind].
    rewrite factor_cases by lia.
    replace (Z.abs (d - c)) with (c - d) by lia.
    destruct (Z.leb_spec (c - d) 76); cbn [call_bind].
    + intros H'. inversion H'; subst; clear H'. cbn.
      destruct (Z.ltb_spec c d); [lia | auto].
    + destruct (c - d =? 77); discriminate.
Qed.

Lemma quot_bounds (p f : Z) :
  1 <= f ->
  Z.abs p - f < Z.abs (Z.quot p f) * f <= Z.abs p
  /\ 0 <= Z.quot p f * p.
Proof.
  intros Hf.
  assert (Hpos : forall x, 0 <= x ->
            0 <= Z.quot x f /\ x - f < Z.quot x f * f <= x).
  { intros x Hx.
    pose proof (Z.quot_rem' x f) as Hqr.
    pose proof (Z.rem_bound_pos x f Hx ltac:(lia)) as Hr.
    assert (0 <= Z.quot x f) by (apply Z.quot_pos; lia).
    split; [assumption | lia]. }
  destruct (Z_le_gt_dec 0 p) as [Hp | Hp].
  - destruct (Hpos p Hp) as [Hq Hb].
    rewrite (Z.abs_eq p), (Z.abs_eq (Z.quot p f)) by lia.
    split; [exact Hb | nia].
  - destruct (Hpos (- p) ltac:(lia)) as [Hq Hb].
    rewrite Z.quot_opp_l in Hq, Hb by lia.
    rewrite (Z.abs_neq p), (Z.abs_neq (Z.quot p f)) by lia.
    split; [exact Hb | nia].
Qed.

Lemma quot_towards_zero (p f : Z) :
  1 <= f ->
  (0 <= p -> 0 <= Z.quot p f * f <= p)
  /\ (p <= 0 -> p <= Z.quot p f * f <= 0).
Proof.
  intros Hf.
  assert (Hpos : forall x, 0 <= x -> 0 <= Z.quot x f * f <= x).
  { intros x Hx.
    pose proof (Z.quot_rem' x f) as Hqr.
    pose proof (Z.rem_bound_pos x f Hx ltac:(lia)) as Hr.
    assert (0 <= Z.quot x f) by (apply Z.quot_pos; lia).
    split; [nia | lia]. }
  split; [apply Hpos|].
  intros Hp. specialize (Hpos (- p) ltac:(lia)).
  rewrite Z.quot_opp_l in Hpos by lia. lia.
Qed.

Lemma div_int256_positive (p f : Z) :
  1 <= f -> div_int256 p f = inr (Z.quot p f).
Proof.
  intros Hf. unfold div_int256.
  destruct (Z.eqb_spec f 0); [lia|].
  destruct (Z.eqb_spec f (-1)); [lia|].
  rewrite andb_false_r. reflexivity.
Qed.

Lemma decode_round_cases (reply : RoundData) :
  (is_uint80 (roundId reply) /\ is_uint80 (answeredInRound reply) ->
   decode_round reply = inr reply)
  /\ (~ (is_uint80 (roundId reply) /\ is_uint80 (answeredInRound reply)) ->
      decode_round reply = inl (Reverted "")).
Proof.
  unfold decode_round, fits_uint80, is_uint80.
  destruct (Z.leb_spec 0 (roundId reply));
    destruct (Z.leb_spec (roundId reply) uint80_max);
    destruct (Z.leb_spec 0 (answeredInRound reply));
    destruct (Z.leb_spec (answeredInRound reply) uint80_max);
    cbn [andb]; split; intros H'; try reflexivity;
    first [exfalso; lia | exfalso; apply H'; lia].
Qed.

Lemma decode_uint80_cases (n : Z) :
  (is_uint80 n -> decode_uint80 n = inr n)
  /\ (~ is_uint80 n -> decode_uint80 n = inl (Reverted "")).
Proof.
  unfold decode_uint80, fits_uint80, is_uint80.
  destruct (Z.leb_spec 0 n); destruct (Z.leb_spec n uint80_max);
    cbn [andb]; split; intros H'; try reflexivity; exfalso; lia.
Qed.

(** X19.  A feed that does not upscale adds no failure of its arithmetic.
    It reverts with the underlying feed's revert when there is one, and
    without data when a round id of the reply, or the round id asked
    for, does not fit [uint80]; otherwise it returns.  Its answer is the
    underlying answer divided by [10^(c - d)] and truncated towards
    zero, so it keeps the sign, is less than one unit of the new scale
    away, is an [int256] when the underlying answer is one, and with
    equal decimals is the underlying answer itself; the other fields of
    the round are passed on. *)
Theorem downscaling_feed_truncates (underlying : AggregatorV3Interface.t)
    (d c : Z) (this : t) :
  is_uint8 d -> is_uint8 c -> d <= c ->
  AggregatorV3Interface.decimals underlying = inr c ->
  constructor underlying d = inr this ->
  (forall f,
     AggregatorV3Interface.latestRoundData underlying = inl f ->
     latestRoundData this = inl f)
  /\ (forall reply,
        AggregatorV3Interface.latestRoundData underlying = inr reply ->
        let a := Z.quot (answer reply) (10 ^ (c - d)) in
        (is_uint80 (roundId reply) /\ is_uint80 (answeredInRound reply) ->
         latestRoundData this = inr (with_answer reply a))
        /\ (~ (is_uint80 (roundId reply)
               /\ is_uint80 (answeredInRound reply)) ->
            latestRoundData this = inl (Reverted ""))
        /\ Z.abs (answer reply) - 10 ^ (c - d)
           < Z.abs a * 10 ^ (c - d) <= Z.abs (answer reply)
        /\ 0 <= a * answer reply
        /\ (c = d -> a = answer reply)
        /\ (is_int256 (answer reply) -> is_int256 a))
  /\ (forall roundId_,
        (~ is_uint80 roundId_ ->
         getRoundData this roundId_ = inl (Reverted ""))
        /\ (is_uint80 roundId_ ->
            match AggregatorV3Interface.getRoundData underlying roundId_
            with
            | inl f => getRoundData this roundId_ = inl f
            | inr reply =>
                (is_uint80 (roundId reply)
                 /\ is_uint80 (answeredInRound reply) ->
                 getRoundData this roundId_
                 = inr (with_answer reply
                          (Z.quot (answer reply) (10 ^ (c - d)))))
                /\ (~ (is_uint80 (roundId reply)
                       /\ is_uint80 (answeredInRound reply)) ->
                    getRoundData this roundId_ = inl (Reverted ""))
            end)).
Proof.
  intros Hd Hc Hle Hdec Hthis.
  destruct (constructor_inv _ _ _ _ Hd Hc Hdec Hthis)
    as (_ & Hu & Hup & Hf & Hk).
  replace (Z.abs (d - c)) with (c - d) in Hf by lia.
  assert (Hdown : (c <? d) = false) by (apply Z.ltb_ge; lia).
  rewrite Hdown in Hup.
  assert (Hf1 : 1 <= 10 ^ (c - d)) by (apply pow10_int256; lia).
  assert (Hscale : forall p,
            scalePrice this p = inr (Z.quot p (10 ^ (c - d)))).
  { intros p. unfold scalePrice. rewrite Hup, Hf.
    apply div_int256_positive. exact Hf1. }
  split; [|split].
  - intros f Hl. unfold latestRoundData. rewrite Hu, Hl. reflexivity.
  - intros reply Hl a.
    destruct (decode_round_cases reply) as [Hfit Hnofit].
    split; [|split; [|split; [|split; [|split]]]].
    + intros Hin. unfold latestRoundData.
      rewrite Hu, Hl. cbn [call_bind]. rewrite (Hfit Hin).
      cbn [call_bind]. rewrite Hscale. reflexivity.
    + intros Hout. unfold latestRoundData.
      rewrite Hu, Hl. cbn [call_bind]. rewrite (Hnofit Hout). reflexivity.
    + apply quot_bounds. exact Hf1.
    + apply quot_bounds. exact Hf1.
    + intros ->. subst a. rewrite Z.sub_diag. apply Z.quot_1_r.
    + unfold is_int256. intros Hint. subst a.
      destruct (quot_towards_zero (answer reply) (10 ^ (c - d)) Hf1)
        as [Hq1 Hq2].
      assert (Hzero : int256_min <= 0 <= int256_max)
        by (vm_compute; split; discriminate).
      revert Hq1 Hq2 Hint Hzero.
      generalize (Z.quot (answer reply) (10 ^ (c - d))).
      generalize (answer reply) int256_min int256_max.
      generalize (10 ^ (c - d)) Hf1. clear.
      intros f Hf p lo hi q Hq1 Hq2 Hint Hzero.
      destruct (Z_le_gt_dec 0 p);
        [specialize (Hq1 ltac:(lia)) | specialize (Hq2 ltac:(lia))]; nia.
  - intros roundId_.
    destruct (decode_uint80_cases roundId_) as [Hin Hout].
    split.
    + intros Hn. unfold getRoundData. rewrite (Hout Hn). reflexivity.
    + intros Hy. unfold getRoundData. rewrite (Hin Hy), Hu.
      cbn [call_bind].
      destruct (AggregatorV3Interface.getRoundData underlying roundId_)
        as [f | reply]; cbn [call_bind]; [reflexivity|].
      destruct (decode_round_cases reply) as [Hfit Hnofit].
      split.
      * intros Hr. rewrite (Hfit Hr). cbn [call_bind].
        rewrite Hscale. reflexivity.
      * intros Hr. rewrite (Hnofit Hr). reflexivity.
Qed.

(** X20.  A feed that upscales multiplies exactly or reverts: for a reply
    whose round ids fit [uint80], its answer is the underlying answer
    times [10^(d - c)] when that product is an [int256], and the call
    reverts with the overflow panic when it is not; the answer is never
    a wrapped product.  A reply whose round ids do not fit reverts
    without data. *)
Theorem upscaling_feed_is_exact_or_reverts
    (underlying : AggregatorV3Interface.t) (d c : Z) (this : t)
    (reply : RoundData) :
  is_uint8 d -> is_uint8 c -> c < d ->
  AggregatorV3Interface.decimals underlying = inr c ->
  constructor underlying d = inr this ->
  AggregatorV3Interface.latestRoundData underlying = inr reply ->
  let a := answer reply * 10 ^ (d - c) in
  let decodes :=
    is_uint80 (roundId reply) /\ is_uint80 (answeredInRound reply) in
  (decodes -> is_int256 a ->
   latestRoundData this = inr (with_answer reply a))
  /\ (decodes -> ~ is_int256 a ->
      latestRoundData this = inl (Panic overflow))
  /\ (~ decodes -> latestRoundData this = inl (Reverted ""))
  /\ (forall result,
        latestRoundData this = inr result ->
        result = with_answer reply a /\ is_int256 a /\ decodes).
Proof.
  intros Hd Hc Hlt Hdec Hthis Hl a decodes.
  destruct (constructor_inv _ _ _ _ Hd Hc Hdec Hthis)
    as (_ & Hu & Hup & Hf & Hk).
  replace (Z.abs (d - c)) with (d - c) in Hf by lia.
  assert (Hupt : (c <? d) = true) by (apply Z.ltb_lt; lia).
  rewrite Hupt in Hup.
  destruct (decode_round_cases reply) as [Hfit Hnofit].
  fold decodes in Hfit, Hnofit.
  unfold latestRoundData. rewrite Hu, Hl. cbn [call_bind].
  assert (Hscale : scalePrice this (answer reply)
                   = if (int256_min <=? a) && (a <=? int256_max)
                     then inr a else inl (Panic overflow)).
  { unfold scalePrice, mul_int256. rewrite Hup, Hf. reflexivity. }
  assert (Hdecide : decodes \/ ~ decodes).
  { unfold decodes, is_uint80. lia. }
  destruct Hdecide as [Hy | Hn].
  - rewrite (Hfit Hy). cbn [call_bind]. rewrite Hscale.
    unfold is_int256.
    destruct (Z.leb_spec int256_min a);
      destruct (Z.leb_spec a int256_max); cbn [andb call_bind];
      (split; [|split; [|split]]);
      try (intros; reflexivity); try (intros; lia);
      try (intros; contradiction);
      try (intros result H'; discriminate).
    intros result H'. inversion H'; subst.
    split; [reflexivity|]. split; [lia | exact Hy].
  - rewrite (Hnofit Hn).
    split; [intros; contradiction|]. split; [intros; contradiction|].
    split; [reflexivity|]. intros result H'. discriminate.
Qed.

Lemma scalePrice_cases (underlying : AggregatorV3Interface.t) (d c : Z)
    (this : t) (p : Z) :
  is_uint8 d -> is_uint8 c ->
  AggregatorV3Interface.decimals underlying = inr c ->
  constructor underlying d = inr this ->
  1 <= 10 ^ Z.abs (d - c)
  /\ scalePrice this p
     = if c <? d then mul_int256 p (10 ^ Z.abs (d - c))
       else inr (Z.quot p (10 ^ Z.abs (d - c))).
Proof.
  intros Hd Hc Hdec Hthis.
  destruct (constructor_inv _ _ _ _ Hd Hc Hdec Hthis)
    as (_ & _ & Hup & Hf & Hk).
  assert (Hf1 : 1 <= 10 ^ Z.abs (d - c)) by (apply pow10_int256; lia).
  split; [exact Hf1|].
  unfold scalePrice. rewrite Hup, Hf.
  destruct (c <? d); [reflexivity|].
  apply div_int256_positive. exact Hf1.
Qed.

(** X21.  Scaling keeps the order of prices: of two prices the feed scales, the
    lower one has the lower or the same answer, and a feed that does not
    downscale keeps them apart. *)
Theorem scaling_preserves_order (underlying : AggregatorV3Interface.t)
    (d c : Z) (this : t) (p1 p2 a1 a2 : Z) :
  is_uint8 d -> is_uint8 c ->
  AggregatorV3Interface.decimals underlying = inr c ->
  constructor underlying d = inr this ->
  scalePrice this p1 = inr a1 -> scalePrice this p2 = inr a2 ->
  p1 <= p2 ->
  a1 <= a2 /\ (c <= d -> p1 < p2 -> a1 < a2).
Proof.
  intros Hd Hc Hdec Hthis H1 H2 Hle.
  destruct (scalePrice_cases _ _ _ _ p1 Hd Hc Hdec Hthis) as [Hf E1].
  destruct (scalePrice_cases _ _ _ _ p2 Hd Hc Hdec Hthis) as [_ E2].
  rewrite H1 in E1. rewrite H2 in E2. revert E1 E2.
  unfold mul_int256.
  destruct (Z.ltb_spec c d) as [Hlt | Hge].
  - destruct (_ && _); [|discriminate].
    destruct (_ && _); [|discriminate].
    intros E1 E2. inversion E1; inversion E2; subst.
    split; [nia | intros _ Hp; nia].
  - intros E1 E2. inversion E1; inversion E2; subst.
    split; [apply Z.quot_le_mono; lia|].
    intros Hcd Hp. replace (d - c) with 0 by lia.
    cbn [Z.abs]. rewrite !Z.quot_1_r. exact Hp.
Qed.

Lemma with_answer_same (round : RoundData) :
  with_answer round (answer round) = round.
Proof. destruct round; reflexivity. Qed.

(** X22.  Two feeds in a row, the second one scaling back to the decimals
    of the underlying feed, on a reply whose round ids fit [uint80] and
    whose answer is an [int256].  Up and then down gives the underlying
    round back, whenever the upscaling feed returns.  Down and then up
    returns, with the underlying answer rounded towards zero to a
    multiple of [10^(c - d)]. *)
Theorem scaling_back_and_forth (underlying : AggregatorV3Interface.t)
    (d c : Z) (first back : t) (round : RoundData) :
  is_uint8 d -> is_uint8 c ->
  AggregatorV3Interface.decimals underlying = inr c ->
  constructor underlying d = inr first ->
  constructor (as_feed first) c = inr back ->
  AggregatorV3Interface.latestRoundData underlying = inr round ->
  is_uint80 (roundId round) -> is_uint80 (answeredInRound round) ->
  is_int256 (answer round) ->
  decimals back = c
  /\ (c <= d ->
      forall scaled, latestRoundData first = inr scaled ->
      latestRoundData back = inr round)
  /\ (d < c ->
      latestRoundData back
      = inr (with_answer round
               (answer round - Z.rem (answer round) (10 ^ (c - d))))).
Proof.
  intros Hd Hc Hdec Hfirst Hback Hl Hid Hin Hint.
  destruct (constructor_inv _ _ _ _ Hd Hc Hdec Hfirst)
    as (Hd1 & Hu1 & _).
  assert (Hdec' : AggregatorV3Interface.decimals (as_feed first) = inr d)
    by (cbn; rewrite Hd1; reflexivity).
  destruct (constructor_inv _ _ _ _ Hc Hd Hdec' Hback)
    as (Hd2 & Hu2 & _).
  pose proof (fun p => proj2 (scalePrice_cases _ _ _ _ p Hd Hc Hdec Hfirst))
    as S1.
  pose proof (fun p => scalePrice_cases _ _ _ _ p Hc Hd Hdec' Hback)
    as S2.
  assert (Hdecode : forall a, decode_round (with_answer round a)
                              = inr (with_answer round a)).
  { intros a. apply decode_round_cases. cbn. auto. }
  assert (Hdecode0 : decode_round round = inr round)
    by (apply decode_round_cases; auto).
  split; [exact Hd2|].
  unfold latestRoundData at 2 3. rewrite Hu2.
  cbn [as_feed AggregatorV3Interface.latestRoundData].
  unfold latestRoundData. rewrite Hu1, Hl. cbn [call_bind].
  rewrite Hdecode0. cbn [call_bind].
  rewrite S1. split.
  - intros Hle scaled.
    destruct (Z.ltb_spec c d) as [Hlt | Hge].
    + unfold mul_int256.
      destruct (_ && _); cbn [call_bind]; [|discriminate]. intros _.
      fold (with_answer round (answer round * 10 ^ Z.abs (d - c))).
      rewrite Hdecode. cbn [call_bind with_answer answer roundId
        startedAt updatedAt answeredInRound].
      destruct (S2 (answer round * 10 ^ Z.abs (d - c))) as [Hf ->].
      destruct (Z.ltb_spec d c); [lia|]. cbn [call_bind].
      replace (Z.abs (c - d)) with (Z.abs (d - c)) by lia.
      rewrite Z.quot_mul by lia. destruct round; reflexivity.
    + intros _. cbn [call_bind].
      fold (with_answer round
              (Z.quot (answer round) (10 ^ Z.abs (d - c)))).
      rewrite Hdecode. cbn [call_bind with_answer answer roundId
        startedAt updatedAt answeredInRound].
      destruct (S2 (Z.quot (answer round) (10 ^ Z.abs (d - c))))
        as [Hf ->].
      destruct (Z.ltb_spec d c); [lia|]. cbn [call_bind].
      replace (d - c) with 0 by lia. replace (c - d) with 0 by lia.
      cbn [Z.abs]. rewrite !Z.quot_1_r. destruct round; reflexivity.
  - intros Hlt.
    destruct (Z.ltb_spec c d); [lia|]. cbn [call_bind].
    fold (with_answer round
            (Z.quot (answer round) (10 ^ Z.abs (d - c)))).
    rewrite Hdecode. cbn [call_bind with_answer answer roundId
      startedAt updatedAt answeredInRound].
    destruct (S2 (Z.quot (answer round) (10 ^ Z.abs (d - c))))
      as [Hf ->].
    destruct (Z.ltb_spec d c); [|lia].
    replace (Z.abs (d - c)) with (c - d) in * by lia.
    replace (Z.abs (c - d)) with (c - d) in * by lia.
    pose proof (Z.quot_rem' (answer round) (10 ^ (c - d))) as Hqr.
    unfold mul_int256.
    replace (Z.quot (answer round) (10 ^ (c - d)) * 10 ^ (c - d))
      with (answer round - Z.rem (answer round) (10 ^ (c - d))) by lia.
    assert (Hin' : is_int256
                     (answer round - Z.rem (answer round) (10 ^ (c - d)))).
    { unfold is_int256 in *.
      replace (answer round - Z.rem (answer round) (10 ^ (c - d)))
        with (Z.quot (answer round) (10 ^ (c - d)) * 10 ^ (c - d)) by lia.
      pose proof (quot_towards_zero (answer round) (10 ^ (c - d)) Hf)
        as [Hq1 Hq2].
      assert (int256_min <= 0 <= int256_max)
        by (vm_compute; split; discriminate).
      destruct (Z_le_gt_dec 0 (answer round));
        [specialize (Hq1 ltac:(lia)) | specialize (Hq2 ltac:(lia))]; lia. }
    destruct Hin' as [Hin1 Hin2].
    apply Z.leb_le in Hin1, Hin2. rewrite Hin1, Hin2.
    cbn [andb call_bind]. reflexivity.
Qed.

End PriceFeed.

(** ** The sample network, the simulated target and a sample feed *)

Section MoreExamples.

Lemma percentage_outcomes_witness :
  is_double (of_Z 3) /\ fails_with OutOfRange (percentage (of_Z 3) true).
Proof.
  assert (H : is_double (of_Z 3)) by (vm_compute; reflexivity).
  split; [exact H|].
  destruct (percentage_outcomes (of_Z 3) H)
    as [[Hin _] | [[_ Hf] | [Hn _]]].
  - destruct Hin as (_ & _ & H1). vm_compute in H1. discriminate H1.
  - exact Hf.
  - vm_compute in Hn. discriminate Hn.
Defined.

Lemma address_case_is_ignored_witness :
  isAddress feed_sample = true
  /\ isAddress (lowercase feed_sample) = true.
Proof.
  assert (Ha : isAddress asset_WBTC = true) by (vm_compute; reflexivity).
  assert (Hp : isAddress (priceFeed sample_config) = true)
    by (vm_compute; reflexivity).
  split; [exact Hp|].
  exact (proj1 (proj2 (address_case_is_ignored asset_WBTC sample_config
                         Ha Hp))).
Defined.

(** A slope of 300% is refused. *)
Lemma getInterestRateInfo_accepts_iff_witness :
  fails_with OutOfRange (getInterestRateInfo steep_rates)
  /\ exists info, getInterestRateInfo sample_rates = Ok info.
Proof.
  split.
  - refine (proj2 (proj2 (getInterestRateInfo_accepts_iff steep_rates
                            _ _ _ _)) _ _ _);
      try (vm_compute; reflexivity).
    + split; [|split]; vm_compute; reflexivity.
    + split; [|split]; vm_compute; reflexivity.
    + left. vm_compute. reflexivity.
  - refine (proj2 (proj1 (getInterestRateInfo_accepts_iff sample_rates
                            _ _ _ _)) _);
      try (vm_compute; reflexivity).
    repeat split; vm_compute; reflexivity.
Defined.

Lemma packAssetConfig_accepts_iff_witness :
  (exists w, packAssetConfig asset_WBTC sample_config = Ok w)
  /\ finite (supplyCap sample_config).
Proof.
  assert (H : exists w, packAssetConfig asset_WBTC sample_config = Ok w)
    by (eexists; vm_compute; reflexivity).
  split; [exact H|].
  refine (proj1 (proj2 (proj2 (proj2 (proj2 (proj2
            (proj1 (packAssetConfig_accepts_iff asset_WBTC sample_config
                      _ _ _) H))))))); vm_compute; reflexivity.
Defined.

Lemma packed_words_size_witness :
  exists x w,
    encodes asset_WBTC sample_config x
    /\ packAssetConfig asset_WBTC sample_config = Ok w
    /\ 0 <= word_a w < 2 ^ 208.
Proof.
  destruct (packed_words_size asset_WBTC sample_config sample_config_valid)
    as (x & w & Hx & Hw & _ & _ & Ha & _).
  exists x, w. auto.
Defined.

(** The sample network: a store-front price factor of 0.5 is floored
    to 0. *)
Lemma getConfiguration_output_witness :
  exists p,
    getConfiguration sample_network sample_contracts = inr p
    /\ isAddress (governor p) = true
    /\ storeFrontPriceFactor p = 0
    /\ 0 <= reserveRate p <= 10 ^ 18.
Proof.
  destruct (getConfiguration sample_network sample_contracts)
    as [t | p] eqn:H.
  - vm_compute in H. discriminate H.
  - exists p. split; [reflexivity|].
    destruct (getConfiguration_output sample_network sample_contracts p)
      as ((_ & Hg) & _ & _ & _ & _ & _ & Hs & _ & _ & Hr);
      [vm_compute; reflexivity | exact H |].
    split; [exact Hg|]. split; [|exact Hr].
    assert (Hf : floor (Network.storeFrontPriceFactor sample_network)
                 = Ok 0) by (vm_compute; reflexivity).
    rewrite Hf in Hs. inversion Hs. reflexivity.
Defined.

Lemma run_fails_before_sorting_witness :
  run code_unit_compare serialise no_signer signer
      {| migrationList := 0%nat |} (fresh [catalog_ab])
  = (fresh [catalog_ab], inl "no governor"%string).
Proof.
  apply (run_fails_before_sorting code_unit_compare serialise no_signer
           signer {| migrationList := 0%nat |} (fresh [catalog_ab]) []
           "no governor"%string).
  left. reflexivity.
Defined.


Lemma run_stops_at_unserialisable_artifact_witness :
  exists w2,
    run code_unit_compare serialise_json signer signer
        {| migrationList := 0%nat |}
        (fresh [[migration "c_raiseCap"; bigint_artifact "b_addCollateral";
                 migration "a_fixOracle"]])
    = (w2, inl "TypeError"%string)
    /\ context w2 = ["a_fixOracle"%string].
Proof.
  pose (w := fresh [[migration "c_raiseCap";
                     bigint_artifact "b_addCollateral";
                     migration "a_fixOracle"]]).
  pose (w0 := fst (enter code_unit_compare signer signer
                     {| migrationList := 0%nat |} w)).
  pose (w1 := fst (apply_migrations serialise_json
                     [migration "a_fixOracle"] w0)).
  destruct (run_stops_at_unserialisable_artifact code_unit_compare
              serialise_json signer signer {| migrationList := 0%nat |}
              w w0 w1 [migration "a_fixOracle"] [migration "c_raiseCap"]
              (bigint_artifact "b_addCollateral")
              ["a_fixOracle"%string] "1n"%string "TypeError"%string)
    as (w2 & Hrun & Hc & _).
  - vm_compute. reflexivity.
  - vm_compute. reflexivity.
  - vm_compute. reflexivity.
  - reflexivity.
  - exists w2. split; [exact Hrun | exact Hc].
Defined.

Lemma run_sorts_only_its_array_witness :
  Array_sort (fun a b => code_unit_compare (name a) (name b))
    (read (arrays (fst (run_on_target {| migrationList := 0%nat |}
                          (fresh [catalog_ab])))) 0%nat)
  = Array_sort (fun a b => code_unit_compare (name a) (name b))
      catalog_ab.
Proof.
  refine (proj2 (proj2 (run_sorts_only_its_array code_unit_compare
                          serialise signer signer
                          code_unit_compare_antisym
                          code_unit_compare_trans
                          {| migrationList := 0%nat |}
                          (fresh [catalog_ab])
                          (fst (run_on_target {| migrationList := 0%nat |}
                                  (fresh [catalog_ab])))
                          (inr ["a_fixOracle"; "b_addCollateral"]%string)
                          _))).
  vm_compute. reflexivity.
Defined.

Lemma next_appends_one_array_witness :
  exists g' h',
    next catalog_ab (AtWhile 0) [] = (Some 0%nat, g', h')
    /\ h' = [] ++ [read h' 0%nat].
Proof.
  destruct (next catalog_ab (AtWhile 0) []) as [[r g'] h'] eqn:H.
  pose proof (next_appends_one_array catalog_ab (AtWhile 0) g' [] h' r H)
    as Hn.
  destruct r as [subset|].
  - destruct Hn as (-> & Hh & _). exists g', h'. split; [reflexivity|].
    exact Hh.
  - destruct Hn as [_ Hr]. vm_compute in Hr. discriminate Hr.
Defined.

End MoreExamples.

Section FeedExamples.
Import ScalingPriceFeed.

Lemma uint8_8 : is_uint8 8.
Proof. vm_compute. split; discriminate. Defined.

Lemma uint8_18 : is_uint8 18.
Proof. vm_compute. split; discriminate. Defined.

Lemma uint8_6 : is_uint8 6.
Proof. vm_compute. split; discriminate. Defined.

Lemma sample_round_decodes :
  is_uint80 (roundId sample_round)
  /\ is_uint80 (answeredInRound sample_round).
Proof. vm_compute. repeat split; discriminate. Defined.

(** Eighteen decimals over the sample feed's eight: the factor is
    [10^10]. *)
Lemma constructor_fixes_power_of_ten_witness :
  constructor sample_feed 18 = inr (scaled_sample 18 true (10 ^ 10)).
Proof.
  refine (proj1 (constructor_fixes_power_of_ten sample_feed 18 8
                   "ETH / USD" uint8_18 uint8_8 eq_refl eq_refl) _).
  vm_compute. discriminate.
Defined.

(** Six decimals over eight: 1850.43 at eight decimals is 1850430000 at
    six. *)
Lemma downscaling_feed_truncates_witness :
  latestRoundData (scaled_sample 6 false 100)
  = inr (with_answer sample_round 1850430000).
Proof.
  destruct (downscaling_feed_truncates sample_feed 6 8
              (scaled_sample 6 false 100) uint8_6 uint8_8)
    as (_ & Hl & _).
  - lia.
  - reflexivity.
  - vm_compute. reflexivity.
  - exact (proj1 (Hl sample_round eq_refl) sample_round_decodes).
Defined.

Lemma upscaling_feed_is_exact_or_reverts_witness :
  latestRoundData (scaled_sample 18 true (10 ^ 10))
  = inr (with_answer sample_round (185043000000 * 10 ^ 10)).
Proof.
  refine (proj1 (upscaling_feed_is_exact_or_reverts sample_feed 18 8
                   (scaled_sample 18 true (10 ^ 10)) sample_round
                   uint8_18 uint8_8 _ eq_refl _ eq_refl)
            sample_round_decodes _).
  - lia.
  - vm_compute. reflexivity.
  - vm_compute. split; discriminate.
Defined.

Lemma scaling_preserves_order_witness :
  scalePrice (scaled_sample 6 false 100) 185043000000 = inr 1850430000
  /\ scalePrice (scaled_sample 6 false 100) 185043000099 = inr 1850430000
  /\ 1850430000 <= 1850430000.
Proof.
  assert (H1 : scalePrice (scaled_sample 6 false 100) 185043000000
               = inr 1850430000) by (vm_compute; reflexivity).
  assert (H2 : scalePrice (scaled_sample 6 false 100) 185043000099
               = inr 1850430000) by (vm_compute; reflexivity).
  split; [exact H1|]. split; [exact H2|].
  refine (proj1 (scaling_preserves_order sample_feed 6 8
                   (scaled_sample 6 false 100)
                   185043000000 185043000099 1850430000 1850430000
                   uint8_6 uint8_8 eq_refl _ H1 H2 _)).
  - vm_compute. reflexivity.
  - lia.
Defined.

Lemma scaling_back_and_forth_witness :
  latestRoundData
    {| decimals := 8;
       underlyingPriceFeed := as_feed (scaled_sample 18 true (10 ^ 10));
       description := "ETH / USD";
       shouldUpscale := false;
       rescaleFactor := 10 ^ 10 |}
  = inr sample_round.
Proof.
  destruct (scaling_back_and_forth sample_feed 18 8
              (scaled_sample 18 true (10 ^ 10))
              {| decimals := 8;
                 underlyingPriceFeed :=
                   as_feed (scaled_sample 18 true (10 ^ 10));
                 description := "ETH / USD";
                 shouldUpscale := false;
                 rescaleFactor := 10 ^ 10 |}
              sample_round uint8_18 uint8_8 eq_refl)
    as (_ & Hup & _).
  - vm_compute. reflexivity.
  - reflexivity.
  - reflexivity.
  - exact (proj1 sample_round_decodes).
  - exact (proj2 sample_round_decodes).
  - vm_compute. split; discriminate.
  - apply (Hup ltac:(lia)
             (with_answer sample_round (185043000000 * 10 ^ 10))).
    vm_compute. reflexivity.
Defined.

End FeedExamples.
